(** * Van Emde Boas tree: a shallow embedding of [van_emde_boas.py]

    The Python class [VanEmdeBoasTree] is embedded as a nested inductive type
    whose cluster dictionary is a [gmap Z].  Methods mutate [self] in place;
    every node is owned by exactly one parent, so the embedding passes the
    state explicitly: a mutating method returns the new node.  Python
    exceptions are results of the error monad [result].

    The methods are recursive on child nodes that are either read out of the
    cluster dictionary or freshly constructed, so they are defined by
    recursion on a depth budget [fuel]; running out of budget is the result
    [Raise OutOfFuel], and the theorems show that a budget larger than the
    bit width of the universe is never exhausted.

    [__init__] computes [ceil(log(valueRange, 2))] in floating point, which
    is not always the exact logarithm: [ceil(log(2**29, 2))] is 30.  The
    embedding does not fix the function: it is the parameter [ceil_log2],
    and the theorems say what they need of it ([log_ok]).

    The text of an integer, as [str] of a tuple prints it, is its decimal
    numeral, stdpp's [pretty]; CPython refuses to print an integer of more
    than 4300 digits. *)

From stdpp Require Import gmap list sorting strings pretty.
From Stdlib Require Import ZArith Lia Ascii.

Set Warnings "-register-all,-clear-no-such-hyp".
Open Scope Z_scope.

(** ** Exceptions and results *)

Inductive exn : Set :=
| AttributeError   (* an attribute the object does not have *)
| KeyError         (* [d[k]] on a missing key *)
| TypeError        (* ordering or arithmetic with [None] *)
| ValueError       (* [math.log] outside its domain, a negative shift count,
                      an integer too long to print *)
| OutOfFuel.       (* the depth budget of the embedding ran out *)

Inductive result (A : Type) : Type :=
| Ok (a : A)
| Raise (e : exn).
Arguments Ok {A} a.
Arguments Raise {A} e.

#[global] Instance result_ret : MRet result := fun A a => Ok a.
#[global] Instance result_bind : MBind result := fun A B f m =>
  match m with
  | Ok a => f a
  | Raise e => Raise e
  end.

(** ** The data model *)

(** The attributes that [__init__] sets only when [valueRange > 2]. *)
Record attrs (T : Type) : Type := Attrs {
  summary : option T;
  cluster : gmap Z T;
  lsbSize : Z;
  lsqrt : Z;
  hsqrt : Z;
  lsbMask : Z
}.
Arguments Attrs {T}.
Arguments summary {T}.
Arguments cluster {T}.
Arguments lsbSize {T}.
Arguments lsqrt {T}.
Arguments hsqrt {T}.
Arguments lsbMask {T}.

Inductive VanEmdeBoasTree : Type := Tree {
  valueRange : Z;
  min : option Z;
  max : option Z;
  inner : option (attrs VanEmdeBoasTree)
}.

Definition set_min (self : VanEmdeBoasTree) (v : option Z) : VanEmdeBoasTree :=
  Tree (valueRange self) v (max self) (inner self).
Definition set_max (self : VanEmdeBoasTree) (v : option Z) : VanEmdeBoasTree :=
  Tree (valueRange self) (min self) v (inner self).
Definition set_inner (self : VanEmdeBoasTree) (a : attrs VanEmdeBoasTree)
  : VanEmdeBoasTree :=
  Tree (valueRange self) (min self) (max self) (Some a).
Definition set_summary {T} (a : attrs T) (s : option T) : attrs T :=
  Attrs s (cluster a) (lsbSize a) (lsqrt a) (hsqrt a) (lsbMask a).
Definition set_cluster {T} (a : attrs T) (c : gmap Z T) : attrs T :=
  Attrs (summary a) c (lsbSize a) (lsqrt a) (hsqrt a) (lsbMask a).

(** Reading [self.summary], [self.cluster], [self.lsbSize], ... *)
Definition attr (self : VanEmdeBoasTree) : result (attrs VanEmdeBoasTree) :=
  match inner self with
  | Some a => Ok a
  | None => Raise AttributeError
  end.

(** [d[k]] *)
Definition getitem {T} (d : gmap Z T) (k : Z) : result T :=
  match d !! k with
  | Some c => Ok c
  | None => Raise KeyError
  end.

(** ** The logarithm of [__init__] *)

(** [ceil_log2 r] is what [ceil(log(r, 2))] evaluates to for an integer
    [r >= 1]: [math.log] divides two double-precision logarithms, so the
    value depends on the floating-point arithmetic of the platform. *)
Class FloatLog := ceil_log2 : Z → Z.

(** The logarithm computed exactly, without rounding error. *)
Definition exact_log : FloatLog := Z.log2_up.

(** The logarithm as double precision computes it on the arguments that a
    structure of range 2^57 passes to it, which are 2^57 and the powers of
    two with the exponents 29, 28, 15, 14, 8, 7, 4, 3, 2 and 1: exact except
    at 2^29, where [ceil(log(2**29, 2))] is 30. *)
Definition double_log : FloatLog :=
  λ r, if decide (r = 2 ^ 29) then 30 else Z.log2_up r.

Section Embedding.
Context {lg : FloatLog}.

(** ** [__init__] *)

Definition init (valueRange : Z) : result VanEmdeBoasTree :=
  if decide (valueRange ≤ 0) then Raise ValueError else   (* math domain error *)
  let bitSize := ceil_log2 valueRange in
  if decide (bitSize < 0) then Raise ValueError else    (* negative shift count *)
  let valueRange := 1 ≪ bitSize in
  if decide (valueRange > 2) then
    let lsbSize := bitSize / 2 in                  (* floor(bitSize/2) *)
    let lsqrt := 1 ≪ lsbSize in
    let hsqrt := 1 ≪ ((bitSize + 1) / 2) in        (* 1 << ceil(bitSize/2) *)
    Ok (Tree valueRange None None
          (Some (Attrs None ∅ lsbSize lsqrt hsqrt (lsqrt - 1))))
  else
    Ok (Tree valueRange None None None).

(** ** [clusterIndex], [valueIndex], [value] *)

Definition clusterIndex {T} (a : attrs T) (x : Z) : Z := x ≫ lsbSize a.

Definition valueIndex {T} (a : attrs T) (x : Z) : Z := Z.land x (lsbMask a).

Definition value {T} (a : attrs T) (clusterIndex : Z) (valueIndex : option Z)
  : result Z :=
  match valueIndex with
  | Some v => Ok ((clusterIndex ≪ lsbSize a) + v)
  | None => Raise TypeError
  end.

(** ** [contains] *)

Fixpoint contains (fuel : nat) (self : VanEmdeBoasTree) (x : Z) : result bool :=
  match fuel with
  | O => Raise OutOfFuel
  | S fuel =>
    if decide (min self = Some x ∨ max self = Some x) then Ok true else
    match min self with
    | None => Ok false
    | Some mn =>
      if decide (x < mn) then Ok false else
      match max self with
      | None => Raise TypeError
      | Some mx =>
        if decide (x > mx) then Ok false else
        if decide (valueRange self = 2) then Ok false else
        a ← attr self;
        match cluster a !! clusterIndex a x with
        | None => Ok false
        | Some xCluster => contains fuel xCluster (valueIndex a x)
        end
      end
    end
  end.

(** ** [predecessor] and [successor] *)

(** Line 86 of [predecessor]: the cached minimum is the last candidate. *)
Definition predecessor_bound (self : VanEmdeBoasTree) (x : Z)
  : result (option Z) :=
  Ok (match min self with
      | Some mn => if decide (x > mn) then Some mn else None
      | None => None
      end).

(** Lines 81-86 of [predecessor]: the greatest value of the nearest cluster
    before the one of [x], found through the summary.  [predecessor] is the
    method itself, at the remaining depth budget. *)
Definition predecessor_summary
    (predecessor : VanEmdeBoasTree → Z → result (option Z))
    (self : VanEmdeBoasTree) (a : attrs VanEmdeBoasTree) (x : Z)
  : result (option Z) :=
  match summary a with
  | Some s =>
    predClusterIndex ← predecessor s (clusterIndex a x);
    match predClusterIndex with
    | Some p =>
      c ← getitem (cluster a) p;
      v ← value a p (max c);
      Ok (Some v)
    | None => predecessor_bound self x
    end
  | None => predecessor_bound self x
  end.

Fixpoint predecessor (fuel : nat) (self : VanEmdeBoasTree) (x : Z)
  : result (option Z) :=
  match fuel with
  | O => Raise OutOfFuel
  | S fuel =>
    if decide (valueRange self = 2) then
      Ok (if decide (x = 1 ∧ min self = Some 0) then Some 0 else None)
    else
    let beyond := match max self with
                  | Some mx => bool_decide (x > mx)
                  | None => false
                  end in
    if beyond then Ok (max self) else
    a ← attr self;
    let xClusterIndex := clusterIndex a x in
    let xCluster := cluster a !! xClusterIndex in
    let xIndex := valueIndex a x in
    match xCluster with
    | Some c =>
      match min c with
      | None => Raise TypeError
      | Some cmin =>
        if decide (cmin < xIndex) then
          p ← predecessor fuel c xIndex;
          v ← value a xClusterIndex p;
          Ok (Some v)
        else predecessor_summary (predecessor fuel) self a x
      end
    | None => predecessor_summary (predecessor fuel) self a x
    end
  end.

(** Line 111 of [successor]. *)
Definition successor_bound (self : VanEmdeBoasTree) (x : Z)
  : result (option Z) :=
  Ok (match max self with
      | Some mx => if decide (x < mx) then Some mx else None
      | None => None
      end).

(** Lines 106-111 of [successor]. *)
Definition successor_summary
    (successor : VanEmdeBoasTree → Z → result (option Z))
    (self : VanEmdeBoasTree) (a : attrs VanEmdeBoasTree) (x : Z)
  : result (option Z) :=
  match summary a with
  | Some s =>
    succClusterIndex ← successor s (clusterIndex a x);
    match succClusterIndex with
    | Some p =>
      c ← getitem (cluster a) p;
      v ← value a p (min c);
      Ok (Some v)
    | None => successor_bound self x
    end
  | None => successor_bound self x
  end.

Fixpoint successor (fuel : nat) (self : VanEmdeBoasTree) (x : Z)
  : result (option Z) :=
  match fuel with
  | O => Raise OutOfFuel
  | S fuel =>
    if decide (valueRange self = 2) then
      Ok (if decide (x = 0 ∧ max self = Some 1) then Some 1 else None)
    else
    let before := match min self with
                  | Some mn => bool_decide (x < mn)
                  | None => false
                  end in
    if before then Ok (min self) else
    a ← attr self;
    let xClusterIndex := clusterIndex a x in
    let xCluster := cluster a !! xClusterIndex in
    let xIndex := valueIndex a x in
    match xCluster with
    | Some c =>
      match max c with
      | None => Raise TypeError
      | Some cmax =>
        if decide (cmax > xIndex) then
          p ← successor fuel c xIndex;
          v ← value a xClusterIndex p;
          Ok (Some v)
        else successor_summary (successor fuel) self a x
      end
    | None => successor_summary (successor fuel) self a x
    end
  end.

(** ** [insert] *)

(** Lines 141-153 of [insert]: the value [x] that is neither the minimum nor
    the maximum goes into its cluster.  [insert] is the method itself, at the
    remaining depth budget. *)
Definition insert_cluster
    (insert : VanEmdeBoasTree → Z → result VanEmdeBoasTree)
    (self : VanEmdeBoasTree) (x : Z) : result VanEmdeBoasTree :=
  a ← attr self;
  let xClusterIndex := clusterIndex a x in
  let xCluster := cluster a !! xClusterIndex in
  let xIndex := valueIndex a x in
  match xCluster with
  | None =>
    s ← match summary a with
        | None => init (hsqrt a)
        | Some s => Ok s
        end;
    s ← insert s xClusterIndex;
    c ← init (lsqrt a);
    c ← insert c xIndex;
    Ok (set_inner self
          (set_cluster (set_summary a (Some s))
             (<[xClusterIndex := c]> (cluster a))))
  | Some c =>
    c ← insert c xIndex;
    Ok (set_inner self (set_cluster a (<[xClusterIndex := c]> (cluster a))))
  end.

Fixpoint insert (fuel : nat) (self : VanEmdeBoasTree) (x : Z)
  : result VanEmdeBoasTree :=
  match fuel with
  | O => Raise OutOfFuel
  | S fuel =>
    if decide (Some x = min self ∨ Some x = max self) then Ok self else
    match min self with
    | None => Ok (set_max (set_min self (Some x)) (Some x))
    | Some mn =>
      if decide (min self = max self) then
        if decide (x < mn) then Ok (set_min self (Some x)) else
        match max self with
        | None => Raise TypeError
        | Some mx =>
          if decide (x > mx) then Ok (set_max self (Some x)) else Ok self
        end
      else
      if decide (valueRange self = 2) then Ok self else
      if decide (x < mn) then
        insert_cluster (insert fuel) (set_min self (Some x)) mn
      else
      match max self with
      | None => Raise TypeError
      | Some mx =>
        if decide (x > mx) then
          insert_cluster (insert fuel) (set_max self (Some x)) mx
        else
          insert_cluster (insert fuel) self x
      end
    end
  end.

(** ** [delete] *)

(** Lines 203-210 of [delete]: remove [xIndex] from [xCluster], which is the
    entry of the cluster dictionary at [xClusterIndex], and drop the cluster
    and the summary once they are empty. *)
Definition delete_cluster
    (delete : VanEmdeBoasTree → Z → result VanEmdeBoasTree)
    (self : VanEmdeBoasTree) (xClusterIndex : Z) (xCluster : VanEmdeBoasTree)
    (xIndex : Z) : result VanEmdeBoasTree :=
  a ← attr self;
  c ← delete xCluster xIndex;
  if decide (min c = None) then
    let cl := base.delete xClusterIndex (cluster a) in
    match summary a with
    | None => Raise AttributeError
    | Some s =>
      s ← delete s xClusterIndex;
      if decide (min s = None) then
        Ok (set_inner self (set_cluster (set_summary a None) cl))
      else
        Ok (set_inner self (set_cluster (set_summary a (Some s)) cl))
    end
  else
    Ok (set_inner self (set_cluster a (<[xClusterIndex := c]> (cluster a)))).

Fixpoint delete (fuel : nat) (self : VanEmdeBoasTree) (x : Z)
  : result VanEmdeBoasTree :=
  match fuel with
  | O => Raise OutOfFuel
  | S fuel =>
    match min self with
    | None => Ok self
    | Some mn =>
      if decide (x < mn) then Ok self else
      match max self with
      | None => Raise TypeError
      | Some mx =>
        if decide (x > mx) then Ok self else
        if decide (min self = max self) then
          Ok (set_max (set_min self None) None)
        else
        if decide (valueRange self = 2) then
          if decide (x = 0) then Ok (set_min self (Some 1))
          else Ok (set_max self (Some 0))
        else
        if decide (x = mn) then
          a ← attr self;
          match summary a with
          | None => Ok (set_min self (max self))
          | Some s =>
            match min s with
            | None => Raise KeyError
            | Some xClusterIndex =>
              xCluster ← getitem (cluster a) xClusterIndex;
              v ← value a xClusterIndex (min xCluster);
              match min xCluster with
              | None => Raise TypeError
              | Some xIndex =>
                delete_cluster (delete fuel) (set_min self (Some v))
                  xClusterIndex xCluster xIndex
              end
            end
          end
        else if decide (x = mx) then
          a ← attr self;
          match summary a with
          | None => Ok (set_max self (min self))
          | Some s =>
            match max s with
            | None => Raise KeyError
            | Some xClusterIndex =>
              xCluster ← getitem (cluster a) xClusterIndex;
              v ← value a xClusterIndex (max xCluster);
              match max xCluster with
              | None => Raise TypeError
              | Some xIndex =>
                delete_cluster (delete fuel) (set_max self (Some v))
                  xClusterIndex xCluster xIndex
              end
            end
          end
        else
          a ← attr self;
          match cluster a !! clusterIndex a x with
          | None => Ok self
          | Some xCluster =>
            delete_cluster (delete fuel) self
              (clusterIndex a x) xCluster (valueIndex a x)
          end
      end
    end
  end.

(** ** Calls on a top-level structure *)

(** A node of [b] bits has children of at most [(b+1)/2] bits, so the
    recursion is never deeper than the bit width of the universe. *)
Definition depth (self : VanEmdeBoasTree) : nat :=
  S (Z.to_nat (Z.log2 (valueRange self))).

(** A client's call of a method is the method at the budget [depth self].
    On the reachable states the budget is never exhausted, and a larger one
    returns the same ([budget_irrelevant]). *)

Definition veb_contains (self : VanEmdeBoasTree) (x : Z) : result bool :=
  contains (depth self) self x.
Definition veb_predecessor (self : VanEmdeBoasTree) (x : Z) : result (option Z) :=
  predecessor (depth self) self x.
Definition veb_successor (self : VanEmdeBoasTree) (x : Z) : result (option Z) :=
  successor (depth self) self x.
Definition veb_insert (self : VanEmdeBoasTree) (x : Z) : result VanEmdeBoasTree :=
  insert (depth self) self x.
Definition veb_delete (self : VanEmdeBoasTree) (x : Z) : result VanEmdeBoasTree :=
  delete (depth self) self x.

(** ** [__iter__] *)

(** The [while] loop of the generator, collecting the yielded values; [n]
    bounds the number of iterations, and the loop that would go on is the
    result [Raise OutOfFuel]. *)
Fixpoint iter_loop (n : nat) (self : VanEmdeBoasTree) (value : option Z)
  : result (list Z) :=
  match value with
  | None => Ok []
  | Some v =>
    match n with
    | O => Raise OutOfFuel
    | S n =>
      next ← veb_successor self v;
      rest ← iter_loop n self next;
      Ok (v :: rest)
    end
  end.

(** The generator run with the bound [valueRange] on its iterations: a
    structure that was only given values of its universe yields no more
    values than that, and every larger bound gives the same sequence
    ([budget_irrelevant]).  On a structure that was given values outside
    its universe the generator may yield more; the bound is then exhausted
    ([Raise OutOfFuel]), and no theorem speaks of that case. *)
Definition iter (self : VanEmdeBoasTree) : result (list Z) :=
  iter_loop (Z.to_nat (valueRange self)) self (min self).

(** ** [__str__] and [__repr__] *)

(** [str(t)] for a tuple [t] of integers: the decimal numerals separated by
    a comma and a space, in parentheses; a tuple of one element has a
    trailing comma. *)
Definition tuple_str (l : list Z) : string :=
  match l with
  | [] => "()"
  | [v] => "(" +:+ pretty v +:+ ",)"
  | _ => "(" +:+ String.concat ", " (pretty <$> l) +:+ ")"
  end.

(** CPython (3.11 and later, at its default setting) raises [ValueError]
    instead of printing an integer of more than 4300 decimal digits. *)
Definition max_str_digits : Z := 4300.

Definition printable (v : Z) : Prop := Z.abs v < 10 ^ max_str_digits.

(** [str(tuple(value for value in self))]: the generator is run to its end
    before the tuple is printed, so what it raises, [__str__] raises. *)
Definition str (self : VanEmdeBoasTree) : result string :=
  values ← iter self;
  if decide (Forall printable values) then Ok (tuple_str values)
  else Raise ValueError.

Definition repr (self : VanEmdeBoasTree) : result string := str self.

(** ** Sequences of operations *)

Inductive op : Set :=
| Insert (x : Z)
| Delete (x : Z).

#[global] Instance op_eq_dec : EqDecision op.
Proof. solve_decision. Defined.

Definition arg (o : op) : Z :=
  match o with Insert x => x | Delete x => x end.

Definition apply_op (self : VanEmdeBoasTree) (o : op) : result VanEmdeBoasTree :=
  match o with
  | Insert x => veb_insert self x
  | Delete x => veb_delete self x
  end.

Fixpoint run (ops : list op) (self : VanEmdeBoasTree) : result VanEmdeBoasTree :=
  match ops with
  | [] => Ok self
  | o :: ops => self ← apply_op self o; run ops self
  end.

(* ================================================================= *)
(** * Specification vocabulary *)

(** ** The depth budget *)

(** [refines r r']: unless the first run exhausted its budget, the second
    run has the same result. *)
Definition refines {A} (r r' : result A) : Prop :=
  r ≠ Raise OutOfFuel → r' = r.

(** The widest universe, in bits, on which [n] nested calls are enough:
    1 bit for one call, 2 bits for two, and 2^(n-1) + 2 bits for n >= 2.
    (The two extra bits pay for a logarithm that comes out one too high in
    a child.) *)
Definition width_bound (n : nat) : Z :=
  match n with
  | O => 1
  | S O => 2
  | S (S m) => 2 ^ Z.of_nat (S m) + 2
  end.

(** ** The stored set and the representation invariant *)

(** [in_cluster elem a x]: the cluster that the high bits of [x] select
    exists and represents the low bits of [x]. *)
Definition in_cluster
    (elem : VanEmdeBoasTree → Z → Prop) (a : attrs VanEmdeBoasTree) (x : Z)
  : Prop :=
  ∃ c, cluster a !! clusterIndex a x = Some c ∧ elem c (valueIndex a x).

(** [elem self x]: the value [x] is represented in the node [self], either
    cached as its minimum or maximum or, recursively, inside a cluster. *)
Inductive elem : VanEmdeBoasTree → Z → Prop :=
| elem_min self x : min self = Some x → elem self x
| elem_max self x : max self = Some x → elem self x
| elem_cluster self a x :
    inner self = Some a → in_cluster elem a x → elem self x.

(** The cached bounds are both absent, or both present, ordered and inside
    the universe of [k] bits. *)
Definition bounds_ok (k : Z) (mn mx : option Z) : Prop :=
  match mn, mx with
  | None, None => True
  | Some a, Some b => 0 ≤ a ∧ a ≤ b ∧ b < 2 ^ k
  | _, _ => False
  end.

(** [v] lies strictly between the two cached bounds. *)
Definition between (mn mx : option Z) (v : Z) : Prop :=
  match mn, mx with
  | Some a, Some b => a < v < b
  | _, _ => False
  end.

(** The bit widths of the nodes that [insert] constructs below a node of
    [k] bits: [VanEmdeBoasTree(self.lsqrt)] and
    [VanEmdeBoasTree(self.hsqrt)]. *)
Definition cluster_bits (k : Z) : Z := ceil_log2 (2 ^ (k / 2)).
Definition summary_bits (k : Z) : Z := ceil_log2 (2 ^ ((k + 1) / 2)).

(** What the theorems need of the floating-point logarithm, for a structure
    of [K] bits: for a power of two [2^j] below its universe,
    [ceil(log(2**j, 2))] is [j] or [j + 1], and it is [j] for 2 and 4.  (The
    double-precision [math.log] gives [j + 1] at j = 29, 31, 39, 47, ...) *)
Definition log_ok (K : Z) : Prop :=
  ∀ j, 1 ≤ j < K →
    j ≤ ceil_log2 (2 ^ j) ≤ j + 1 ∧ (j ≤ 2 → ceil_log2 (2 ^ j) = j).

(** The bit-width attributes of a node of [k] bits, as [__init__] sets
    them. *)
Definition attrs_ok {T} (k : Z) (a : attrs T) : Prop :=
  lsbSize a = k / 2 ∧ lsqrt a = 2 ^ (k / 2) ∧
  hsqrt a = 2 ^ ((k + 1) / 2) ∧ lsbMask a = 2 ^ (k / 2) - 1.

(** [wf k self]: [self] is a node over the universe of [k] bits in a state
    that the operations maintain.  Every cluster is a non-empty node of
    [cluster_bits k] bits that holds values below [lsqrt], the values of the
    clusters lie strictly between the cached bounds, and the summary, a node
    of [summary_bits k] bits, is present exactly when there are clusters and
    stores their indices. *)
Inductive wf : Z → VanEmdeBoasTree → Prop :=
| wf_leaf k mn mx :
    0 ≤ k ≤ 1 → bounds_ok k mn mx → wf k (Tree (2 ^ k) mn mx None)
| wf_node k mn mx a :
    2 ≤ k → bounds_ok k mn mx → attrs_ok k a →
    (∀ i c, cluster a !! i = Some c → wf (cluster_bits k) c ∧ min c ≠ None) →
    (∀ x, in_cluster elem a x → between mn mx x) →
    (∀ s, summary a = Some s →
          wf (summary_bits k) s ∧ min s ≠ None ∧
          ∀ i, elem s i ↔ is_Some (cluster a !! i)) →
    (summary a = None → cluster a = ∅) →
    log_ok k →
    (∀ i c j, cluster a !! i = Some c → elem c j → j < 2 ^ (k / 2)) →
    wf k (Tree (2 ^ k) mn mx (Some a)).

(** The empty node of [k] bits, as [__init__] builds it. *)
Definition fresh (k : Z) : VanEmdeBoasTree :=
  if decide (k ≤ 1) then Tree (2 ^ k) None None None
  else Tree (2 ^ k) None None
         (Some (Attrs None ∅ (k / 2) (2 ^ (k / 2)) (2 ^ ((k + 1) / 2))
                  (2 ^ (k / 2) - 1))).

(** A node of [k] bits that holds at most its two cached bounds. *)
Definition bare (k : Z) (mn mx : option Z) : VanEmdeBoasTree :=
  Tree (2 ^ k) mn mx (inner (fresh k)).

(** ** What the recursive methods do on nodes below [k] bits *)

(** These are the induction hypotheses of the proofs by induction on the
    depth budget, in the shape in which [insert_cluster], [delete_cluster],
    [predecessor_summary] and [successor_summary] use the method. *)
Definition insert_ok (k : Z)
    (ins : VanEmdeBoasTree → Z → result VanEmdeBoasTree) : Prop :=
  ∀ k' self x, k' < k → wf k' self → 0 ≤ x < 2 ^ k' →
    ∃ self', ins self x = Ok self' ∧ wf k' self' ∧
             ∀ y, elem self' y ↔ elem self y ∨ y = x.

Definition delete_ok (k : Z)
    (del : VanEmdeBoasTree → Z → result VanEmdeBoasTree) : Prop :=
  ∀ k' self x, k' < k → wf k' self →
    ∃ self', del self x = Ok self' ∧ wf k' self' ∧
             ∀ y, elem self' y ↔ elem self y ∧ y ≠ x.

(** [r] is the greatest value of [self] below [x], or none. *)
Definition is_pred (self : VanEmdeBoasTree) (x : Z) (r : option Z) : Prop :=
  match r with
  | Some p => elem self p ∧ p < x ∧ ∀ y, elem self y → y < x → y ≤ p
  | None => ∀ y, elem self y → x ≤ y
  end.

(** [r] is the least value of [self] above [x], or none. *)
Definition is_succ (self : VanEmdeBoasTree) (x : Z) (r : option Z) : Prop :=
  match r with
  | Some p => elem self p ∧ x < p ∧ ∀ y, elem self y → x < y → p ≤ y
  | None => ∀ y, elem self y → y ≤ x
  end.

Definition pred_ok (k : Z)
    (pr : VanEmdeBoasTree → Z → result (option Z)) : Prop :=
  ∀ k' self x, 1 ≤ k' < k → wf k' self → 0 ≤ x < 2 ^ k' →
    ∃ r, pr self x = Ok r ∧ is_pred self x r.

Definition succ_ok (k : Z)
    (sc : VanEmdeBoasTree → Z → result (option Z)) : Prop :=
  ∀ k' self x, 1 ≤ k' < k → wf k' self → 0 ≤ x < 2 ^ k' →
    ∃ r, sc self x = Ok r ∧ is_succ self x r.

(** ** What a client observes *)

(** The stored set: the values for which [contains] returns [True]. *)
Definition stored (self : VanEmdeBoasTree) (x : Z) : Prop :=
  veb_contains self x = Ok true.

(** The states reachable from [VanEmdeBoasTree(R)] by insertions and
    deletions of values of the universe. *)
Inductive reachable (R : Z) : VanEmdeBoasTree → Prop :=
| reach_init self : init R = Ok self → reachable R self
| reach_insert self x self' :
    reachable R self → 0 ≤ x < valueRange self →
    veb_insert self x = Ok self' → reachable R self'
| reach_delete self x self' :
    reachable R self → 0 ≤ x < valueRange self →
    veb_delete self x = Ok self' → reachable R self'.

(** The nodes of a structure: the structure itself and, recursively, its
    summary and its clusters. *)
Inductive child : VanEmdeBoasTree → VanEmdeBoasTree → Prop :=
| child_summary self a s :
    inner self = Some a → summary a = Some s → child s self
| child_cluster self a i c :
    inner self = Some a → cluster a !! i = Some c → child c self.

Inductive node_of (self : VanEmdeBoasTree) : VanEmdeBoasTree → Prop :=
| node_self : node_of self self
| node_child n c : node_of self n → child c n → node_of self c.

(** ** Histories *)

(** The set that a history of operations denotes. *)
Definition apply_model (S : gset Z) (o : op) : gset Z :=
  match o with
  | Insert a => S ∪ {[a]}
  | Delete a => S ∖ {[a]}
  end.

Definition model (ops : list op) : gset Z := foldl apply_model ∅ ops.

(** [x] was inserted at some point and not deleted since its most recent
    insertion. *)
Definition live (ops : list op) (x : Z) : Prop :=
  ∃ pre post, ops = pre ++ Insert x :: post ∧
              (Insert x ∉ post) ∧ (Delete x ∉ post).

(** ** The structural invariant, over what a client observes of a node *)

Definition structural_invariant (n : VanEmdeBoasTree) : Prop :=
  (* min and max are both absent iff the node is empty *)
  ((min n = None ∧ max n = None) ↔ ∀ x, ¬ stored n x) ∧
  (min n = None ↔ max n = None) ∧
  (* when present, min <= max *)
  (∀ a b, min n = Some a → max n = Some b → a ≤ b) ∧
  (* when min = max, exactly one value is stored, and no cluster or summary
     is populated *)
  (∀ a, min n = Some a → max n = Some a →
     (∀ x, stored n x ↔ x = a) ∧
     ∀ att, inner n = Some att → summary att = None ∧ cluster att = ∅) ∧
  (* above the base case: the summary is present iff some cluster exists, it
     stores exactly the keys of the cluster mapping, and every mapped
     cluster is non-empty *)
  (valueRange n > 2 →
     ∃ att, inner n = Some att ∧
       (is_Some (summary att) ↔ ∃ i, is_Some (cluster att !! i)) ∧
       (∀ s, summary att = Some s → ∀ i, stored s i ↔ is_Some (cluster att !! i)) ∧
       (∀ i c, cluster att !! i = Some c → ∃ x, stored c x)).

(** A node with [min = max] answers [contains], [insert] and [delete] from
    the two cached bounds alone: whatever [inner] holds is neither read nor
    changed. *)
Definition singleton_unconsulted (n : VanEmdeBoasTree) : Prop :=
  ∀ a, min n = Some a → max n = Some a →
  ∀ fuel inn x,
    let n' := Tree (valueRange n) (Some a) (Some a) inn in
    contains (S fuel) n' x = Ok (bool_decide (x = a)) ∧
    insert (S fuel) n' x
      = Ok (Tree (valueRange n) (Some (Z.min a x)) (Some (Z.max a x)) inn) ∧
    delete (S fuel) n' x
      = Ok (if decide (x = a) then Tree (valueRange n) None None inn else n').

(** A node with [min = max] answers [predecessor] and [successor] without a
    recursive call: the budget of a single call gives the answer. *)
Definition singleton_no_recursion (n : VanEmdeBoasTree) : Prop :=
  ∀ a, min n = Some a → max n = Some a →
  ∀ x, predecessor 1 n x = veb_predecessor n x ∧
       successor 1 n x = veb_successor n x.

(** [x] is represented inside a cluster child of [n]: the cluster at some
    index [i] stores some [j], and [x] is [value(i, j)]. *)
Definition clustered (n : VanEmdeBoasTree) (x : Z) : Prop :=
  ∃ a i c j, inner n = Some a ∧ cluster a !! i = Some c ∧ stored c j ∧
             value a i (Some j) = Ok x.

End Embedding.

(** ** The printed form *)

(** The characters of a decimal numeral: the digits and the minus sign. *)
Definition numeral_char (c : ascii) : bool :=
  bool_decide (c = "-"%char)
  || (48 <=? nat_of_ascii c)%nat && (nat_of_ascii c <=? 57)%nat.

Fixpoint numeral (s : string) : bool :=
  match s with
  | EmptyString => true
  | String c s => numeral_char c && numeral s
  end.

(** ** A concrete structure *)

(** A structure of range 16 after a short history: it stores 1, 2, 3, 5, 6
    and 9.  (At the sizes of its nodes, 16, 4 and 2, the logarithm is
    computed exactly.) *)
Definition sample_ops : list op :=
  [Insert 3; Insert 1; Insert 4; Insert 1; Insert 5; Insert 9; Insert 2;
   Insert 6; Delete 4].

Definition sample : VanEmdeBoasTree :=
  Eval vm_compute in
    match run (lg := exact_log) sample_ops (fresh 4) with
    | Ok self => self
    | Raise _ => fresh 4
    end.

(** Its cluster of index 0, which holds 2 and 3. *)
Definition sample_cluster : VanEmdeBoasTree :=
  Eval vm_compute in
    match inner sample with
    | Some a => default (fresh 2) (cluster a !! 0)
    | None => fresh 2
    end.

(** Its cluster attributes. *)
Definition sample_attrs : attrs VanEmdeBoasTree :=
  Eval vm_compute in
    match inner sample with
    | Some a => a
    | None => Attrs None ∅ 0 0 0 0
    end.

(* ================================================================= *)
(** A structure of range 2^57 that stores 0, 5 and 2^56, under the
    logarithm [double_log]: its summary is [VanEmdeBoasTree(2**29)], a node
    over 2^30 values. *)
Definition wide_ops : list op := [Insert 0; Insert (2 ^ 56); Insert 5].

Definition wide : VanEmdeBoasTree :=
  Eval vm_compute in
    match init (lg := double_log) (2 ^ 57)
          ≫= run (lg := double_log) wide_ops with
    | Ok self => self
    | Raise _ => Tree 0 None None None
    end.

(** * Verification *)

Section Verification.
Context {lg : FloatLog}.

(** ** Results *)

Lemma bind_Ok {A B} (a : A) (f : A → result B) : (Ok a ≫= f) = f a.
Proof. reflexivity. Qed.

Lemma bind_Raise {A B} (e : exn) (f : A → result B) : (Raise e ≫= f) = Raise e.
Proof. reflexivity. Qed.

(** ** A larger depth budget gives the same result *)

Lemma refines_refl {A} (r : result A) : refines r r.
Proof. by intros _. Qed.

Lemma refines_bind {A B} (m m' : result A) (f f' : A → result B) :
  refines m m' → (∀ a, refines (f a) (f' a)) →
  refines (m ≫= f) (m' ≫= f').
Proof.
  intros Hm Hf H. destruct m as [a|e]; simpl in *.
  - rewrite Hm by done. simpl. by apply Hf.
  - rewrite Hm; [done|]. intros [= ->]. by apply H.
Qed.

Ltac refines_tac IH :=
  repeat first
    [ apply refines_refl
    | apply IH; lia
    | apply refines_bind; [|intros ?]
    | progress cbv zeta
    | match goal with
      | |- refines (match ?d with _ => _ end) (match ?d with _ => _ end) =>
          destruct d
      end ].

Lemma contains_mono n : ∀ m self x,
  (n ≤ m)%nat → refines (contains n self x) (contains m self x).
Proof.
  induction n as [|n IH]; intros m self x Hm; [by intros []|].
  destruct m as [|m]; [lia|]. simpl. refines_tac IH.
Qed.

Lemma predecessor_summary_mono pr pr' self a x :
  (∀ s y, refines (pr s y) (pr' s y)) →
  refines (predecessor_summary pr self a x) (predecessor_summary pr' self a x).
Proof. intros H. unfold predecessor_summary. refines_tac H. Qed.

Lemma successor_summary_mono sc sc' self a x :
  (∀ s y, refines (sc s y) (sc' s y)) →
  refines (successor_summary sc self a x) (successor_summary sc' self a x).
Proof. intros H. unfold successor_summary. refines_tac H. Qed.

Lemma predecessor_mono n : ∀ m self x,
  (n ≤ m)%nat → refines (predecessor n self x) (predecessor m self x).
Proof.
  induction n as [|n IH]; intros m self x Hm; [by intros []|].
  destruct m as [|m]; [lia|]. simpl.
  repeat first
    [ apply predecessor_summary_mono; intros; apply IH; lia
    | progress refines_tac IH ].
Qed.

Lemma successor_mono n : ∀ m self x,
  (n ≤ m)%nat → refines (successor n self x) (successor m self x).
Proof.
  induction n as [|n IH]; intros m self x Hm; [by intros []|].
  destruct m as [|m]; [lia|]. simpl.
  repeat first
    [ apply successor_summary_mono; intros; apply IH; lia
    | progress refines_tac IH ].
Qed.

Lemma insert_cluster_mono ins ins' self x :
  (∀ s y, refines (ins s y) (ins' s y)) →
  refines (insert_cluster ins self x) (insert_cluster ins' self x).
Proof. intros H. unfold insert_cluster. refines_tac H. Qed.

Lemma insert_mono n : ∀ m self x,
  (n ≤ m)%nat → refines (insert n self x) (insert m self x).
Proof.
  induction n as [|n IH]; intros m self x Hm; [by intros []|].
  destruct m as [|m]; [lia|]. simpl.
  repeat first
    [ apply insert_cluster_mono; intros; apply IH; lia
    | progress refines_tac IH ].
Qed.

Lemma delete_cluster_mono del del' self ci c xi :
  (∀ s y, refines (del s y) (del' s y)) →
  refines (delete_cluster del self ci c xi) (delete_cluster del' self ci c xi).
Proof. intros H. unfold delete_cluster. refines_tac H. Qed.

Lemma delete_mono n : ∀ m self x,
  (n ≤ m)%nat → refines (delete n self x) (delete m self x).
Proof.
  induction n as [|n IH]; intros m self x Hm; [by intros []|].
  destruct m as [|m]; [lia|]. simpl.
  repeat first
    [ apply delete_cluster_mono; intros; apply IH; lia
    | progress refines_tac IH ].
Qed.

Lemma iter_loop_mono self n : ∀ m v,
  (n ≤ m)%nat → refines (iter_loop n self v) (iter_loop m self v).
Proof.
  induction n as [|n IH]; intros m v Hm.
  { destruct v; [by intros []|]. destruct m; apply refines_refl. }
  destruct m as [|m]; [lia|]. simpl. refines_tac IH.
Qed.

(** The calls on a top-level structure do not depend on the budget [depth],
    nor the enumeration on its bound: whatever they return, every larger
    budget returns. *)
Theorem budget_irrelevant self x fuel :
  (depth self ≤ fuel)%nat →
  refines (veb_contains self x) (contains fuel self x) ∧
  refines (veb_predecessor self x) (predecessor fuel self x) ∧
  refines (veb_successor self x) (successor fuel self x) ∧
  refines (veb_insert self x) (insert fuel self x) ∧
  refines (veb_delete self x) (delete fuel self x) ∧
  ∀ n, (Z.to_nat (valueRange self) ≤ n)%nat →
       refines (iter self) (iter_loop n self (min self)).
Proof.
  intros H. repeat split.
  - by apply contains_mono.
  - by apply predecessor_mono.
  - by apply successor_mono.
  - by apply insert_mono.
  - by apply delete_mono.
  - intros n Hn. by apply iter_loop_mono.
Qed.

(** ** Splitting a value into cluster index and index in the cluster *)

Section Split.
Variable k : Z.
Hypothesis Hk : 2 ≤ k.
Variable T : Type.
Variable a : attrs T.
Hypothesis Ha : attrs_ok k a.

Local Abbreviation L := (2 ^ (k / 2)).

Lemma half_bits : 1 ≤ k / 2 ∧ 1 ≤ (k + 1) / 2 ∧ k / 2 < k ∧ (k + 1) / 2 < k
                  ∧ k / 2 + (k + 1) / 2 = k.
Proof using Hk.
  assert (k = 2 * (k / 2) + k mod 2) by (apply Z.div_mod; lia).
  assert (0 ≤ k mod 2 < 2) by (apply Z.mod_pos_bound; lia).
  assert (k + 1 = 2 * ((k + 1) / 2) + (k + 1) mod 2) by (apply Z.div_mod; lia).
  assert (0 ≤ (k + 1) mod 2 < 2) by (apply Z.mod_pos_bound; lia).
  lia.
Qed.

Lemma L_pos : 2 ≤ L.
Proof using Hk.
  destruct half_bits as (? & _).
  change 2 with (2 ^ 1) at 1. apply Z.pow_le_mono_r; lia.
Qed.

Lemma universe_split : 2 ^ k = 2 ^ ((k + 1) / 2) * L.
Proof using Hk.
  destruct half_bits as (? & ? & ? & ? & Hs).
  rewrite <- Z.pow_add_r by lia. f_equal. lia.
Qed.

Lemma clusterIndex_div x : clusterIndex a x = x / L.
Proof using Hk Ha.
  unfold clusterIndex. destruct Ha as (-> & _).
  destruct half_bits. apply Z.shiftr_div_pow2. lia.
Qed.

Lemma valueIndex_mod x : valueIndex a x = x mod L.
Proof using Hk Ha.
  unfold valueIndex. destruct Ha as (_ & _ & _ & ->).
  destruct half_bits.
  replace (2 ^ (k / 2) - 1) with (Z.ones (k / 2))
    by (rewrite Z.ones_equiv; lia).
  apply Z.land_ones. lia.
Qed.

Lemma value_mul i j : value a i (Some j) = Ok (i * L + j).
Proof using Hk Ha.
  unfold value. destruct Ha as (-> & _). destruct half_bits.
  rewrite Z.shiftl_mul_pow2 by lia. reflexivity.
Qed.

Lemma split_value x : x = clusterIndex a x * L + valueIndex a x.
Proof using Hk Ha.
  rewrite clusterIndex_div, valueIndex_mod.
  pose proof L_pos. rewrite (Z.div_mod x L) at 1 by lia. lia.
Qed.

Lemma valueIndex_range x : 0 ≤ valueIndex a x < L.
Proof using Hk Ha.
  rewrite valueIndex_mod. pose proof L_pos. apply Z.mod_pos_bound. lia.
Qed.

Lemma clusterIndex_range x :
  0 ≤ x < 2 ^ k → 0 ≤ clusterIndex a x < 2 ^ ((k + 1) / 2).
Proof using Hk Ha.
  intros Hx. rewrite clusterIndex_div. pose proof L_pos.
  rewrite universe_split in Hx. split.
  - apply Z.div_pos; lia.
  - apply Z.div_lt_upper_bound; lia.
Qed.

Lemma clusterIndex_value i j : 0 ≤ j < L → clusterIndex a (i * L + j) = i.
Proof using Hk Ha.
  intros Hj. rewrite clusterIndex_div. pose proof L_pos.
  rewrite Z.div_add_l by lia. rewrite Z.div_small by lia. lia.
Qed.

Lemma valueIndex_value i j : 0 ≤ j < L → valueIndex a (i * L + j) = j.
Proof using Hk Ha.
  intros Hj. rewrite valueIndex_mod. pose proof L_pos.
  rewrite Z.add_comm, Z.mod_add by lia. apply Z.mod_small. lia.
Qed.
End Split.

(** ** Construction *)

Lemma init_fresh R :
  1 ≤ R → 0 ≤ ceil_log2 R → init R = Ok (fresh (ceil_log2 R)).
Proof.
  intros HR Hk. unfold init, fresh.
  set (k := ceil_log2 R) in *. rewrite !Z.shiftl_1_l.
  destruct (decide (R ≤ 0)); [lia|]. destruct (decide (k < 0)); [lia|].
  destruct (decide (k ≤ 1)) as [Hle|Hgt].
  - assert (2 ^ k ≤ 2 ^ 1) by (apply Z.pow_le_mono_r; lia).
    destruct (decide (2 ^ k > 2)); [lia|]. reflexivity.
  - assert (2 ^ 2 ≤ 2 ^ k) by (apply Z.pow_le_mono_r; lia).
    destruct (decide (2 ^ k > 2)); [|lia]. reflexivity.
Qed.

Lemma log_ok_le K K' : log_ok K → K' ≤ K → log_ok K'.
Proof. intros H Hle j Hj. apply H. lia. Qed.

(** The nodes below a node of [k] bits are narrower than it, and wide
    enough for the values that they are given. *)
Lemma child_bits k :
  2 ≤ k → log_ok k →
  1 ≤ cluster_bits k < k ∧ 1 ≤ summary_bits k < k ∧
  2 ^ (k / 2) ≤ 2 ^ cluster_bits k ∧
  2 ^ ((k + 1) / 2) ≤ 2 ^ summary_bits k ∧
  log_ok (cluster_bits k) ∧ log_ok (summary_bits k).
Proof.
  intros Hk Hlog. unfold cluster_bits, summary_bits.
  assert (1 ≤ k / 2 < k ∧ 1 ≤ (k + 1) / 2 < k ∧
          (k / 2 ≤ 2 ∨ k / 2 + 1 < k) ∧
          ((k + 1) / 2 ≤ 2 ∨ (k + 1) / 2 + 1 < k))
    as (Hc & Hs & Hc' & Hs') by (Z.div_mod_to_equations; lia).
  destruct (Hlog (k / 2) Hc) as [Hc1 Hc2].
  destruct (Hlog ((k + 1) / 2) Hs) as [Hs1 Hs2].
  assert (ceil_log2 (2 ^ (k / 2)) < k) by (destruct Hc'; [rewrite Hc2|]; lia).
  assert (ceil_log2 (2 ^ ((k + 1) / 2)) < k)
    by (destruct Hs'; [rewrite Hs2|]; lia).
  split; [lia|]. split; [lia|].
  split; [apply Z.pow_le_mono_r; lia|].
  split; [apply Z.pow_le_mono_r; lia|].
  split; apply (log_ok_le k); (done || lia).
Qed.

Lemma init_cluster k :
  2 ≤ k → log_ok k → init (2 ^ (k / 2)) = Ok (fresh (cluster_bits k)).
Proof.
  intros Hk Hlog. destruct (child_bits k Hk Hlog) as (? & _).
  apply init_fresh; [|unfold cluster_bits in *; lia].
  assert (0 < 2 ^ (k / 2)); [|lia].
  apply Z.pow_pos_nonneg; [lia|]. Z.div_mod_to_equations; lia.
Qed.

Lemma init_summary k :
  2 ≤ k → log_ok k → init (2 ^ ((k + 1) / 2)) = Ok (fresh (summary_bits k)).
Proof.
  intros Hk Hlog. destruct (child_bits k Hk Hlog) as (_ & ? & _).
  apply init_fresh; [|unfold summary_bits in *; lia].
  assert (0 < 2 ^ ((k + 1) / 2)); [|lia].
  apply Z.pow_pos_nonneg; [lia|]. Z.div_mod_to_equations; lia.
Qed.

Lemma elem_inv self x :
  elem self x ↔
  min self = Some x ∨ max self = Some x ∨
  ∃ a, inner self = Some a ∧ in_cluster elem a x.
Proof.
  split.
  - destruct 1; eauto.
  - intros [H|[H|(a & H1 & H2)]];
      [apply elem_min|apply elem_max|eapply elem_cluster]; eauto.
Qed.

Lemma elem_fresh k x : ¬ elem (fresh k) x.
Proof.
  unfold fresh. intros H. apply elem_inv in H.
  destruct (decide (k ≤ 1)); simpl in H;
    destruct H as [H|[H|(a & H1 & c & H2 & _)]]; try discriminate.
  injection H1 as <-. simpl in H2. rewrite lookup_empty in H2. discriminate.
Qed.

Lemma wf_fresh k : 0 ≤ k → log_ok k → wf k (fresh k).
Proof.
  intros Hk Hlog. unfold fresh. destruct (decide (k ≤ 1)).
  - apply wf_leaf; [lia|exact I].
  - apply wf_node; simpl; try done.
    + lia.
    + intros x (c & H & _). simpl in H. rewrite lookup_empty in H.
      discriminate.
Qed.

Lemma wf_log_ok k self : wf k self → log_ok k.
Proof.
  destruct 1 as [k mn mx Hk _|]; [|done]. intros j Hj. lia.
Qed.


(** ** Consequences of the invariant *)

Lemma wf_nonneg k self : wf k self → 0 ≤ k.
Proof. destruct 1; lia. Qed.

Lemma wf_valueRange k self : wf k self → valueRange self = 2 ^ k.
Proof. destruct 1; reflexivity. Qed.

Lemma wf_bounds k self : wf k self → bounds_ok k (min self) (max self).
Proof. destruct 1; assumption. Qed.

Lemma wf_depth k self : wf k self → k < Z.of_nat (depth self).
Proof.
  intros H. unfold depth. rewrite (wf_valueRange _ _ H).
  pose proof (wf_nonneg _ _ H). rewrite Z.log2_pow2 by lia. lia.
Qed.

Lemma wf_inside k self x :
  wf k self → elem self x →
  min self = Some x ∨ max self = Some x ∨ between (min self) (max self) x.
Proof.
  intros Hwf H. apply elem_inv in H.
  destruct H as [H|[H|(a & H1 & H2)]]; auto.
  right; right. destruct Hwf; simpl in *; [discriminate|].
  injection H1 as <-. auto.
Qed.

Lemma elem_bounds k self x :
  wf k self → elem self x →
  ∃ a b, min self = Some a ∧ max self = Some b ∧ 0 ≤ a ∧ a ≤ x ∧ x ≤ b ∧ b < 2 ^ k.
Proof.
  intros Hwf H. pose proof (wf_bounds _ _ Hwf) as Hb.
  apply (wf_inside _ _ _ Hwf) in H. unfold bounds_ok, between in *.
  destruct (min self) as [a|], (max self) as [b|];
    try (destruct H as [H|[H|H]]; done).
  exists a, b. destruct H as [H|[H|H]]; simplify_eq; repeat split; lia.
Qed.

Lemma elem_range k self x : wf k self → elem self x → 0 ≤ x < 2 ^ k.
Proof.
  intros Hwf H. destruct (elem_bounds _ _ _ Hwf H) as (a & b & _ & _ & ?). lia.
Qed.

Lemma wf_cluster_range k vr mn mx a i c j :
  wf k (Tree vr mn mx (Some a)) → cluster a !! i = Some c → elem c j →
  0 ≤ j < 2 ^ (k / 2).
Proof.
  intros Hwf Ec Hj. inversion Hwf as [|? ? ? ? ? ? ? Hch ? ? ? ? Hval]; subst.
  destruct (Hch _ _ Ec) as [Hwfc _].
  pose proof (elem_range _ _ _ Hwfc Hj). split; [lia|]. by eapply Hval.
Qed.

Lemma min_None_empty k self x : wf k self → min self = None → ¬ elem self x.
Proof.
  intros Hwf Hm H. destruct (elem_bounds _ _ _ Hwf H) as (a & b & ? & _).
  congruence.
Qed.

Lemma nonempty_elem self : min self ≠ None → ∃ x, elem self x.
Proof.
  destruct (min self) as [m|] eqn:E; [|done]. intros _. exists m.
  by apply elem_min.
Qed.

(** ** [contains] decides the stored set *)

Lemma pow2_eq_2 k : 0 ≤ k → 2 ^ k = 2 → k = 1.
Proof.
  intros Hk H. destruct (decide (k = 0)) as [->|]; [discriminate|].
  destruct (decide (k = 1)); [done|].
  assert (2 ^ 2 ≤ 2 ^ k) by (apply Z.pow_le_mono_r; lia). lia.
Qed.

Lemma contains_spec fuel : ∀ k self x,
  wf k self → k < Z.of_nat fuel →
  ∃ b, contains fuel self x = Ok b ∧ (b = true ↔ elem self x).
Proof.
  induction fuel as [|fuel IH]; intros k self x Hwf Hfuel.
  { pose proof (wf_nonneg _ _ Hwf). lia. }
  assert (Hno : ∀ P : Prop, (elem self x → P) → (elem self x → ¬ P) →
                ∃ b, Ok false = Ok b ∧ (b = true ↔ elem self x)).
  { intros P H1 H2. exists false. split; [done|]. split; [done|].
    intros H. destruct (H2 H (H1 H)). }
  simpl.
  destruct (decide (min self = Some x ∨ max self = Some x)) as [Hmm|Hmm].
  { exists true. split; [done|]. split; [|done]. intros _.
    destruct Hmm; [by apply elem_min|by apply elem_max]. }
  destruct (min self) as [mn|] eqn:Emin.
  2: { apply (Hno False); [|tauto]. intros H.
       by eapply min_None_empty in H. }
  destruct (decide (x < mn)).
  { apply (Hno False); [|tauto]. intros H.
    destruct (elem_bounds _ _ _ Hwf H) as (a & b & ? & ? & ? & ? & ? & ?).
    simplify_eq. lia. }
  pose proof (wf_bounds _ _ Hwf) as Hb. unfold bounds_ok in Hb.
  rewrite Emin in Hb. destruct (max self) as [mx|] eqn:Emax; [|done].
  destruct (decide (x > mx)).
  { apply (Hno False); [|tauto]. intros H.
    destruct (elem_bounds _ _ _ Hwf H) as (a & b & ? & ? & ? & ? & ? & ?).
    simplify_eq. lia. }
  destruct Hwf as [k mn' mx' Hk Hbd|k mn' mx' a Hk Hbd Ha Hch Hin Hs Hs0 Hlog Hval];
    simpl in *; simplify_eq.
  - (* a node without clusters *)
    destruct (decide (2 ^ k = 2)) as [Hk2|Hk2].
    + apply (Hno False); [|tauto]. intros H. apply elem_inv in H. simpl in H.
      destruct H as [H|[H|(a & H & _)]]; [tauto|tauto|discriminate].
    + assert (k = 0) as -> by (destruct (decide (k = 1)) as [->|]; [done|lia]).
      exfalso. apply Hmm. left. f_equal. change (2 ^ 0) with 1 in Hb. lia.
  - destruct (decide (2 ^ k = 2)) as [Hk2|Hk2].
    { apply pow2_eq_2 in Hk2; lia. }
    assert (Helem : ∀ c, cluster a !! clusterIndex a x = Some c →
                    (elem (Tree (2 ^ k) (Some mn) (Some mx) (Some a)) x ↔
                     elem c (valueIndex a x))).
    { intros c Hc. rewrite elem_inv. simpl. split.
      - intros [H|[H|(a' & H1 & c' & H2 & H3)]]; [tauto|tauto|].
        by simplify_eq.
      - intros H. right; right. exists a. split; [done|]. by exists c. }
    destruct (cluster a !! clusterIndex a x) as [c|] eqn:Ec.
    + destruct (Hch _ _ Ec) as [Hwfc _].
      destruct (IH (cluster_bits k) c (valueIndex a x) Hwfc) as (b & Hb1 & Hb2).
      { pose proof (child_bits k Hk Hlog). lia. }
      exists b. split; [done|]. rewrite Hb2. symmetry. by apply Helem.
    + apply (Hno False); [|tauto]. intros H. apply elem_inv in H. simpl in H.
      destruct H as [H|[H|(a' & H1 & c' & H2 & H3)]]; [tauto|tauto|].
      simplify_eq.
Qed.

(** ** Nodes without clusters *)

Lemma elem_node vr mn mx a y :
  elem (Tree vr mn mx (Some a)) y ↔
  mn = Some y ∨ mx = Some y ∨ in_cluster elem a y.
Proof.
  rewrite elem_inv. simpl. split.
  - intros [H|[H|(a' & H1 & H2)]]; auto. injection H1 as <-. auto.
  - intros [H|[H|H]]; eauto.
Qed.

Lemma elem_bare k mn mx y : elem (bare k mn mx) y ↔ mn = Some y ∨ mx = Some y.
Proof.
  rewrite elem_inv. unfold bare, fresh. split.
  - intros [H|[H|(a & H1 & c & H2 & _)]]; auto.
    destruct (decide (k ≤ 1)); simpl in H1; [discriminate|].
    injection H1 as <-. simpl in H2. by rewrite lookup_empty in H2.
  - intros [H|H]; auto.
Qed.

Lemma wf_bare k mn mx :
  0 ≤ k → log_ok k → bounds_ok k mn mx → wf k (bare k mn mx).
Proof.
  intros Hk Hlog Hb. unfold bare, fresh. destruct (decide (k ≤ 1)); simpl.
  - apply wf_leaf; [lia|done].
  - apply wf_node; simpl; try done.
    + lia.
    + intros x (c & H & _). simpl in H. by rewrite lookup_empty in H.
Qed.

Lemma bare_fresh k : bare k None None = fresh k.
Proof. unfold bare, fresh. by destruct (decide (k ≤ 1)). Qed.

Lemma in_cluster_intro k (a : attrs VanEmdeBoasTree) i c j :
  2 ≤ k → attrs_ok k a →
  (∀ i c j, cluster a !! i = Some c → elem c j → j < 2 ^ (k / 2)) →
  cluster a !! i = Some c → wf (cluster_bits k) c → elem c j →
  in_cluster elem a (i * 2 ^ (k / 2) + j).
Proof.
  intros Hk Ha Hval Hc Hwf Hj. pose proof (elem_range _ _ _ Hwf Hj) as Hr.
  pose proof (Hval _ _ _ Hc Hj). assert (0 ≤ j < 2 ^ (k / 2)) by lia.
  exists c. rewrite (clusterIndex_value k Hk _ a Ha) by done.
  rewrite (valueIndex_value k Hk _ a Ha) by done. done.
Qed.

Lemma bare_inv k self :
  wf k self → (∀ v, ¬ between (min self) (max self) v) →
  self = bare k (min self) (max self).
Proof.
  intros Hwf Hno.
  destruct Hwf as [k mn mx Hk Hbd|k mn mx a Hk Hbd Ha Hch Hin Hs Hs0 Hlog Hval];
    simpl in *; unfold bare, fresh.
  - destruct (decide (k ≤ 1)); [done|lia].
  - destruct (decide (k ≤ 1)); [lia|]. simpl. do 2 f_equal.
    assert (Hcl : cluster a = ∅).
    { apply map_empty. intros i. destruct (cluster a !! i) as [c|] eqn:Ec; [|done].
      destruct (Hch _ _ Ec) as [Hwfc Hne].
      destruct (nonempty_elem _ Hne) as [j Hj].
      destruct (Hno (i * 2 ^ (k / 2) + j)). apply Hin.
      by eapply in_cluster_intro. }
    assert (Hsum : summary a = None).
    { destruct (summary a) as [s|] eqn:Es; [|done].
      destruct (Hs _ eq_refl) as (_ & Hne & Hkeys).
      destruct (nonempty_elem _ Hne) as [i Hi]. apply Hkeys in Hi.
      rewrite Hcl, lookup_empty in Hi. by destruct Hi. }
    destruct Ha as (? & ? & ? & ?). destruct a; simpl in *. by subst.
Qed.

Lemma wf_rebound k vr mn mx mn' mx' a :
  wf k (Tree vr mn mx (Some a)) → bounds_ok k mn' mx' →
  (∀ v, in_cluster elem a v → between mn mx v → between mn' mx' v) →
  wf k (Tree vr mn' mx' (Some a)).
Proof.
  intros Hwf Hb Hmono. inversion Hwf; subst. apply wf_node; auto.
Qed.

Lemma wf_node_inv k vr mn mx a :
  wf k (Tree vr mn mx (Some a)) →
  vr = 2 ^ k ∧ 2 ≤ k ∧ bounds_ok k mn mx ∧ attrs_ok k a ∧
  (∀ i c, cluster a !! i = Some c → wf (cluster_bits k) c ∧ min c ≠ None) ∧
  (∀ x, in_cluster elem a x → between mn mx x) ∧
  (∀ s, summary a = Some s →
        wf (summary_bits k) s ∧ min s ≠ None ∧
        ∀ i, elem s i ↔ is_Some (cluster a !! i)) ∧
  (summary a = None → cluster a = ∅) ∧
  log_ok k ∧
  (∀ i c j, cluster a !! i = Some c → elem c j → j < 2 ^ (k / 2)).
Proof. intros Hwf. inversion Hwf; subst. tauto. Qed.

(** The clusters are stored under keys below [hsqrt]. *)
Lemma cluster_keys k vr mn mx a i c :
  wf k (Tree vr mn mx (Some a)) → cluster a !! i = Some c →
  0 ≤ i < 2 ^ ((k + 1) / 2).
Proof.
  intros Hwf Ec.
  destruct (wf_node_inv _ _ _ _ _ Hwf)
    as (_ & Hk & Hbd & Ha & Hch & Hin & _ & _ & _ & Hval).
  destruct (Hch _ _ Ec) as [Hwfc Hne].
  destruct (nonempty_elem _ Hne) as [j Hj].
  pose proof (wf_cluster_range _ _ _ _ _ _ _ _ Hwf Ec Hj) as Hjr.
  pose proof (in_cluster_intro k a i c j Hk Ha Hval Ec Hwfc Hj) as Hx.
  apply Hin in Hx. unfold between in Hx. unfold bounds_ok in Hbd.
  destruct mn as [m|], mx as [M|]; try done.
  pose proof (universe_split k Hk) as Hsplit. pose proof (L_pos k Hk).
  nia.
Qed.

(** ** [insert] adds one value *)

Lemma in_cluster_update (a a' : attrs VanEmdeBoasTree) ci c' y :
  lsbSize a' = lsbSize a → lsbMask a' = lsbMask a →
  cluster a' = <[ci := c']> (cluster a) →
  in_cluster elem a' y ↔
  (clusterIndex a y = ci ∧ elem c' (valueIndex a y)) ∨
  (clusterIndex a y ≠ ci ∧ in_cluster elem a y).
Proof.
  intros H1 H2 H3. unfold in_cluster, clusterIndex, valueIndex.
  rewrite H1, H2, H3.
  destruct (decide (y ≫ lsbSize a = ci)) as [<-|Hne].
  - rewrite lookup_insert_eq. split.
    + intros (c & ? & ?). simplify_eq. auto.
    + intros [[_ H]|[H _]]; [eauto|done].
  - rewrite lookup_insert_ne by done. split; [auto|].
    intros [[H _]|[_ H]]; [done|auto].
Qed.

Lemma in_cluster_at (a : attrs VanEmdeBoasTree) y c :
  cluster a !! clusterIndex a y = Some c →
  in_cluster elem a y ↔ elem c (valueIndex a y).
Proof.
  intros Hc. unfold in_cluster. rewrite Hc. split.
  - intros (c' & ? & ?). by simplify_eq.
  - eauto.
Qed.

Lemma in_cluster_none (a : attrs VanEmdeBoasTree) y :
  cluster a !! clusterIndex a y = None → ¬ in_cluster elem a y.
Proof. intros Hc (c & H & _). congruence. Qed.

Lemma elem_nonempty k self x : wf k self → elem self x → min self ≠ None.
Proof. intros Hwf H E. by eapply min_None_empty. Qed.

Lemma between_range k mn mx x :
  bounds_ok k mn mx → between mn mx x → 0 ≤ x < 2 ^ k.
Proof. unfold bounds_ok, between. destruct mn, mx; try done. lia. Qed.

Lemma same_split k (a : attrs VanEmdeBoasTree) x y :
  2 ≤ k → attrs_ok k a →
  y = x ↔ clusterIndex a y = clusterIndex a x ∧ valueIndex a y = valueIndex a x.
Proof.
  intros Hk Ha. split; [by intros ->|]. intros [E1 E2].
  rewrite (split_value k Hk _ a Ha y), (split_value k Hk _ a Ha x).
  by rewrite E1, E2.
Qed.

Lemma insert_cluster_spec k ins vr mn mx a x :
  insert_ok k ins → wf k (Tree vr mn mx (Some a)) → between mn mx x →
  ∃ a', insert_cluster ins (Tree vr mn mx (Some a)) x
          = Ok (Tree vr mn mx (Some a')) ∧
        wf k (Tree vr mn mx (Some a')) ∧
        ∀ y, in_cluster elem a' y ↔ in_cluster elem a y ∨ y = x.
Proof.
  intros Hins Hwf Hx.
  destruct (wf_node_inv _ _ _ _ _ Hwf)
    as (-> & Hk & Hbd & Ha & Hch & Hin & Hs & Hs0 & Hlog & Hval).
  pose proof (half_bits k Hk) as (Hh1 & Hh2 & Hh3 & Hh4 & Hh5).
  pose proof (child_bits k Hk Hlog) as (Hcb & Hsb & Hcp & Hsp & Hcl & Hsl).
  pose proof (between_range _ _ _ _ Hbd Hx) as Hxr.
  pose proof (clusterIndex_range k Hk _ a Ha x Hxr) as Hci.
  pose proof (valueIndex_range k Hk _ a Ha x) as Hxi.
  pose proof (same_split k a x) as Hyx.
  unfold insert_cluster. simpl.
  destruct (cluster a !! clusterIndex a x) as [c|] eqn:Ec.
  - (* the cluster exists *)
    destruct (Hch _ _ Ec) as [Hwfc Hnec].
    destruct (Hins (cluster_bits k) c (valueIndex a x))
      as (c' & Hc' & Hwfc' & Helc'); [lia|done|lia|].
    rewrite Hc'. simpl.
    set (a' := set_cluster a _).
    assert (Hiff : ∀ y, in_cluster elem a' y ↔ in_cluster elem a y ∨ y = x).
    { intros y. rewrite (in_cluster_update a a' (clusterIndex a x) c' y) by done.
      rewrite Helc', (Hyx y) by done.
      destruct (decide (clusterIndex a y = clusterIndex a x)) as [E|E].
      - rewrite (in_cluster_at a y c) by (by rewrite E). tauto.
      - tauto. }
    exists a'. split; [done|]. split; [|done].
    apply wf_node; try done.
    + intros i c0. simpl. rewrite lookup_insert. case_decide.
      * intros [= <-]. split; [done|]. eapply elem_nonempty; [done|].
        apply Helc'. by right.
      * apply Hch.
    + intros y Hy. apply Hiff in Hy as [Hy| ->]; auto.
    + simpl. intros s Es. destruct (Hs s Es) as (? & ? & Hkeys).
      split; [done|]. split; [done|]. intros i. rewrite Hkeys.
      rewrite lookup_insert_is_Some. split; [|intros [<-|[_ ?]]; eauto].
      destruct (decide (clusterIndex a x = i)); auto.
    + simpl. intros Es. apply Hs0 in Es. by rewrite Es, lookup_empty in Ec.
    + intros i c0 j. simpl. rewrite lookup_insert. case_decide.
      * intros [= <-] [Hj| ->]%Helc'; [by eapply Hval|lia].
      * apply Hval.
  - (* a new cluster, and its index goes into the summary *)
    assert (∃ s0, match summary a with
                  | Some s => Ok s
                  | None => init (hsqrt a)
                  end = Ok s0 ∧ wf (summary_bits k) s0 ∧
                  ∀ i, elem s0 i ↔ is_Some (cluster a !! i))
      as (s0 & -> & Hwfs0 & Hkeys0).
    { destruct (summary a) as [s|] eqn:Es.
      - exists s. destruct (Hs s eq_refl) as (? & ? & ?). done.
      - exists (fresh (summary_bits k)). destruct Ha as (_ & _ & -> & _).
        split; [by apply init_summary|]. split; [apply wf_fresh; (done || lia)|].
        intros i. rewrite (Hs0 eq_refl), lookup_empty. split.
        + intros H. by apply elem_fresh in H.
        + by intros []. }
    simpl.
    destruct (Hins (summary_bits k) s0 (clusterIndex a x))
      as (s1 & -> & Hwfs1 & Hels1); [lia|done|lia|].
    simpl. replace (lsqrt a) with (2 ^ (k / 2)) by (by destruct Ha as (_ & -> & _)).
    rewrite init_cluster by done. simpl.
    destruct (Hins (cluster_bits k) (fresh (cluster_bits k)) (valueIndex a x))
      as (c' & -> & Hwfc' & Helc'); [lia|apply wf_fresh; (done || lia)|lia|].
    simpl.
    set (a' := set_cluster _ _).
    assert (Hiff : ∀ y, in_cluster elem a' y ↔ in_cluster elem a y ∨ y = x).
    { intros y. rewrite (in_cluster_update a a' (clusterIndex a x) c' y) by done.
      rewrite Helc', (Hyx y) by done.
      pose proof (elem_fresh (cluster_bits k) (valueIndex a y)).
      destruct (decide (clusterIndex a y = clusterIndex a x)) as [E|E].
      - pose proof (in_cluster_none a y). rewrite E in *. tauto.
      - tauto. }
    exists a'. split; [done|]. split; [|done].
    apply wf_node; try done.
    + intros i c0. simpl. rewrite lookup_insert. case_decide.
      * intros [= <-]. split; [done|]. eapply elem_nonempty; [done|].
        apply Helc'. by right.
      * apply Hch.
    + intros y Hy. apply Hiff in Hy as [Hy| ->]; auto.
    + simpl. intros s [= <-]. split; [done|]. split.
      { eapply elem_nonempty; [done|]. apply Hels1. by right. }
      intros i. rewrite Hels1, Hkeys0, lookup_insert_is_Some.
      destruct (decide (clusterIndex a x = i)); intuition congruence.
    + intros i c0 j. simpl. rewrite lookup_insert. case_decide.
      * intros [= <-] [Hj| ->]%Helc'; [by apply elem_fresh in Hj|lia].
      * apply Hval.
Qed.

Lemma insert_spec fuel : insert_ok (Z.of_nat fuel) (insert fuel).
Proof.
  induction fuel as [|fuel IH]; intros k self x Hfuel Hwf Hx.
  { pose proof (wf_nonneg _ _ Hwf). lia. }
  assert (Hins : insert_ok k (insert fuel)).
  { intros k' s' x' ? ? ?. apply IH; [lia|done|done]. }
  pose proof (wf_nonneg _ _ Hwf) as Hk0.
  pose proof (wf_log_ok _ _ Hwf) as Hlog0.
  pose proof (wf_bounds _ _ Hwf) as Hbd.
  pose proof (bare_inv k self Hwf) as Hbare.
  simpl.
  destruct (decide (Some x = min self ∨ Some x = max self)) as [Hmm|Hmm].
  { exists self. split; [done|]. split; [done|]. intros y. split; [auto|].
    intros [?| ->]; [done|].
    destruct Hmm; [by apply elem_min|by apply elem_max]. }
  unfold bounds_ok in Hbd.
  destruct (min self) as [mn|] eqn:Emin; destruct (max self) as [mx|] eqn:Emax;
    try done.
  2: { (* the empty node *)
    rewrite Hbare by (intros v []). unfold set_max, set_min; simpl.
    exists (bare k (Some x) (Some x)). split; [done|].
    split; [apply wf_bare; [done|done|]; unfold bounds_ok; lia|].
    intros y. rewrite !elem_bare. intuition congruence. }
  destruct (decide (Some mn = Some mx)) as [E|Hne].
  { (* a single value *)
    injection E as <-.
    rewrite Hbare by (unfold between; intros v ?; lia).
    unfold set_max, set_min; simpl.
    destruct (decide (x < mn)); [|destruct (decide (x > mn))].
    - exists (bare k (Some x) (Some mn)). split; [done|].
      split; [apply wf_bare; [done|done|]; unfold bounds_ok; lia|].
      intros y. rewrite !elem_bare. intuition congruence.
    - exists (bare k (Some mn) (Some x)). split; [done|].
      split; [apply wf_bare; [done|done|]; unfold bounds_ok; lia|].
      intros y. rewrite !elem_bare. intuition congruence.
    - exfalso. apply Hmm. left. f_equal. lia. }
  assert (mn < mx) by (destruct (decide (mn = mx)); [congruence|lia]).
  clear Hbare.
  destruct Hwf as [k mn' mx' Hk Hbd'|k mn' mx' a Hk Hbd' Ha Hch Hin Hs Hs0 Hlog Hval];
    simpl in *; simplify_eq.
  { (* two bits at most: both values are the bounds *)
    exfalso. assert (2 ^ k ≤ 2 ^ 1) by (apply Z.pow_le_mono_r; lia).
    apply Hmm. change (2 ^ 1) with 2 in *.
    destruct (decide (x = mn)); [left; congruence|right; f_equal; lia]. }
  destruct (decide (2 ^ k = 2)) as [Hk2|_].
  { apply pow2_eq_2 in Hk2; lia. }
  assert (Hwf : wf k (Tree (2 ^ k) (Some mn) (Some mx) (Some a)))
    by (by apply wf_node).
  unfold set_min, set_max; simpl.
  destruct (decide (x < mn)); [|destruct (decide (x > mx))].
  - (* the old minimum is pushed down *)
    destruct (insert_cluster_spec k (insert fuel) (2 ^ k) (Some x) (Some mx) a mn)
      as (a' & -> & Hwf' & Hiff); [done| |simpl; lia|].
    { eapply wf_rebound; [done|simpl; lia|]. simpl. intros v _. lia. }
    eexists. split; [done|]. split; [done|].
    intros y. rewrite !elem_node, Hiff. intuition congruence.
  - (* the old maximum is pushed down *)
    destruct (insert_cluster_spec k (insert fuel) (2 ^ k) (Some mn) (Some x) a mx)
      as (a' & -> & Hwf' & Hiff); [done| |simpl; lia|].
    { eapply wf_rebound; [done|simpl; lia|]. simpl. intros v _. lia. }
    eexists. split; [done|]. split; [done|].
    intros y. rewrite !elem_node, Hiff. intuition congruence.
  - destruct (insert_cluster_spec k (insert fuel) (2 ^ k) (Some mn) (Some mx) a x)
      as (a' & -> & Hwf' & Hiff); [done|done| |].
    { simpl. assert (x ≠ mn ∧ x ≠ mx) by (split; intros ->; tauto). lia. }
    eexists. split; [done|]. split; [done|].
    intros y. rewrite !elem_node, Hiff. tauto.
Qed.

(** ** [delete] removes one value *)

Lemma in_cluster_remove (a a' : attrs VanEmdeBoasTree) ci y :
  lsbSize a' = lsbSize a → lsbMask a' = lsbMask a →
  cluster a' = base.delete ci (cluster a) →
  in_cluster elem a' y ↔ clusterIndex a y ≠ ci ∧ in_cluster elem a y.
Proof.
  intros H1 H2 H3. unfold in_cluster, clusterIndex, valueIndex.
  rewrite H1, H2, H3.
  destruct (decide (y ≫ lsbSize a = ci)) as [<-|Hne].
  - rewrite lookup_delete_eq. split; [by intros (c & ? & ?)|by intros [? _]].
  - rewrite lookup_delete_ne by done. tauto.
Qed.

Lemma split_eq k (a : attrs VanEmdeBoasTree) i j y :
  2 ≤ k → attrs_ok k a → 0 ≤ j < 2 ^ (k / 2) →
  y = i * 2 ^ (k / 2) + j ↔ clusterIndex a y = i ∧ valueIndex a y = j.
Proof.
  intros Hk Ha Hj. split.
  - intros ->. by rewrite (clusterIndex_value k Hk _ a Ha),
      (valueIndex_value k Hk _ a Ha).
  - intros [<- <-]. apply (split_value k Hk _ a Ha).
Qed.

Lemma delete_cluster_spec k del vr mn0 mx0 mn mx a ci c xi :
  delete_ok k del →
  wf k (Tree vr mn0 mx0 (Some a)) → bounds_ok k mn mx →
  cluster a !! ci = Some c → 0 ≤ xi < 2 ^ (k / 2) →
  (∀ y, in_cluster elem a y → y ≠ ci * 2 ^ (k / 2) + xi → between mn mx y) →
  ∃ a', delete_cluster del (Tree vr mn mx (Some a)) ci c xi
          = Ok (Tree vr mn mx (Some a')) ∧
        wf k (Tree vr mn mx (Some a')) ∧
        ∀ y, in_cluster elem a' y ↔
             in_cluster elem a y ∧ y ≠ ci * 2 ^ (k / 2) + xi.
Proof.
  intros Hdel Hwf Hbd Ec Hxi Hin.
  destruct (wf_node_inv _ _ _ _ _ Hwf)
    as (-> & Hk & _ & Ha & Hch & _ & Hs & Hs0 & Hlog & Hval).
  pose proof (half_bits k Hk) as (Hh1 & Hh2 & Hh3 & Hh4 & Hh5).
  pose proof (child_bits k Hk Hlog) as (Hcb & Hsb & Hcp & Hsp & Hcl & Hsl).
  pose proof (λ y, split_eq k a ci xi y Hk Ha Hxi) as Hyx.
  destruct (Hch _ _ Ec) as [Hwfc Hnec].
  unfold delete_cluster. simpl.
  destruct (Hdel (cluster_bits k) c xi) as (c' & -> & Hwfc' & Helc'); [lia|done|].
  simpl.
  destruct (decide (min c' = None)) as [Hempty|Hnonempty].
  - (* the cluster became empty *)
    assert (Hlast : ∀ j, elem c j → j = xi).
    { intros j Hj. destruct (decide (j = xi)); [done|].
      destruct (min_None_empty _ _ j Hwfc' Hempty). by apply Helc'. }
    destruct (summary a) as [s|] eqn:Es.
    2: { by rewrite (Hs0 eq_refl), lookup_empty in Ec. }
    destruct (Hs s eq_refl) as (Hwfs & Hnes & Hkeys).
    destruct (Hdel (summary_bits k) s ci) as (s' & -> & Hwfs' & Hels'); [lia|done|].
    simpl.
    assert (Hkeys' : ∀ i, elem s' i ↔ is_Some (base.delete ci (cluster a) !! i)).
    { intros i. rewrite Hels', Hkeys, lookup_delete_is_Some.
      intuition congruence. }
    assert (Hiff : ∀ a', lsbSize a' = lsbSize a → lsbMask a' = lsbMask a →
              cluster a' = base.delete ci (cluster a) →
              ∀ y, in_cluster elem a' y ↔
                   in_cluster elem a y ∧ y ≠ ci * 2 ^ (k / 2) + xi).
    { intros a' H1 H2 H3 y. rewrite (in_cluster_remove a a' ci y) by done.
      rewrite (Hyx y).
      destruct (decide (clusterIndex a y = ci)) as [E|E]; [|tauto].
      rewrite (in_cluster_at a y c) by (by rewrite E).
      specialize (Hlast (valueIndex a y)). tauto. }
    assert (Hch' : ∀ i c0, base.delete ci (cluster a) !! i = Some c0 →
                   wf (cluster_bits k) c0 ∧ min c0 ≠ None).
    { intros i c0 H. apply lookup_delete_Some in H as [_ H]. eauto. }
    assert (Hval' : ∀ i c0 j, base.delete ci (cluster a) !! i = Some c0 →
                   elem c0 j → j < 2 ^ (k / 2)).
    { intros i c0 j H. apply lookup_delete_Some in H as [_ H]. eauto. }
    destruct (decide (min s' = None)) as [Hsempty|Hsne].
    + eexists. split; [done|]. split; [|by apply Hiff].
      apply wf_node; try done.
      * intros y Hy. apply Hiff in Hy as [? ?]; auto.
      * simpl. intros _. apply map_empty. intros i.
        destruct (base.delete ci (cluster a) !! i) as [c0|] eqn:E0; [|done].
        destruct (min_None_empty _ _ i Hwfs' Hsempty). apply Hkeys'.
        by rewrite E0.
    + eexists. split; [done|]. split; [|by apply Hiff].
      apply wf_node; try done.
      * intros y Hy. apply Hiff in Hy as [? ?]; auto.
      * simpl. intros s0 [= <-]. done.
  - set (a' := set_cluster a _).
    assert (Hiff : ∀ y, in_cluster elem a' y ↔
                   in_cluster elem a y ∧ y ≠ ci * 2 ^ (k / 2) + xi).
    { intros y. rewrite (in_cluster_update a a' ci c' y) by done.
      rewrite Helc', (Hyx y).
      destruct (decide (clusterIndex a y = ci)) as [E|E]; [|tauto].
      rewrite (in_cluster_at a y c) by (by rewrite E). tauto. }
    exists a'. split; [done|]. split; [|done].
    apply wf_node; try done.
    + intros i c0. simpl. rewrite lookup_insert. case_decide.
      * by intros [= <-].
      * apply Hch.
    + intros y Hy. apply Hiff in Hy as [? ?]; auto.
    + simpl. intros s Es. destruct (Hs s Es) as (? & ? & Hkeys).
      split; [done|]. split; [done|]. intros i. rewrite Hkeys.
      rewrite lookup_insert_is_Some. split; [|intros [<-|[_ ?]]; eauto].
      destruct (decide (ci = i)); auto.
    + simpl. intros Es. apply Hs0 in Es. by rewrite Es, lookup_empty in Ec.
    + intros i c0 j. simpl. rewrite lookup_insert. case_decide.
      * intros [= <-] [Hj _]%Helc'. by eapply Hval.
      * apply Hval.
Qed.

(** The least and the greatest value held in the clusters are found through
    the summary. *)
Lemma cluster_least k vr mn mx a s :
  wf k (Tree vr mn mx (Some a)) → summary a = Some s →
  ∃ i0 c0 j0, min s = Some i0 ∧ cluster a !! i0 = Some c0 ∧ min c0 = Some j0 ∧
    0 ≤ j0 < 2 ^ (k / 2) ∧
    in_cluster elem a (i0 * 2 ^ (k / 2) + j0) ∧
    ∀ y, in_cluster elem a y → i0 * 2 ^ (k / 2) + j0 ≤ y.
Proof.
  intros Hwf Es.
  destruct (wf_node_inv _ _ _ _ _ Hwf)
    as (-> & Hk & _ & Ha & Hch & _ & Hs & _ & _ & Hval).
  destruct (Hs s Es) as (Hwfs & Hnes & Hkeys).
  destruct (min s) as [i0|] eqn:Ei0; [|done].
  assert (is_Some (cluster a !! i0)) as [c0 Ec0]
    by (by apply Hkeys, elem_min).
  destruct (Hch _ _ Ec0) as [Hwfc0 Hnec0].
  destruct (min c0) as [j0|] eqn:Ej0; [|done].
  pose proof (elem_min c0 j0 Ej0) as Hj0.
  pose proof (wf_cluster_range _ _ _ _ _ _ _ _ Hwf Ec0 Hj0) as Hr0.
  exists i0, c0, j0. repeat (split; [done|]).
  split; [by eapply in_cluster_intro|].
  intros y (c & Ec & Hy).
  pose proof (split_value k Hk _ a Ha y) as Hsplit.
  pose proof (L_pos k Hk) as HL.
  assert (elem s (clusterIndex a y)) as Hi by (apply Hkeys; by rewrite Ec).
  destruct (elem_bounds _ _ _ Hwfs Hi) as (i0' & ? & ? & _ & _ & Hle & _).
  destruct (Hch _ _ Ec) as [Hwfc _].
  pose proof (wf_cluster_range _ _ _ _ _ _ _ _ Hwf Ec Hy) as Hr.
  assert (i0' = i0) as -> by congruence.
  destruct (decide (clusterIndex a y = i0)) as [E|E].
  - rewrite E in *. assert (c = c0) as -> by congruence.
    destruct (elem_bounds _ _ _ Hwfc0 Hy) as (j0' & ? & ? & _ & _ & ? & _).
    assert (j0' = j0) as -> by congruence. lia.
  - nia.
Qed.

Lemma cluster_greatest k vr mn mx a s :
  wf k (Tree vr mn mx (Some a)) → summary a = Some s →
  ∃ i0 c0 j0, max s = Some i0 ∧ cluster a !! i0 = Some c0 ∧ max c0 = Some j0 ∧
    0 ≤ j0 < 2 ^ (k / 2) ∧
    in_cluster elem a (i0 * 2 ^ (k / 2) + j0) ∧
    ∀ y, in_cluster elem a y → y ≤ i0 * 2 ^ (k / 2) + j0.
Proof.
  intros Hwf Es.
  destruct (wf_node_inv _ _ _ _ _ Hwf)
    as (-> & Hk & _ & Ha & Hch & _ & Hs & _ & _ & Hval).
  destruct (Hs s Es) as (Hwfs & Hnes & Hkeys).
  destruct (nonempty_elem _ Hnes) as [i1 Hi1].
  destruct (elem_bounds _ _ _ Hwfs Hi1) as (? & i0 & _ & Ei0 & _).
  assert (is_Some (cluster a !! i0)) as [c0 Ec0]
    by (by apply Hkeys, elem_max).
  destruct (Hch _ _ Ec0) as [Hwfc0 Hnec0].
  destruct (nonempty_elem _ Hnec0) as [j1 Hj1].
  destruct (elem_bounds _ _ _ Hwfc0 Hj1) as (? & j0 & _ & Ej0 & _).
  pose proof (elem_max c0 j0 Ej0) as Hj0.
  pose proof (wf_cluster_range _ _ _ _ _ _ _ _ Hwf Ec0 Hj0) as Hr0.
  exists i0, c0, j0. repeat (split; [done|]).
  split; [by eapply in_cluster_intro|].
  intros y (c & Ec & Hy).
  pose proof (split_value k Hk _ a Ha y) as Hsplit.
  pose proof (L_pos k Hk) as HL.
  assert (elem s (clusterIndex a y)) as Hi by (apply Hkeys; by rewrite Ec).
  destruct (elem_bounds _ _ _ Hwfs Hi) as (? & i0' & _ & ? & _ & _ & Hle & _).
  destruct (Hch _ _ Ec) as [Hwfc _].
  pose proof (wf_cluster_range _ _ _ _ _ _ _ _ Hwf Ec Hy) as Hr.
  assert (i0' = i0) as -> by congruence.
  destruct (decide (clusterIndex a y = i0)) as [E|E].
  - rewrite E in *. assert (c = c0) as -> by congruence.
    destruct (elem_bounds _ _ _ Hwfc0 Hy) as (? & j0' & _ & ? & _ & _ & ? & _).
    assert (j0' = j0) as -> by congruence. lia.
  - nia.
Qed.

Lemma no_cluster_empty (a : attrs VanEmdeBoasTree) y :
  cluster a = ∅ → ¬ in_cluster elem a y.
Proof. intros E (c & H & _). by rewrite E, lookup_empty in H. Qed.

Lemma delete_spec fuel : delete_ok (Z.of_nat fuel) (delete fuel).
Proof.
  induction fuel as [|fuel IH]; intros k self x Hfuel Hwf.
  { pose proof (wf_nonneg _ _ Hwf). lia. }
  assert (Hdel : delete_ok k (delete fuel)).
  { intros k' s' x' ? ?. apply IH; [lia|done]. }
  pose proof (wf_nonneg _ _ Hwf) as Hk0.
  pose proof (wf_log_ok _ _ Hwf) as Hlog0.
  pose proof (wf_bounds _ _ Hwf) as Hbd.
  pose proof (bare_inv k self Hwf) as Hbare.
  assert (Hskip : ¬ elem self x →
            ∃ self', Ok self = Ok self' ∧ wf k self' ∧
                     ∀ y, elem self' y ↔ elem self y ∧ y ≠ x).
  { intros Hx. exists self. split; [done|]. split; [done|]. intros y.
    split; [|tauto]. intros Hy. split; [done|]. by intros ->. }
  assert (Hout : ∀ a b, min self = Some a → max self = Some b →
            x < a ∨ b < x → ¬ elem self x).
  { intros a b Ea Eb Hab H.
    destruct (elem_bounds _ _ _ Hwf H) as (a' & b' & ? & ? & ? & ? & ? & ?).
    simplify_eq. lia. }
  simpl. unfold bounds_ok in Hbd.
  destruct (min self) as [mn|] eqn:Emin; destruct (max self) as [mx|] eqn:Emax;
    try done.
  2: { apply Hskip. by eapply min_None_empty. }
  destruct (decide (x < mn)). { apply Hskip, (Hout mn mx); auto. }
  destruct (decide (x > mx)). { apply Hskip, (Hout mn mx); auto. lia. }
  clear Hskip Hout.
  destruct (decide (Some mn = Some mx)) as [E|Hne].
  { (* the only value *)
    injection E as <-. assert (x = mn) as -> by lia.
    rewrite Hbare by (unfold between; intros v ?; lia).
    unfold set_max, set_min; simpl.
    exists (bare k None None). split; [done|].
    split; [by apply wf_bare|].
    intros y. rewrite !elem_bare. intuition congruence. }
  assert (mn < mx) by (destruct (decide (mn = mx)); [congruence|lia]).
  clear Hbare.
  destruct Hwf as [k mn' mx' Hk Hbd'|k mn' mx' a Hk Hbd' Ha Hch Hin Hs Hs0 Hlog Hval];
    simpl in *; simplify_eq.
  { (* the universe {0, 1} *)
    assert (2 ^ k ≤ 2 ^ 1) by (apply Z.pow_le_mono_r; lia).
    change (2 ^ 1) with 2 in *.
    assert (k = 1) as -> by (destruct (decide (k = 0)) as [->|]; [simpl in *|]; lia).
    assert (mn = 0 ∧ mx = 1) as [-> ->] by lia.
    change (Tree (2 ^ 1) (Some 0) (Some 1) None) with (bare 1 (Some 0) (Some 1)).
    simpl. destruct (decide (x = 0)) as [->|].
    - exists (bare 1 (Some 1) (Some 1)). split; [done|].
      split; [by apply wf_bare|].
      intros y. rewrite !elem_bare. intuition congruence.
    - exists (bare 1 (Some 0) (Some 0)). split; [done|].
      split; [by apply wf_bare|]. assert (x = 1) as -> by lia.
      intros y. rewrite !elem_bare. intuition congruence. }
  destruct (decide (2 ^ k = 2)) as [Hk2|_].
  { apply pow2_eq_2 in Hk2; lia. }
  assert (Hwf : wf k (Tree (2 ^ k) (Some mn) (Some mx) (Some a)))
    by (by apply wf_node).
  unfold set_min, set_max; simpl.
  destruct (decide (x = mn)) as [->|Hxmn]; [|destruct (decide (x = mx)) as [->|Hxmx]].
  - (* the minimum goes: the least value of the clusters replaces it *)
    destruct (summary a) as [s|] eqn:Es.
    + destruct (cluster_least _ _ _ _ _ _ Hwf Es)
        as (i0 & c0 & j0 & -> & Ec0 & Ej0 & Hj0 & Hv & Hleast).
      unfold getitem. rewrite Ec0. simpl. rewrite Ej0.
      rewrite (value_mul k Hk _ a Ha). simpl.
      set (v := i0 * 2 ^ (k / 2) + j0) in *.
      pose proof (Hin v Hv) as Hvb. simpl in Hvb.
      destruct (delete_cluster_spec k (delete fuel) (2 ^ k) (Some mn) (Some mx)
                  (Some v) (Some mx) a i0 c0 j0)
        as (a' & -> & Hwf' & Hiff); [done|done|simpl; lia|done|done| |].
      { intros y Hy Hne'. specialize (Hleast y Hy). specialize (Hin y Hy).
        simpl in *. fold v in Hne'. lia. }
      eexists. split; [done|]. split; [done|].
      intros y. rewrite !elem_node, Hiff. fold v.
      pose proof (Hin y) as Hy. simpl in Hy.
      destruct (decide (y = v)) as [->|]; [|intuition (simplify_eq; lia)].
      intuition (simplify_eq; lia).
    + pose proof (no_cluster_empty a) as Hnone. specialize (Hs0 eq_refl).
      eexists. split; [done|]. split.
      * eapply wf_rebound; [done|simpl; lia|]. intros v Hv. by apply Hnone in Hv.
      * intros y. rewrite !elem_node. specialize (Hnone y Hs0).
        intuition (simplify_eq; lia).
  - (* the maximum goes: the greatest value of the clusters replaces it *)
    destruct (summary a) as [s|] eqn:Es.
    + destruct (cluster_greatest _ _ _ _ _ _ Hwf Es)
        as (i0 & c0 & j0 & -> & Ec0 & Ej0 & Hj0 & Hv & Hgreatest).
      unfold getitem. rewrite Ec0. simpl. rewrite Ej0.
      rewrite (value_mul k Hk _ a Ha). simpl.
      set (v := i0 * 2 ^ (k / 2) + j0) in *.
      pose proof (Hin v Hv) as Hvb. simpl in Hvb.
      destruct (delete_cluster_spec k (delete fuel) (2 ^ k) (Some mn) (Some mx)
                  (Some mn) (Some v) a i0 c0 j0)
        as (a' & -> & Hwf' & Hiff); [done|done|simpl; lia|done|done| |].
      { intros y Hy Hne'. specialize (Hgreatest y Hy). specialize (Hin y Hy).
        simpl in *. fold v in Hne'. lia. }
      eexists. split; [done|]. split; [done|].
      intros y. rewrite !elem_node, Hiff. fold v.
      pose proof (Hin y) as Hy. simpl in Hy.
      destruct (decide (y = v)) as [->|]; [|intuition (simplify_eq; lia)].
      intuition (simplify_eq; lia).
    + pose proof (no_cluster_empty a) as Hnone. specialize (Hs0 eq_refl).
      eexists. split; [done|]. split.
      * eapply wf_rebound; [done|simpl; lia|]. intros v Hv. by apply Hnone in Hv.
      * intros y. rewrite !elem_node. specialize (Hnone y Hs0).
        intuition (simplify_eq; lia).
  - (* a value strictly between the bounds *)
    destruct (cluster a !! clusterIndex a x) as [c|] eqn:Ec.
    + pose proof (split_value k Hk _ a Ha x) as Hsplit.
      destruct (delete_cluster_spec k (delete fuel) (2 ^ k) (Some mn) (Some mx)
                  (Some mn) (Some mx) a (clusterIndex a x) c (valueIndex a x))
        as (a' & -> & Hwf' & Hiff); [done|done|simpl; lia|done| | |].
      { apply (valueIndex_range k Hk _ a Ha). }
      { intros y Hy _. by apply Hin. }
      eexists. split; [done|]. split; [done|].
      intros y. rewrite !elem_node, Hiff, <- Hsplit.
      intuition (simplify_eq; lia).
    + exists (Tree (2 ^ k) (Some mn) (Some mx) (Some a)).
      split; [done|]. split; [done|].
      intros y. split; [|tauto]. intros Hy. split; [done|]. intros ->.
      apply elem_node in Hy. pose proof (in_cluster_none a x Ec).
      intuition (simplify_eq; lia).
Qed.

(** ** [predecessor] and [successor] find the neighbours *)

Lemma split_lt L i j i' j' :
  0 ≤ j < L → 0 ≤ j' < L →
  i * L + j < i' * L + j' ↔ i < i' ∨ (i = i' ∧ j < j').
Proof. intros Hj Hj'. nia. Qed.

Lemma in_cluster_inv k vr mn mx a y :
  wf k (Tree vr mn mx (Some a)) → in_cluster elem a y →
  ∃ i c j, cluster a !! i = Some c ∧ wf (cluster_bits k) c ∧ elem c j ∧
           0 ≤ j < 2 ^ (k / 2) ∧ y = i * 2 ^ (k / 2) + j ∧
           clusterIndex a y = i ∧ valueIndex a y = j.
Proof.
  intros Hwf (c & Ec & Hy).
  destruct (wf_node_inv _ _ _ _ _ Hwf) as (-> & Hk & _ & Ha & Hch & _).
  destruct (Hch _ _ Ec) as [Hwfc _].
  exists (clusterIndex a y), c, (valueIndex a y).
  repeat (split; [done|]).
  split; [by apply (wf_cluster_range _ _ _ _ _ _ _ _ Hwf Ec)|].
  split; [|done]. apply (split_value k Hk _ a Ha).
Qed.

Lemma predecessor_bound_spec k self x :
  wf k self → (∀ y, elem self y → y < x → min self = Some y) →
  ∃ r, predecessor_bound self x = Ok r ∧ is_pred self x r.
Proof.
  intros Hwf Hlow. unfold predecessor_bound. eexists. split; [done|].
  destruct (min self) as [mn|] eqn:Emin.
  - destruct (decide (x > mn)); simpl.
    + split; [by apply elem_min|]. split; [lia|].
      intros y Hy Hlt. specialize (Hlow y Hy Hlt). simplify_eq. lia.
    + intros y Hy. destruct (decide (y < x)) as [Hlt|]; [|lia].
      specialize (Hlow y Hy Hlt). simplify_eq. lia.
  - simpl. intros y Hy. by eapply min_None_empty in Hy.
Qed.

Lemma successor_bound_spec k self x :
  wf k self → (∀ y, elem self y → x < y → max self = Some y) →
  ∃ r, successor_bound self x = Ok r ∧ is_succ self x r.
Proof.
  intros Hwf Hhigh. unfold successor_bound. eexists. split; [done|].
  destruct (max self) as [mx|] eqn:Emax.
  - destruct (decide (x < mx)); simpl.
    + split; [by apply elem_max|]. split; [lia|].
      intros y Hy Hlt. specialize (Hhigh y Hy Hlt). simplify_eq. lia.
    + intros y Hy. destruct (decide (x < y)) as [Hlt|]; [|lia].
      specialize (Hhigh y Hy Hlt). simplify_eq. lia.
  - simpl. intros y Hy.
    destruct (elem_bounds _ _ _ Hwf Hy) as (? & ? & ? & ? & _). congruence.
Qed.

Lemma predecessor_summary_spec k pr vr mn mx a x :
  pred_ok k pr → wf k (Tree vr mn mx (Some a)) → 0 ≤ x < 2 ^ k →
  (∀ b, mx = Some b → x ≤ b) →
  (∀ y, in_cluster elem a y → clusterIndex a y = clusterIndex a x → x ≤ y) →
  ∃ r, predecessor_summary pr (Tree vr mn mx (Some a)) a x = Ok r ∧
       is_pred (Tree vr mn mx (Some a)) x r.
Proof.
  intros Hpr Hwf Hx Hmx Hsame.
  destruct (wf_node_inv _ _ _ _ _ Hwf)
    as (-> & Hk & Hbd & Ha & Hch & Hin & Hs & Hs0 & Hlog & Hval).
  pose proof (half_bits k Hk) as (Hh1 & Hh2 & Hh3 & Hh4 & Hh5).
  pose proof (child_bits k Hk Hlog) as (Hcb & Hsb & Hcp & Hsp & Hcl & Hsl).
  pose proof (L_pos k Hk) as HL.
  pose proof (split_value k Hk _ a Ha x) as Hsplit.
  pose proof (valueIndex_range k Hk _ a Ha x) as Hxi.
  pose proof (clusterIndex_range k Hk _ a Ha x Hx) as Hci.
  assert (Hbound : (∀ y, in_cluster elem a y → x ≤ y) →
            ∃ r, predecessor_bound (Tree (2 ^ k) mn mx (Some a)) x = Ok r ∧
                 is_pred (Tree (2 ^ k) mn mx (Some a)) x r).
  { intros Hnone. apply (predecessor_bound_spec k); [done|]. simpl.
    intros y Hy Hlt. apply elem_node in Hy as [Hy|[Hy|Hy]]; [done| |].
    - specialize (Hmx y Hy). lia.
    - specialize (Hnone y Hy). lia. }
  unfold predecessor_summary.
  destruct (summary a) as [s|] eqn:Es.
  2: { apply Hbound. intros y Hy.
       by apply (no_cluster_empty a y (Hs0 eq_refl)) in Hy. }
  destruct (Hs s eq_refl) as (Hwfs & Hnes & Hkeys).
  destruct (Hpr (summary_bits k) s (clusterIndex a x)) as (r & -> & Hr);
    [lia|done|lia|].
  simpl. destruct r as [p|]; simpl in Hr.
  - destruct Hr as (Hp & Hplt & Hpmax).
    apply Hkeys in Hp as [c Ec]. unfold getitem. rewrite Ec. simpl.
    destruct (Hch _ _ Ec) as [Hwfc Hnec].
    destruct (nonempty_elem _ Hnec) as [j1 Hj1].
    destruct (elem_bounds _ _ _ Hwfc Hj1) as (? & j & _ & Ej & _).
    rewrite Ej, (value_mul k Hk _ a Ha). simpl.
    pose proof (elem_max c j Ej) as Hj.
    pose proof (wf_cluster_range _ _ _ _ _ _ _ _ Hwf Ec Hj) as Hjr.
    pose proof (in_cluster_intro k a p c j Hk Ha Hval Ec Hwfc Hj) as Hv.
    pose proof (Hin _ Hv) as Hvb.
    eexists. split; [done|]. simpl. split; [apply elem_node; auto|].
    split; [nia|].
    intros y Hy Hlt. apply elem_node in Hy as [Hy|[Hy|Hy]].
    + unfold between in Hvb. destruct mn, mx; try done. simplify_eq. lia.
    + specialize (Hmx y Hy). lia.
    + destruct (in_cluster_inv _ _ _ _ _ _ Hwf Hy)
        as (i & c' & j' & Ec' & Hwfc' & Hj' & Hjr' & -> & Ei & _).
      assert (i ≤ clusterIndex a x) by nia.
      destruct (decide (i = clusterIndex a x)) as [E|E].
      { specialize (Hsame _ Hy). rewrite Ei in Hsame. specialize (Hsame E). lia. }
      assert (i ≤ p).
      { apply Hpmax; [|lia]. apply Hkeys. by rewrite Ec'. }
      destruct (decide (i = p)) as [->|]; [|nia].
      assert (c' = c) as -> by congruence.
      destruct (elem_bounds _ _ _ Hwfc Hj') as (? & j0 & _ & ? & _ & _ & ? & _).
      assert (j0 = j) as -> by congruence. lia.
  - apply Hbound. intros y Hy.
    destruct (in_cluster_inv _ _ _ _ _ _ Hwf Hy)
      as (i & c' & j' & Ec' & Hwfc' & Hj' & Hjr' & -> & Ei & _).
    assert (clusterIndex a x ≤ i).
    { apply Hr. apply Hkeys. by rewrite Ec'. }
    destruct (decide (i = clusterIndex a x)) as [E|E]; [|nia].
    apply Hsame; [done|]. by rewrite Ei.
Qed.

Lemma predecessor_spec fuel : pred_ok (Z.of_nat fuel) (predecessor fuel).
Proof.
  induction fuel as [|fuel IH]; intros k self x Hfuel Hwf Hx; [lia|].
  assert (Hpr : pred_ok k (predecessor fuel)).
  { intros k' s' x' ? ? ?. apply (IH k' s' x'); [lia|done|done]. }
  simpl.
  destruct Hwf as [k mn mx Hk Hbd|k mn mx a Hk Hbd Ha Hch Hin Hs Hs0 Hlog Hval]; simpl.
  - (* the universe {0, 1} *)
    assert (k = 1) as -> by lia. change (2 ^ 1) with 2 in *.
    destruct (decide (2 = 2)); [|done]. eexists. split; [done|].
    change (Tree 2 mn mx None) with (bare 1 mn mx).
    destruct (decide (x = 1 ∧ mn = Some 0)) as [[-> ->]|Hno]; simpl.
    + split; [apply elem_bare; auto|]. split; [lia|]. intros y _ ?. lia.
    + intros y Hy. apply elem_bare in Hy. unfold bounds_ok in Hbd.
      destruct mn as [a|], mx as [b|]; try done; [|by destruct Hy].
      destruct (decide (x = 1)) as [->|]; [|destruct Hy; simplify_eq; lia].
      assert (a ≠ 0) by (intros ->; tauto).
      destruct Hy; simplify_eq; lia.
  - destruct (decide (2 ^ k = 2)) as [Hk2|_].
    { apply pow2_eq_2 in Hk2; lia. }
    assert (Hwf : wf k (Tree (2 ^ k) mn mx (Some a))) by (by apply wf_node).
    destruct mx as [b|] eqn:Emx; [destruct (bool_decide_reflect (x > b))|].
    + (* every stored value is below [x] *)
      eexists. split; [done|]. simpl.
      split; [by apply elem_max|]. split; [lia|]. intros y Hy _.
      destruct (elem_bounds _ _ _ Hwf Hy) as (? & b' & _ & ? & _ & _ & ? & _).
      simpl in *. simplify_eq. lia.
    + pose proof (half_bits k Hk) as (Hh1 & Hh2 & Hh3 & Hh4 & Hh5).
      pose proof (child_bits k Hk Hlog) as (Hcb & Hsb & Hcp & Hsp & Hcl & Hsl).
      pose proof (L_pos k Hk) as HL.
      pose proof (split_value k Hk _ a Ha x) as Hsplit.
      pose proof (valueIndex_range k Hk _ a Ha x) as Hxi.
      assert (Hmx : ∀ b', Some b = Some b' → x ≤ b') by (intros ? [= <-]; lia).
      destruct (cluster a !! clusterIndex a x) as [c|] eqn:Ec.
      2: { apply (predecessor_summary_spec k); try done.
           intros y (c & Ec' & _) E. congruence. }
      destruct (Hch _ _ Ec) as [Hwfc Hnec].
      destruct (min c) as [cmin|] eqn:Ecmin; [|done].
      destruct (decide (cmin < valueIndex a x)) as [Hcmin|Hcmin].
      2: { apply (predecessor_summary_spec k); try done.
           intros y (c' & Ec' & Hy) E. rewrite E in Ec'.
           assert (c' = c) as -> by congruence.
           destruct (elem_bounds _ _ _ Hwfc Hy) as (cmin' & ? & ? & _ & _ & ? & _).
           assert (cmin' = cmin) as -> by congruence.
           rewrite (split_value k Hk _ a Ha y), E. lia. }
      (* the predecessor lies in the cluster of [x] *)
      destruct (Hpr (cluster_bits k) c (valueIndex a x)) as (r & -> & Hr);
        [lia|done|lia|].
      simpl. destruct r as [p|]; simpl in Hr.
      2: { specialize (Hr cmin (elem_min _ _ Ecmin)). lia. }
      destruct Hr as (Hp & Hplt & Hpmax).
      rewrite (value_mul k Hk _ a Ha). simpl.
      pose proof (wf_cluster_range _ _ _ _ _ _ _ _ Hwf Ec Hp) as Hpr'.
      pose proof (in_cluster_intro k a _ c p Hk Ha Hval Ec Hwfc Hp) as Hv.
      pose proof (Hin _ Hv) as Hvb.
      eexists. split; [done|]. simpl. split; [apply elem_node; auto|].
      split; [lia|].
      intros y Hy Hlt. apply elem_node in Hy as [Hy|[Hy|Hy]].
      * unfold between in Hvb. destruct mn; try done. simplify_eq. lia.
      * simplify_eq. lia.
      * destruct (in_cluster_inv _ _ _ _ _ _ Hwf Hy)
          as (i & c' & j' & Ec' & Hwfc' & Hj' & Hjr' & -> & Ei & _).
        assert (i ≤ clusterIndex a x) by nia.
        destruct (decide (i = clusterIndex a x)) as [->|E]; [|nia].
        assert (c' = c) as -> by congruence.
        assert (j' ≤ p) by (apply Hpmax; [done|lia]). lia.
    + (* no maximum: the node is empty *)
      unfold bounds_ok in Hbd. destruct mn; [done|].
      assert (Hnone : ∀ y, ¬ in_cluster elem a y)
        by (intros y Hy; by apply Hin in Hy).
      destruct (cluster a !! clusterIndex a x) as [c|] eqn:Ec.
      * destruct (Hch _ _ Ec) as [Hwfc Hnec].
        destruct (nonempty_elem _ Hnec) as [j Hj].
        destruct (Hnone (clusterIndex a x * 2 ^ (k / 2) + j)).
        by eapply in_cluster_intro.
      * apply (predecessor_summary_spec k); try done.
        intros y Hy. by apply Hnone in Hy.
Qed.

Lemma successor_summary_spec k sc vr mn mx a x :
  succ_ok k sc → wf k (Tree vr mn mx (Some a)) → 0 ≤ x < 2 ^ k →
  (∀ b, mn = Some b → b ≤ x) →
  (∀ y, in_cluster elem a y → clusterIndex a y = clusterIndex a x → y ≤ x) →
  ∃ r, successor_summary sc (Tree vr mn mx (Some a)) a x = Ok r ∧
       is_succ (Tree vr mn mx (Some a)) x r.
Proof.
  intros Hsc Hwf Hx Hmn Hsame.
  destruct (wf_node_inv _ _ _ _ _ Hwf)
    as (-> & Hk & Hbd & Ha & Hch & Hin & Hs & Hs0 & Hlog & Hval).
  pose proof (half_bits k Hk) as (Hh1 & Hh2 & Hh3 & Hh4 & Hh5).
  pose proof (child_bits k Hk Hlog) as (Hcb & Hsb & Hcp & Hsp & Hcl & Hsl).
  pose proof (L_pos k Hk) as HL.
  pose proof (split_value k Hk _ a Ha x) as Hsplit.
  pose proof (valueIndex_range k Hk _ a Ha x) as Hxi.
  pose proof (clusterIndex_range k Hk _ a Ha x Hx) as Hci.
  assert (Hbound : (∀ y, in_cluster elem a y → y ≤ x) →
            ∃ r, successor_bound (Tree (2 ^ k) mn mx (Some a)) x = Ok r ∧
                 is_succ (Tree (2 ^ k) mn mx (Some a)) x r).
  { intros Hnone. apply (successor_bound_spec k); [done|]. simpl.
    intros y Hy Hlt. apply elem_node in Hy as [Hy|[Hy|Hy]]; [|done|].
    - specialize (Hmn y Hy). lia.
    - specialize (Hnone y Hy). lia. }
  unfold successor_summary.
  destruct (summary a) as [s|] eqn:Es.
  2: { apply Hbound. intros y Hy.
       by apply (no_cluster_empty a y (Hs0 eq_refl)) in Hy. }
  destruct (Hs s eq_refl) as (Hwfs & Hnes & Hkeys).
  destruct (Hsc (summary_bits k) s (clusterIndex a x)) as (r & -> & Hr);
    [lia|done|lia|].
  simpl. destruct r as [p|]; simpl in Hr.
  - destruct Hr as (Hp & Hplt & Hpmin).
    apply Hkeys in Hp as [c Ec]. unfold getitem. rewrite Ec. simpl.
    destruct (Hch _ _ Ec) as [Hwfc Hnec].
    destruct (min c) as [j|] eqn:Ej; [|done].
    rewrite (value_mul k Hk _ a Ha). simpl.
    pose proof (elem_min c j Ej) as Hj.
    pose proof (wf_cluster_range _ _ _ _ _ _ _ _ Hwf Ec Hj) as Hjr.
    pose proof (in_cluster_intro k a p c j Hk Ha Hval Ec Hwfc Hj) as Hv.
    pose proof (Hin _ Hv) as Hvb.
    eexists. split; [done|]. simpl. split; [apply elem_node; auto|].
    split; [nia|].
    intros y Hy Hlt. apply elem_node in Hy as [Hy|[Hy|Hy]].
    + specialize (Hmn y Hy). lia.
    + unfold between in Hvb. destruct mn, mx; try done. simplify_eq. lia.
    + destruct (in_cluster_inv _ _ _ _ _ _ Hwf Hy)
        as (i & c' & j' & Ec' & Hwfc' & Hj' & Hjr' & -> & Ei & _).
      assert (clusterIndex a x ≤ i) by nia.
      destruct (decide (i = clusterIndex a x)) as [E|E].
      { specialize (Hsame _ Hy). rewrite Ei in Hsame. specialize (Hsame E). lia. }
      assert (p ≤ i).
      { apply Hpmin; [|lia]. apply Hkeys. by rewrite Ec'. }
      destruct (decide (i = p)) as [->|]; [|nia].
      assert (c' = c) as -> by congruence.
      destruct (elem_bounds _ _ _ Hwfc Hj') as (j0 & ? & ? & _ & _ & ? & _).
      assert (j0 = j) as -> by congruence. lia.
  - apply Hbound. intros y Hy.
    destruct (in_cluster_inv _ _ _ _ _ _ Hwf Hy)
      as (i & c' & j' & Ec' & Hwfc' & Hj' & Hjr' & -> & Ei & _).
    assert (i ≤ clusterIndex a x).
    { apply Hr. apply Hkeys. by rewrite Ec'. }
    destruct (decide (i = clusterIndex a x)) as [E|E]; [|nia].
    apply Hsame; [done|]. by rewrite Ei.
Qed.

Lemma successor_spec fuel : succ_ok (Z.of_nat fuel) (successor fuel).
Proof.
  induction fuel as [|fuel IH]; intros k self x Hfuel Hwf Hx; [lia|].
  assert (Hsc : succ_ok k (successor fuel)).
  { intros k' s' x' ? ? ?. apply (IH k' s' x'); [lia|done|done]. }
  simpl.
  destruct Hwf as [k mn mx Hk Hbd|k mn mx a Hk Hbd Ha Hch Hin Hs Hs0 Hlog Hval]; simpl.
  - (* the universe {0, 1} *)
    assert (k = 1) as -> by lia. change (2 ^ 1) with 2 in *.
    destruct (decide (2 = 2)); [|done]. eexists. split; [done|].
    change (Tree 2 mn mx None) with (bare 1 mn mx).
    destruct (decide (x = 0 ∧ mx = Some 1)) as [[-> ->]|Hno]; simpl.
    + split; [apply elem_bare; auto|]. split; [lia|]. intros y _ ?. lia.
    + intros y Hy. apply elem_bare in Hy. unfold bounds_ok in Hbd.
      destruct mn as [a|], mx as [b|]; try done; [|by destruct Hy].
      destruct (decide (x = 0)) as [->|]; [|destruct Hy; simplify_eq; lia].
      assert (b ≠ 1) by (intros ->; tauto).
      destruct Hy; simplify_eq; lia.
  - destruct (decide (2 ^ k = 2)) as [Hk2|_].
    { apply pow2_eq_2 in Hk2; lia. }
    assert (Hwf : wf k (Tree (2 ^ k) mn mx (Some a))) by (by apply wf_node).
    destruct mn as [b|] eqn:Emn; [destruct (bool_decide_reflect (x < b))|].
    + (* every stored value is above [x] *)
      eexists. split; [done|]. simpl.
      split; [by apply elem_min|]. split; [lia|]. intros y Hy _.
      destruct (elem_bounds _ _ _ Hwf Hy) as (b' & ? & ? & _ & _ & ? & _).
      simpl in *. simplify_eq. lia.
    + pose proof (half_bits k Hk) as (Hh1 & Hh2 & Hh3 & Hh4 & Hh5).
      pose proof (child_bits k Hk Hlog) as (Hcb & Hsb & Hcp & Hsp & Hcl & Hsl).
      pose proof (L_pos k Hk) as HL.
      pose proof (split_value k Hk _ a Ha x) as Hsplit.
      pose proof (valueIndex_range k Hk _ a Ha x) as Hxi.
      assert (Hmn : ∀ b', Some b = Some b' → b' ≤ x) by (intros ? [= <-]; lia).
      destruct (cluster a !! clusterIndex a x) as [c|] eqn:Ec.
      2: { apply (successor_summary_spec k); try done.
           intros y (c & Ec' & _) E. congruence. }
      destruct (Hch _ _ Ec) as [Hwfc Hnec].
      destruct (nonempty_elem _ Hnec) as [j1 Hj1].
      destruct (elem_bounds _ _ _ Hwfc Hj1) as (? & cmax & _ & Ecmax & _).
      rewrite Ecmax.
      destruct (decide (cmax > valueIndex a x)) as [Hcmax|Hcmax].
      2: { apply (successor_summary_spec k); try done.
           intros y (c' & Ec' & Hy) E. rewrite E in Ec'.
           assert (c' = c) as -> by congruence.
           destruct (elem_bounds _ _ _ Hwfc Hy) as (? & cmax' & _ & ? & _ & _ & ? & _).
           assert (cmax' = cmax) as -> by congruence.
           rewrite (split_value k Hk _ a Ha y), E. lia. }
      (* the successor lies in the cluster of [x] *)
      destruct (Hsc (cluster_bits k) c (valueIndex a x)) as (r & -> & Hr);
        [lia|done|lia|].
      simpl. destruct r as [p|]; simpl in Hr.
      2: { specialize (Hr cmax (elem_max _ _ Ecmax)). lia. }
      destruct Hr as (Hp & Hplt & Hpmin).
      rewrite (value_mul k Hk _ a Ha). simpl.
      pose proof (wf_cluster_range _ _ _ _ _ _ _ _ Hwf Ec Hp) as Hpr'.
      pose proof (in_cluster_intro k a _ c p Hk Ha Hval Ec Hwfc Hp) as Hv.
      pose proof (Hin _ Hv) as Hvb.
      eexists. split; [done|]. simpl. split; [apply elem_node; auto|].
      split; [lia|].
      intros y Hy Hlt. apply elem_node in Hy as [Hy|[Hy|Hy]].
      * simplify_eq; lia.
      * unfold between in Hvb. destruct mx; try done. simplify_eq. lia.
      * destruct (in_cluster_inv _ _ _ _ _ _ Hwf Hy)
          as (i & c' & j' & Ec' & Hwfc' & Hj' & Hjr' & -> & Ei & _).
        assert (clusterIndex a x ≤ i) by nia.
        destruct (decide (i = clusterIndex a x)) as [->|E]; [|nia].
        assert (c' = c) as -> by congruence.
        assert (p ≤ j') by (apply Hpmin; [done|lia]). lia.
    + (* no minimum: the node is empty *)
      unfold bounds_ok in Hbd. destruct mx; [done|].
      assert (Hnone : ∀ y, ¬ in_cluster elem a y)
        by (intros y Hy; by apply Hin in Hy).
      destruct (cluster a !! clusterIndex a x) as [c|] eqn:Ec.
      * destruct (Hch _ _ Ec) as [Hwfc Hnec].
        destruct (nonempty_elem _ Hnec) as [j Hj].
        destruct (Hnone (clusterIndex a x * 2 ^ (k / 2) + j)).
        by eapply in_cluster_intro.
      * apply (successor_summary_spec k); try done.
        intros y Hy. by apply Hnone in Hy.
Qed.

(** ** Operations that change nothing *)

Lemma set_cluster_id (self : VanEmdeBoasTree) a ci c :
  inner self = Some a → cluster a !! ci = Some c →
  set_inner self (set_cluster a (<[ci := c]> (cluster a))) = self.
Proof.
  intros Ha Hc. rewrite insert_id by done.
  destruct self as [vr mn mx inn]. simpl in *. subst inn. by destruct a.
Qed.

Lemma elem_inner k self x :
  wf k self → elem self x → min self ≠ Some x → max self ≠ Some x →
  ∃ mn mx a c, self = Tree (2 ^ k) (Some mn) (Some mx) (Some a) ∧ 2 ≤ k ∧
    mn < x < mx ∧ cluster a !! clusterIndex a x = Some c ∧
    wf (cluster_bits k) c ∧ min c ≠ None ∧ elem c (valueIndex a x).
Proof.
  intros Hwf Hx Hmn Hmx. apply elem_inv in Hx as [?|[?|(a & Ea & Hx)]]; try done.
  destruct Hwf as [k mn mx Hk Hbd|k mn mx a' Hk Hbd Ha Hch Hin Hs Hs0 Hlog Hval];
    simpl in *; simplify_eq.
  pose proof (Hin _ Hx) as Hb. destruct Hx as (c & Ec & Hx).
  destruct (Hch _ _ Ec). unfold between in Hb.
  destruct mn as [mn|], mx as [mx|]; try done.
  exists mn, mx, a, c. done.
Qed.

Lemma insert_present fuel : ∀ k self x,
  wf k self → elem self x → k < Z.of_nat fuel → insert fuel self x = Ok self.
Proof.
  induction fuel as [|fuel IH]; intros k self x Hwf Hx Hfuel.
  { pose proof (wf_nonneg _ _ Hwf). lia. }
  simpl.
  destruct (decide (Some x = min self ∨ Some x = max self)) as [|Hmm]; [done|].
  destruct (elem_inner k self x Hwf Hx)
    as (mn & mx & a & c & -> & Hk & Hb & Ec & Hwfc & _ & Hxi);
    [intros E; apply Hmm; by left|intros E; apply Hmm; by right|].
  simpl.
  destruct (decide (Some mn = Some mx)); [simplify_eq; lia|].
  destruct (decide (2 ^ k = 2)) as [Hk2|_]; [apply pow2_eq_2 in Hk2; lia|].
  destruct (decide (x < mn)); [lia|]. destruct (decide (x > mx)); [lia|].
  unfold insert_cluster. simpl. rewrite Ec.
  rewrite (IH (cluster_bits k) c _ Hwfc Hxi) by
    (pose proof (child_bits k Hk (wf_log_ok _ _ Hwf)); lia).
  simpl. f_equal. by apply set_cluster_id.
Qed.

Lemma delete_absent fuel : ∀ k self x,
  wf k self → ¬ elem self x → k < Z.of_nat fuel → delete fuel self x = Ok self.
Proof.
  induction fuel as [|fuel IH]; intros k self x Hwf Hx Hfuel.
  { pose proof (wf_nonneg _ _ Hwf). lia. }
  pose proof (wf_bounds _ _ Hwf) as Hbd. unfold bounds_ok in Hbd.
  assert (Hmn : min self ≠ Some x) by (intros E; by apply Hx, elem_min).
  assert (Hmx : max self ≠ Some x) by (intros E; by apply Hx, elem_max).
  simpl.
  destruct (min self) as [mn|] eqn:Emin; [|done].
  destruct (decide (x < mn)); [done|].
  destruct (max self) as [mx|] eqn:Emax; [|done].
  destruct (decide (x > mx)); [done|].
  assert (mn < x < mx).
  { destruct (decide (x = mn)); [congruence|].
    destruct (decide (x = mx)); [congruence|]. lia. }
  destruct (decide (Some mn = Some mx)); [simplify_eq; lia|].
  destruct Hwf as [k mn' mx' Hk Hbd'|k mn' mx' a Hk Hbd' Ha Hch Hin Hs Hs0 Hlog Hval];
    simpl in *; simplify_eq.
  { assert (2 ^ k ≤ 2 ^ 1) by (apply Z.pow_le_mono_r; lia).
    change (2 ^ 1) with 2 in *. lia. }
  destruct (decide (2 ^ k = 2)) as [Hk2|_]; [apply pow2_eq_2 in Hk2; lia|].
  destruct (decide (x = mn)); [lia|]. destruct (decide (x = mx)); [lia|].
  destruct (cluster a !! clusterIndex a x) as [c|] eqn:Ec; [|done].
  destruct (Hch _ _ Ec) as [Hwfc Hnec].
  unfold delete_cluster. simpl.
  rewrite (IH (cluster_bits k) c _ Hwfc) by
    first [pose proof (child_bits k Hk Hlog); lia
          |intros Hc; apply Hx, elem_node; right; right; by exists c].
  simpl. destruct (decide (min c = None)); [done|].
  f_equal. by apply (set_cluster_id (Tree _ _ _ _)).
Qed.

(** ** Calls on a top-level structure *)

Lemma veb_contains_spec k self x :
  wf k self → ∃ b, veb_contains self x = Ok b ∧ (b = true ↔ elem self x).
Proof. intros Hwf. eapply contains_spec; [done|by apply wf_depth]. Qed.

Lemma stored_elem k self x : wf k self → stored self x ↔ elem self x.
Proof.
  intros Hwf. unfold stored.
  destruct (veb_contains_spec k self x Hwf) as (b & -> & Hb).
  rewrite <- Hb. split; congruence.
Qed.

Lemma not_stored_elem k self x :
  wf k self → veb_contains self x = Ok false ↔ ¬ elem self x.
Proof.
  intros Hwf.
  destruct (veb_contains_spec k self x Hwf) as (b & -> & Hb).
  rewrite <- Hb. destruct b; split; congruence.
Qed.

Lemma veb_contains_ext k self self' :
  wf k self → wf k self' → (∀ y, elem self' y ↔ elem self y) →
  ∀ y, veb_contains self' y = veb_contains self y.
Proof.
  intros Hwf Hwf' Hiff y.
  destruct (veb_contains_spec k self y Hwf) as (b & -> & Hb).
  destruct (veb_contains_spec k self' y Hwf') as (b' & -> & Hb').
  f_equal. specialize (Hiff y). destruct b, b'; intuition congruence.
Qed.

Lemma veb_insert_spec k self x :
  wf k self → 0 ≤ x < 2 ^ k →
  ∃ self', veb_insert self x = Ok self' ∧ wf k self' ∧
           ∀ y, elem self' y ↔ elem self y ∨ y = x.
Proof. intros Hwf Hx. by apply insert_spec; [apply wf_depth| |]. Qed.

Lemma veb_delete_spec k self x :
  wf k self →
  ∃ self', veb_delete self x = Ok self' ∧ wf k self' ∧
           ∀ y, elem self' y ↔ elem self y ∧ y ≠ x.
Proof. intros Hwf. by apply delete_spec; [apply wf_depth|]. Qed.

Lemma veb_predecessor_spec k self x :
  wf k self → 1 ≤ k → 0 ≤ x < 2 ^ k →
  ∃ r, veb_predecessor self x = Ok r ∧ is_pred self x r.
Proof.
  intros Hwf Hk Hx. apply (predecessor_spec _ k); [|done|done].
  pose proof (wf_depth _ _ Hwf). lia.
Qed.

Lemma veb_successor_spec k self x :
  wf k self → 1 ≤ k → 0 ≤ x < 2 ^ k →
  ∃ r, veb_successor self x = Ok r ∧ is_succ self x r.
Proof.
  intros Hwf Hk Hx. apply (successor_spec _ k); [|done|done].
  pose proof (wf_depth _ _ Hwf). lia.
Qed.

Lemma veb_insert_present k self x :
  wf k self → elem self x → veb_insert self x = Ok self.
Proof. intros Hwf Hx. eapply insert_present; [done|done|by apply wf_depth]. Qed.

Lemma veb_delete_absent k self x :
  wf k self → ¬ elem self x → veb_delete self x = Ok self.
Proof. intros Hwf Hx. eapply delete_absent; [done|done|by apply wf_depth]. Qed.

Lemma wf_empty_fresh k self : wf k self → (∀ x, ¬ elem self x) → self = fresh k.
Proof.
  intros Hwf Hempty. pose proof (wf_bounds _ _ Hwf) as Hbd.
  unfold bounds_ok in Hbd. rewrite <- bare_fresh.
  destruct (min self) as [mn|] eqn:Emin.
  { destruct (Hempty mn). by apply elem_min. }
  destruct (max self) as [mx|] eqn:Emax; [done|].
  pose proof (bare_inv k self Hwf) as Hb. rewrite Emin, Emax in Hb.
  apply Hb. intros v Hv. exact Hv.
Qed.

(** ** States reachable by valid insertions and deletions *)

Lemma init_Ok R self :
  init R = Ok self → 1 ≤ R ∧ 0 ≤ ceil_log2 R ∧ self = fresh (ceil_log2 R).
Proof.
  intros H. assert (1 ≤ R ∧ 0 ≤ ceil_log2 R) as [? ?].
  { unfold init in H. destruct (decide (R ≤ 0)); [discriminate|].
    destruct (decide (ceil_log2 R < 0)); [discriminate|lia]. }
  rewrite init_fresh in H by done. repeat split; congruence.
Qed.

Lemma reachable_wf R self :
  reachable R self → log_ok (ceil_log2 R) → wf (ceil_log2 R) self.
Proof.
  intros Hr Hlog.
  induction Hr as [self H|self x self' _ IH Hx H|self x self' _ IH Hx H].
  - apply init_Ok in H as (? & ? & ->). by apply wf_fresh.
  - rewrite (wf_valueRange _ _ IH) in Hx.
    destruct (veb_insert_spec _ _ x IH Hx) as (s & Hs & ? & _). congruence.
  - destruct (veb_delete_spec _ _ x IH) as (s & Hs & ? & _). congruence.
Qed.

Lemma reachable_range R self : reachable R self → 1 ≤ R ∧ 0 ≤ ceil_log2 R.
Proof.
  induction 1 as [self H| |]; [|done..]. by apply init_Ok in H as (? & ? & _).
Qed.

(** A universe of at least two values has at least one bit. *)
Lemma bits_pos k self : wf k self → 2 ≤ valueRange self → 1 ≤ k.
Proof.
  intros Hwf H. rewrite (wf_valueRange _ _ Hwf) in H.
  pose proof (wf_nonneg _ _ Hwf). destruct (decide (k = 0)) as [->|]; [|lia].
  by change (2 ^ 0) with 1 in H.
Qed.

Lemma child_wf k self c : wf k self → child c self → ∃ k', 1 ≤ k' ∧ wf k' c.
Proof.
  intros Hwf Hc.
  inversion Hc as [self0 a' s Ea Es|self0 a' i c0 Ea Ec]; subst;
    destruct Hwf as [k mn mx Hk Hbd|k mn mx a Hk Hbd Ha Hch Hin Hs Hs0 Hlog Hval];
    simpl in *; simplify_eq; pose proof (child_bits k Hk Hlog).
  - exists (summary_bits k). split; [lia|]. by apply Hs.
  - exists (cluster_bits k). split; [lia|]. by eapply Hch.
Qed.

Lemma node_of_wf k self n : wf k self → node_of self n → ∃ k', wf k' n.
Proof.
  intros Hwf. induction 1 as [|n c _ [k' IH] Hc]; [eauto|].
  destruct (child_wf _ _ _ IH Hc) as (k'' & _ & ?). eauto.
Qed.

Lemma fresh_no_child k c : ¬ child c (fresh k).
Proof.
  unfold fresh. intros Hc.
  inversion Hc as [self a s Ea Es|self a i c0 Ea Ec]; subst;
    destruct (decide (k ≤ 1)); simpl in *; simplify_eq.
Qed.

(** ** Histories of insertions and deletions *)

Lemma run_reachable R ops : ∀ self self',
  log_ok (ceil_log2 R) →
  reachable R self → Forall (λ o, 0 ≤ arg o < valueRange self) ops →
  run ops self = Ok self' → reachable R self'.
Proof.
  induction ops as [|o ops IH]; intros self self' Hlog Hr Hops Hrun;
    simpl in *.
  { by injection Hrun as <-. }
  apply Forall_cons in Hops as [Ho Hops].
  destruct (apply_op self o) as [s1|] eqn:E1; [|done]. simpl in Hrun.
  assert (reachable R s1) as Hr1.
  { destruct o; [by eapply reach_insert|by eapply reach_delete]. }
  apply (IH s1); [done|done| |done].
  by rewrite (wf_valueRange _ _ (reachable_wf _ _ Hr1 Hlog)),
    <- (wf_valueRange _ _ (reachable_wf _ _ Hr Hlog)).
Qed.

Lemma live_nil x : ¬ live [] x.
Proof. intros (pre & post & H & _). by destruct pre. Qed.

Lemma live_snoc ops o x :
  live (ops ++ [o]) x ↔ o = Insert x ∨ (live ops x ∧ o ≠ Delete x).
Proof.
  split.
  - intros (pre & post & H & Hi & Hd).
    destruct post as [|o' post _] using rev_ind.
    + apply app_inj_tail in H as [_ ->]. by left.
    + rewrite app_comm_cons, app_assoc in H. apply app_inj_tail in H as [-> ->].
      rewrite elem_of_app, list_elem_of_singleton in Hi, Hd. right. split.
      * exists pre, post. tauto.
      * intros ->. tauto.
  - intros [->|[(pre & post & -> & Hi & Hd) Ho]].
    + exists ops, []. split; [done|]. split; apply not_elem_of_nil.
    + destruct (decide (o = Insert x)) as [->|Hne].
      * exists (pre ++ Insert x :: post), []. split; [done|].
        split; apply not_elem_of_nil.
      * exists pre, (post ++ [o]). split; [by rewrite <- app_assoc|].
        rewrite !elem_of_app, !list_elem_of_singleton. split; intros [?|?]; done.
Qed.

Lemma live_model ops x : live ops x ↔ x ∈ model ops.
Proof.
  unfold model. induction ops as [|o ops IH] using rev_ind.
  - split; [by intros ?%live_nil|]. simpl. set_solver.
  - rewrite live_snoc, foldl_snoc, IH.
    destruct o as [a|a]; simpl; [rewrite elem_of_union|rewrite elem_of_difference];
      rewrite elem_of_singleton.
    + split.
      * intros [[= ->]|[? _]]; auto.
      * intros [?| ->]; auto.
    + split.
      * intros [?|[? Hne]]; [done|]. split; [done|]. by intros ->.
      * intros [? ?]. right. split; [done|]. by intros [= ->].
Qed.

Lemma run_spec k ops : ∀ self S,
  wf k self → (∀ x, elem self x ↔ x ∈ S) →
  Forall (λ o, 0 ≤ arg o < 2 ^ k) ops →
  ∃ self', run ops self = Ok self' ∧ wf k self' ∧
           ∀ x, elem self' x ↔ x ∈ foldl apply_model S ops.
Proof.
  induction ops as [|o ops IH]; intros self S Hwf HS Hops; simpl.
  { by exists self. }
  apply Forall_cons in Hops as [Ho Hops].
  destruct o as [a|a]; simpl in *.
  - destruct (veb_insert_spec k self a Hwf Ho) as (s1 & -> & Hwf1 & H1).
    simpl. apply IH; [done| |done].
    intros x. rewrite H1, HS. set_solver.
  - destruct (veb_delete_spec k self a Hwf) as (s1 & -> & Hwf1 & H1).
    simpl. apply IH; [done| |done].
    intros x. rewrite H1, HS. set_solver.
Qed.

Lemma run_init R ops t0 :
  log_ok (ceil_log2 R) →
  init R = Ok t0 → Forall (λ o, 0 ≤ arg o < valueRange t0) ops →
  ∃ self, run ops t0 = Ok self ∧ wf (ceil_log2 R) self ∧
          valueRange self = valueRange t0 ∧
          ∀ x, elem self x ↔ x ∈ model ops.
Proof.
  intros Hlog H Hops. apply init_Ok in H as (HR & Hk & ->).
  pose proof (wf_fresh _ Hk Hlog) as Hwf.
  rewrite (wf_valueRange _ _ Hwf) in Hops.
  destruct (run_spec _ ops (fresh (ceil_log2 R)) ∅ Hwf) as (s & Hs & Hwfs & Hel);
    [|done|].
  { intros x. split; [by intros ?%elem_fresh|set_solver]. }
  exists s. rewrite (wf_valueRange _ _ Hwf), (wf_valueRange _ _ Hwfs). done.
Qed.

(* ================================================================= *)
(** * The properties of the specification *)

(** ** Membership follows the history of operations *)

(** C1. For every finite sequence of insert and delete operations with
    arguments in [0, universeSize) applied to a freshly constructed
    structure, [contains(x)] returns true if and only if [x] was inserted at
    some point and not deleted since its most recent insertion; inserting an
    already-present value and deleting an absent value leave membership
    unchanged.  This holds whatever the floating-point logarithm of
    [__init__] returns for the requested range, provided that for the
    powers of two below the universe it returns the exact logarithm or one
    more ([log_ok]); the universe is the one that [__init__] computed. *)
Theorem contains_reflects_history R ops t0 :
  log_ok (ceil_log2 R) →
  init R = Ok t0 → Forall (λ o, 0 ≤ arg o < valueRange t0) ops →
  ∃ self, run ops t0 = Ok self ∧
    (∀ x, veb_contains self x = Ok true ↔ live ops x) ∧
    (∀ x, veb_contains self x = Ok false ↔ ¬ live ops x) ∧
    (∀ x, 0 ≤ x < valueRange t0 → veb_contains self x = Ok true →
       ∃ self', veb_insert self x = Ok self' ∧
                ∀ y, veb_contains self' y = veb_contains self y) ∧
    (∀ x, 0 ≤ x < valueRange t0 → veb_contains self x = Ok false →
       ∃ self', veb_delete self x = Ok self' ∧
                ∀ y, veb_contains self' y = veb_contains self y).
Proof.
  intros Hlog Hinit Hops.
  destruct (run_init R ops t0 Hlog Hinit Hops)
    as (self & Hrun & Hwf & _ & Hel).
  exists self. split; [done|]. repeat split.
  - intros H. apply live_model, Hel. by apply (stored_elem _ _ _ Hwf).
  - intros H. apply (stored_elem _ _ _ Hwf), Hel. by apply live_model.
  - intros H Hl. apply live_model, Hel in Hl.
    by apply (not_stored_elem _ _ _ Hwf) in H.
  - intros H. apply (not_stored_elem _ _ _ Hwf). intros Hx. apply H.
    by apply live_model, Hel.
  - intros x _ Hx. exists self. split; [|done].
    apply (veb_insert_present _ _ _ Hwf). by apply (stored_elem _ _ _ Hwf).
  - intros x _ Hx. exists self. split; [|done].
    apply (veb_delete_absent _ _ _ Hwf). by apply (not_stored_elem _ _ _ Hwf).
Qed.


(** ** The structural invariant *)

Lemma wf_structural k n : wf k n → structural_invariant n.
Proof.
  intros Hwf. pose proof (wf_bounds _ _ Hwf) as Hbd. unfold bounds_ok in Hbd.
  pose proof (λ x, stored_elem k n x Hwf) as Hst.
  split; [|split; [|split; [|split]]].
  - split.
    + intros [Hmn _] x Hx. apply Hst in Hx. by eapply min_None_empty in Hx.
    + intros Hempty. destruct (min n) as [a|] eqn:Emin.
      * destruct (Hempty a). by apply Hst, elem_min.
      * by destruct (max n).
  - destruct (min n), (max n); try done; split; done.
  - intros a b Ea Eb. rewrite Ea, Eb in Hbd. lia.
  - intros a Ea Eb.
    pose proof (bare_inv k n Hwf) as Hbare. rewrite Ea, Eb in Hbare.
    rewrite Hbare by (unfold between; intros v ?; lia). split.
    + intros x. rewrite <- Hbare by (unfold between; intros v ?; lia).
      rewrite Hst, Hbare by (unfold between; intros v ?; lia).
      rewrite elem_bare. intuition congruence.
    + unfold bare, fresh. intros att' Hat.
      destruct (decide (k ≤ 1)); simpl in Hat; [done|]. by injection Hat as <-.
  - intros Hvr.
    destruct Hwf as [k mn mx Hk Hbd'|k mn mx a Hk Hbd' Ha Hch Hin Hs Hs0 Hlog Hval];
      simpl in *.
    { assert (2 ^ k ≤ 2 ^ 1) by (apply Z.pow_le_mono_r; lia).
      change (2 ^ 1) with 2 in *. lia. }
    exists a. split; [done|]. split; [|split].
    + split.
      * intros [s Es]. destruct (Hs s Es) as (Hwfs & Hnes & Hkeys).
        destruct (nonempty_elem _ Hnes) as [i Hi]. exists i. by apply Hkeys.
      * intros [i [c Ec]]. destruct (summary a) as [s|]; [done|].
        by rewrite (Hs0 eq_refl), lookup_empty in Ec.
    + intros s Es i. destruct (Hs s Es) as (Hwfs & _ & Hkeys).
      by rewrite (stored_elem _ _ _ Hwfs).
    + intros i c Ec. destruct (Hch _ _ Ec) as [Hwfc Hnec].
      destruct (nonempty_elem _ Hnec) as [x Hx]. exists x.
      by apply (stored_elem _ _ _ Hwfc).
Qed.

Lemma singleton_ops n : singleton_unconsulted n.
Proof.
  intros a _ _ fuel inn x. simpl. repeat split.
  - destruct (decide (Some a = Some x ∨ Some a = Some x)) as [[E|E]|Hne].
    + injection E as ->. by rewrite bool_decide_eq_true_2.
    + injection E as ->. by rewrite bool_decide_eq_true_2.
    + assert (x ≠ a) by (intros ->; tauto).
      rewrite bool_decide_eq_false_2 by done.
      destruct (decide (x < a)); [done|]. destruct (decide (x > a)); [done|lia].
  - destruct (decide (Some x = Some a ∨ Some x = Some a)) as [[E|E]|Hne].
    + injection E as ->. by rewrite Z.min_id, Z.max_id.
    + injection E as ->. by rewrite Z.min_id, Z.max_id.
    + assert (x ≠ a) by (intros ->; tauto).
      destruct (decide (Some a = Some a)); [|done].
      destruct (decide (x < a)).
      * by rewrite Z.min_r, Z.max_l by lia.
      * destruct (decide (x > a)); [|lia].
        by rewrite Z.min_l, Z.max_r by lia.
  - destruct (decide (x < a)); [by rewrite decide_False by lia|].
    destruct (decide (x > a)); [by rewrite decide_False by lia|].
    destruct (decide (Some a = Some a)); [|done].
    by rewrite decide_True by lia.
Qed.

Lemma wf_singleton_direct k n : wf k n → singleton_no_recursion n.
Proof.
  intros Hwf a Ea Eb x.
  pose proof (bare_inv k n Hwf) as Hbare. rewrite Ea, Eb in Hbare.
  specialize (Hbare ltac:(unfold between; intros v ?; lia)).
  assert (Hdepth : (1 ≤ depth n)%nat) by (unfold depth; lia).
  assert (predecessor 1 n x ≠ Raise OutOfFuel ∧
          successor 1 n x ≠ Raise OutOfFuel) as [Hp Hs].
  { rewrite Hbare. unfold bare, fresh. simpl.
    destruct (decide (2 ^ k = 2)); [done|].
    destruct (bool_decide (x > a)), (bool_decide (x < a));
      destruct (decide (k ≤ 1)); simpl; rewrite ?lookup_empty; done. }
  split; symmetry.
  - by apply (predecessor_mono 1 (depth n)).
  - by apply (successor_mono 1 (depth n)).
Qed.

(** C3. Every state reachable by valid insertions and deletions satisfies
    the structural invariant, at every node of the structure: min and max are
    both absent if and only if the node is empty; when present, min <= max;
    when min = max exactly one value is stored and no cluster or summary
    state is consulted or populated for it; and, for a universe larger
    than 2, the summary is present if and only if at least one cluster child
    exists, the values stored in the summary are exactly the keys of the
    cluster mapping, and every mapped cluster is non-empty.  (The universe
    is the one that [__init__] computed, whatever the floating-point
    logarithm returned for the requested range; on the powers of two below
    it the logarithm is as [log_ok] says.) *)
Theorem reachable_structural_invariant R self n :
  reachable R self → log_ok (ceil_log2 R) → node_of self n →
  structural_invariant n ∧ singleton_unconsulted n ∧ singleton_no_recursion n.
Proof.
  intros Hr Hlog Hn. apply reachable_wf in Hr; [|done].
  destruct (node_of_wf _ _ _ Hr Hn) as [k Hwf].
  split; [by eapply wf_structural|].
  split; [apply singleton_ops|by eapply wf_singleton_direct].
Qed.

(** ** What the clusters hold *)

Lemma wf_clustered k n x :
  wf k n → clustered n x ↔ stored n x ∧ min n ≠ Some x ∧ max n ≠ Some x.
Proof.
  intros Hwf. rewrite (stored_elem _ _ _ Hwf). split.
  - intros (a & i & c & j & Ea & Ec & Hj & Hv).
    destruct Hwf as [k mn mx Hk Hbd'|k mn mx a' Hk Hbd' Ha Hch Hin Hs Hs0 Hlog Hval];
      simpl in Ea; [done|]. injection Ea as ->.
    destruct (Hch _ _ Ec) as [Hwfc _]. apply (stored_elem _ _ _ Hwfc) in Hj.
    rewrite (value_mul k Hk _ a Ha) in Hv. injection Hv as <-.
    pose proof (in_cluster_intro k a i c j Hk Ha Hval Ec Hwfc Hj) as Hx.
    pose proof (Hin _ Hx) as Hb. split; [apply elem_node; auto|].
    unfold between in Hb. destruct mn, mx; try done.
    split; intros [= ->]; lia.
  - intros (Hx & Hmn & Hmx).
    destruct (elem_inner k n x Hwf Hx Hmn Hmx)
      as (mn & mx & a & c & -> & Hk & Hb & Ec & Hwfc & _ & Hxi).
    exists a, (clusterIndex a x), c, (valueIndex a x).
    split; [done|]. split; [done|]. split; [by apply (stored_elem _ _ _ Hwfc)|].
    destruct (wf_node_inv _ _ _ _ _ Hwf) as (_ & _ & _ & Ha & _).
    rewrite (value_mul k Hk _ a Ha). f_equal. symmetry.
    apply (split_value k Hk _ a Ha).
Qed.

(** C10. In every reachable node with a universe larger than 2, the set of
    values represented recursively inside the cluster children is exactly
    the node's stored set minus its cached min and max: neither the value
    cached in min nor the value cached in max is ever simultaneously stored
    in a cluster.  (The floating-point logarithm is as [log_ok] says.) *)
Theorem clusters_exclude_bounds R self n :
  reachable R self → log_ok (ceil_log2 R) → node_of self n → valueRange n > 2 →
  (∀ x, clustered n x ↔ stored n x ∧ min n ≠ Some x ∧ max n ≠ Some x) ∧
  (∀ x, stored n x ↔ min n = Some x ∨ max n = Some x ∨ clustered n x) ∧
  (∀ x, min n = Some x → ¬ clustered n x) ∧
  (∀ x, max n = Some x → ¬ clustered n x).
Proof.
  intros Hr Hlog Hn _. apply reachable_wf in Hr; [|done].
  destruct (node_of_wf _ _ _ Hr Hn) as [k Hwf].
  pose proof (λ x, wf_clustered k n x Hwf) as Hc.
  split; [done|]. split; [|split].
  - intros x. rewrite Hc, (stored_elem _ _ _ Hwf). split.
    + intros Hx. destruct (decide (min n = Some x)); [auto|].
      destruct (decide (max n = Some x)); auto.
    + intros [H|[H|[H _]]]; [by apply elem_min|by apply elem_max|done].
  - intros x Hx H. apply Hc in H. tauto.
  - intros x Hx H. apply Hc in H. tauto.
Qed.

(** ** Emptying the structure *)

Lemma model_inserts l : ∀ S,
  foldl apply_model S (Insert <$> l) = S ∪ list_to_set l.
Proof.
  induction l as [|a l IH]; intros S; simpl; [set_solver|].
  rewrite IH. set_solver.
Qed.

Lemma model_deletes l : ∀ S,
  foldl apply_model S (Delete <$> l) = S ∖ list_to_set l.
Proof.
  induction l as [|a l IH]; intros S; simpl; [set_solver|].
  rewrite IH. set_solver.
Qed.

(** C6. For every k and every set of k distinct in-range values, after
    inserting all k values and then deleting all k (in any order), the
    resulting structure contains zero live cluster or summary nodes (the
    cluster mapping is empty and the summary is absent at every level) and
    [contains(x)] returns false for every x in [0, universeSize).  (The
    universe is the one that [__init__] computed; the floating-point
    logarithm is as [log_ok] says.) *)
Theorem insert_all_delete_all R t0 vals dels :
  log_ok (ceil_log2 R) →
  init R = Ok t0 → NoDup vals → Forall (λ x, 0 ≤ x < valueRange t0) vals →
  dels ≡ₚ vals →
  ∃ self, run ((Insert <$> vals) ++ (Delete <$> dels)) t0 = Ok self ∧
    self = t0 ∧
    (∀ c, ¬ child c self) ∧
    (∀ a, inner self = Some a → summary a = None ∧ cluster a = ∅) ∧
    (∀ x, veb_contains self x = Ok false).
Proof.
  intros Hlog Hinit _ Hvals Hperm.
  destruct (run_init R ((Insert <$> vals) ++ (Delete <$> dels)) t0 Hlog Hinit)
    as (self & Hrun & Hwf & _ & Hel).
  { apply Forall_app. split; apply Forall_fmap; simpl; [done|].
    by rewrite Hperm. }
  assert (Hempty : ∀ x, ¬ elem self x).
  { intros x Hx. apply Hel in Hx. unfold model in Hx.
    rewrite foldl_app, model_inserts, model_deletes in Hx.
    apply elem_of_difference in Hx as [Hx Hnx]. apply Hnx.
    rewrite elem_of_union in Hx. destruct Hx as [Hx|Hx]; [set_solver|].
    rewrite elem_of_list_to_set in *. by rewrite Hperm. }
  apply init_Ok in Hinit as (_ & _ & ->).
  pose proof (wf_empty_fresh _ _ Hwf Hempty) as ->.
  exists (fresh (ceil_log2 R)). split; [done|]. split; [done|].
  split; [apply fresh_no_child|]. split.
  - unfold fresh. intros a Ha.
    destruct (decide (ceil_log2 R ≤ 1)); simpl in Ha; [done|].
    by injection Ha as <-.
  - intros x. apply (not_stored_elem _ _ _ Hwf). apply elem_fresh.
Qed.

(** ** Idempotence *)

(** C7. Insert and delete are idempotent on the whole structure state: for
    every reachable state and every in-range x, performing [insert(x)] twice
    yields a state equal to performing [insert(x)] once, and performing
    [delete(x)] twice yields a state equal to performing [delete(x)] once.
    (The floating-point logarithm is as [log_ok] says.) *)
Theorem insert_delete_idempotent R self x :
  reachable R self → log_ok (ceil_log2 R) → 0 ≤ x < valueRange self →
  (∃ s1, veb_insert self x = Ok s1 ∧
         run [Insert x; Insert x] self = Ok s1) ∧
  (∃ s2, veb_delete self x = Ok s2 ∧
         run [Delete x; Delete x] self = Ok s2).
Proof.
  intros Hr Hlog Hx. pose proof (reachable_wf _ _ Hr Hlog) as Hwf.
  rewrite (wf_valueRange _ _ Hwf) in Hx. split.
  - destruct (veb_insert_spec _ _ x Hwf Hx) as (s1 & Hs1 & Hwf1 & Hel).
    exists s1. split; [done|]. simpl. rewrite Hs1. simpl.
    rewrite (veb_insert_present _ _ x Hwf1); [done|]. apply Hel. by right.
  - destruct (veb_delete_spec _ _ x Hwf) as (s2 & Hs2 & Hwf2 & Hel).
    exists s2. split; [done|]. simpl. rewrite Hs2. simpl.
    rewrite (veb_delete_absent _ _ x Hwf2); [done|]. intros H.
    apply Hel in H. tauto.
Qed.

(** ** Neighbours *)

Lemma neighbours_spec R self x :
  reachable R self → log_ok (ceil_log2 R) → 2 ≤ valueRange self → 0 ≤ x < valueRange self →
  (∃ r, veb_predecessor self x = Ok r ∧
        match r with
        | Some p => stored self p ∧ p < x ∧ ∀ y, stored self y → y < x → y ≤ p
        | None => ∀ y, stored self y → x ≤ y
        end) ∧
  (∃ r, veb_successor self x = Ok r ∧
        match r with
        | Some p => stored self p ∧ x < p ∧ ∀ y, stored self y → x < y → p ≤ y
        | None => ∀ y, stored self y → y ≤ x
        end).
Proof.
  intros Hr Hlog HR Hx. pose proof (reachable_wf _ _ Hr Hlog) as Hwf.
  rewrite (wf_valueRange _ _ Hwf) in Hx.
  assert (1 ≤ ceil_log2 R) by exact (bits_pos _ _ Hwf HR).
  pose proof (λ y, stored_elem _ self y Hwf) as Hst. split.
  - destruct (veb_predecessor_spec _ _ x Hwf) as (r & Hr1 & Hr2); [done..|].
    exists r. split; [done|]. destruct r as [p|]; simpl in Hr2.
    + rewrite Hst. setoid_rewrite Hst. done.
    + setoid_rewrite Hst. done.
  - destruct (veb_successor_spec _ _ x Hwf) as (r & Hr1 & Hr2); [done..|].
    exists r. split; [done|]. destruct r as [p|]; simpl in Hr2.
    + rewrite Hst. setoid_rewrite Hst. done.
    + setoid_rewrite Hst. done.
Qed.

Lemma consecutive_spec R self :
  reachable R self → log_ok (ceil_log2 R) → 2 ≤ valueRange self →
  (∀ a b, stored self a → stored self b → a < b →
          (∀ y, stored self y → ¬ (a < y < b)) →
          veb_successor self a = Ok (Some b) ∧
          veb_predecessor self b = Ok (Some a)) ∧
  (∀ m, stored self m → (∀ y, stored self y → m ≤ y) →
        veb_predecessor self m = Ok None) ∧
  (∀ m, stored self m → (∀ y, stored self y → y ≤ m) →
        veb_successor self m = Ok None).
Proof.
  intros Hr Hlog HR. pose proof (reachable_wf _ _ Hr Hlog) as Hwf.
  assert (Hrange : ∀ y, stored self y → 0 ≤ y < valueRange self).
  { intros y Hy. rewrite (wf_valueRange _ _ Hwf).
    eapply elem_range; [done|]. by apply (stored_elem _ _ _ Hwf). }
  pose proof (λ y Hy, neighbours_spec R self y Hr Hlog HR (Hrange y Hy))
    as Hps.
  split; [|split].
  - intros a b Ha Hb Hab Hgap. split.
    + destruct (Hps a Ha) as (_ & r & -> & Hr2). do 2 f_equal.
      destruct r as [p|].
      * destruct Hr2 as (Hp & Hlt & Hmin). specialize (Hmin b Hb Hab).
        specialize (Hgap p Hp). f_equal. lia.
      * specialize (Hr2 b Hb). lia.
    + destruct (Hps b Hb) as ((r & -> & Hr2) & _). do 2 f_equal.
      destruct r as [p|].
      * destruct Hr2 as (Hp & Hlt & Hmax). specialize (Hmax a Ha Hab).
        specialize (Hgap p Hp). f_equal. lia.
      * specialize (Hr2 a Ha). lia.
  - intros m Hm Hleast. destruct (Hps m Hm) as ((r & -> & Hr2) & _).
    destruct r as [p|]; [|done]. destruct Hr2 as (Hp & Hlt & _).
    specialize (Hleast p Hp). lia.
  - intros m Hm Hgreatest. destruct (Hps m Hm) as (_ & r & -> & Hr2).
    destruct r as [p|]; [|done]. destruct Hr2 as (Hp & Hlt & _).
    specialize (Hgreatest p Hp). lia.
Qed.

(** X13, the part of C2 that holds.  For every structure whose universe,
    as [__init__] computed it, has at least 2 values (the floating-point
    logarithm being as [log_ok] says): in every state reachable by valid
    insertions and deletions and for every x in [0, universeSize),
    [predecessor(x)] returns the
    largest stored value strictly less than x, or none, and [successor(x)]
    the smallest stored value strictly greater than x, or none.  In
    particular, for consecutive stored values a < b, [successor(a)] is b and
    [predecessor(b)] is a; the predecessor of the stored minimum and the
    successor of the stored maximum are none. *)
Theorem predecessor_successor_correct R self x :
  reachable R self → log_ok (ceil_log2 R) → 2 ≤ valueRange self → 0 ≤ x < valueRange self →
  (∃ r, veb_predecessor self x = Ok r ∧
        match r with
        | Some p => stored self p ∧ p < x ∧ ∀ y, stored self y → y < x → y ≤ p
        | None => ∀ y, stored self y → x ≤ y
        end) ∧
  (∃ r, veb_successor self x = Ok r ∧
        match r with
        | Some p => stored self p ∧ x < p ∧ ∀ y, stored self y → x < y → p ≤ y
        | None => ∀ y, stored self y → y ≤ x
        end) ∧
  (∀ a b, stored self a → stored self b → a < b →
          (∀ y, stored self y → ¬ (a < y < b)) →
          veb_successor self a = Ok (Some b) ∧
          veb_predecessor self b = Ok (Some a)) ∧
  (∀ m, stored self m → (∀ y, stored self y → m ≤ y) →
        veb_predecessor self m = Ok None) ∧
  (∀ m, stored self m → (∀ y, stored self y → y ≤ m) →
        veb_successor self m = Ok None).
Proof.
  intros Hr Hlog HR Hx.
  destruct (neighbours_spec R self x Hr Hlog HR Hx) as [Hp Hs].
  destruct (consecutive_spec R self Hr Hlog HR) as (Hc & Hmin & Hmax).
  repeat (split; [done|]). done.
Qed.

(** ** Enumeration *)

Lemma sorted_NoDup (l : list Z) : StronglySorted Z.lt l → NoDup l.
Proof.
  induction 1 as [|a l _ IH Hall]; constructor; [|done].
  intros Ha. rewrite Forall_forall in Hall.
  specialize (Hall a Ha). lia.
Qed.

Lemma sorted_unique (l1 l2 : list Z) :
  StronglySorted Z.lt l1 → StronglySorted Z.lt l2 →
  (∀ x, x ∈ l1 ↔ x ∈ l2) → l1 = l2.
Proof.
  intros H1. revert l2.
  induction H1 as [|a1 l1 _ IH Hall1]; intros l2 H2 Hiff.
  - destruct l2 as [|a2 l2]; [done|].
    destruct (not_elem_of_nil a2). apply Hiff. by left.
  - destruct H2 as [|a2 l2 H2 Hall2].
    { destruct (not_elem_of_nil a1). apply Hiff. by left. }
    rewrite Forall_forall in Hall1, Hall2.
    assert (a1 = a2) as ->.
    { pose proof (proj1 (Hiff a1) (list_elem_of_here _ _)) as Ha1.
      pose proof (proj2 (Hiff a2) (list_elem_of_here _ _)) as Ha2.
      apply elem_of_cons in Ha1 as [?|Ha1]; [done|].
      apply elem_of_cons in Ha2 as [?|Ha2]; [done|].
      specialize (Hall1 _ Ha2). specialize (Hall2 _ Ha1). lia. }
    f_equal. apply IH; [done|]. intros x. split; intros Hx.
    + pose proof (Hall1 _ Hx).
      pose proof (proj1 (Hiff x) (list_elem_of_further _ _ _ Hx)) as Hx2.
      apply elem_of_cons in Hx2 as [?|?]; [lia|done].
    + pose proof (Hall2 _ Hx).
      pose proof (proj2 (Hiff x) (list_elem_of_further _ _ _ Hx)) as Hx1.
      apply elem_of_cons in Hx1 as [?|?]; [lia|done].
Qed.

Lemma iter_loop_spec k self :
  wf k self → 1 ≤ k → ∀ n v, elem self v → 2 ^ k - v ≤ Z.of_nat n →
  ∃ l, iter_loop n self (Some v) = Ok (v :: l) ∧
       StronglySorted Z.lt (v :: l) ∧
       ∀ x, x ∈ v :: l ↔ elem self x ∧ v ≤ x.
Proof.
  intros Hwf Hk. induction n as [|n IH]; intros v Hv Hn.
  { pose proof (elem_range _ _ _ Hwf Hv). lia. }
  pose proof (elem_range _ _ _ Hwf Hv) as Hvr.
  simpl. destruct (veb_successor_spec k self v Hwf Hk Hvr) as (r & -> & Hr).
  simpl. destruct r as [p|]; simpl in Hr.
  - destruct Hr as (Hp & Hlt & Hmin).
    destruct (IH p Hp) as (l & -> & Hsorted & Hmem); [lia|].
    simpl. exists (p :: l). split; [done|]. split.
    + constructor; [done|]. apply Forall_forall. intros x Hx.
      apply Hmem in Hx. lia.
    + intros x. rewrite elem_of_cons, Hmem. split.
      * intros [->|[? ?]]; [split; [done|lia]|split; [done|lia]].
      * intros [Hx Hle]. destruct (decide (x = v)); [by left|right].
        split; [done|]. apply Hmin; [done|lia].
  - destruct n; simpl; (exists []; split; [done|]; split;
      [repeat constructor|]);
    (intros x; rewrite list_elem_of_singleton; split;
      [by intros ->|intros [Hx Hle]; specialize (Hr x Hx); lia]).
Qed.

Lemma iter_spec k self :
  wf k self → 1 ≤ k →
  ∃ l, iter self = Ok l ∧ StronglySorted Z.lt l ∧ ∀ x, x ∈ l ↔ elem self x.
Proof.
  intros Hwf Hk. unfold iter. destruct (min self) as [m|] eqn:Emin.
  - pose proof (elem_min _ _ Emin) as Hm.
    destruct (iter_loop_spec k self Hwf Hk (Z.to_nat (valueRange self)) m Hm)
      as (l & -> & Hsorted & Hmem).
    { rewrite (wf_valueRange _ _ Hwf).
      pose proof (elem_range _ _ _ Hwf Hm). lia. }
    exists (m :: l). split; [done|]. split; [done|].
    intros x. rewrite Hmem. split; [tauto|]. intros Hx. split; [done|].
    destruct (elem_bounds _ _ _ Hwf Hx) as (m' & ? & ? & _ & _ & ? & _).
    assert (m' = m) as -> by congruence. done.
  - exists []. split; [by destruct (Z.to_nat (valueRange self))|].
    split; [constructor|]. intros x. split; [by intros ?%not_elem_of_nil|].
    intros Hx. by eapply min_None_empty in Hx.
Qed.

(** X14, the part of C8 that holds.  For every structure whose universe,
    as [__init__] computed it, has at least 2 values (the floating-point
    logarithm being as [log_ok] says), and every reachable state of it,
    enumeration yields exactly the stored values in
    strictly ascending order with no duplicates, and so does the generator
    under every larger bound on its iterations; an empty structure yields
    the empty sequence; and after inserting 3, 1, 4, 1, 5, 9, 2, 6 into a
    fresh structure of universe size at least 16 it yields exactly
    (1, 2, 3, 4, 5, 6, 9). *)
Theorem iter_sorted R self :
  reachable R self → log_ok (ceil_log2 R) → 2 ≤ valueRange self →
  (∃ l, iter self = Ok l ∧ StronglySorted Z.lt l ∧ NoDup l ∧
        (∀ x, x ∈ l ↔ stored self x) ∧
        ∀ n, (Z.to_nat (valueRange self) ≤ n)%nat →
             iter_loop n self (min self) = Ok l) ∧
  ((∀ x, ¬ stored self x) → iter self = Ok []) ∧
  (16 ≤ valueRange self → ∀ t0 t, init R = Ok t0 →
     run (Insert <$> [3; 1; 4; 1; 5; 9; 2; 6]) t0 = Ok t →
     iter t = Ok [1; 2; 3; 4; 5; 6; 9]).
Proof.
  intros Hr Hlog HR. pose proof (reachable_wf _ _ Hr Hlog) as Hwf.
  assert (Hk : 1 ≤ ceil_log2 R) by exact (bits_pos _ _ Hwf HR).
  split; [|split].
  - destruct (iter_spec _ _ Hwf Hk) as (l & Hl & Hsorted & Hmem).
    exists l. split; [done|]. split; [done|]. split; [by apply sorted_NoDup|].
    split; [intros x; by rewrite (stored_elem _ _ _ Hwf)|].
    intros n Hn. rewrite <- Hl. apply iter_loop_mono; [done|].
    fold (iter self). by rewrite Hl.
  - intros Hempty. destruct (iter_spec _ _ Hwf Hk) as (l & -> & _ & Hmem).
    destruct l as [|a l]; [done|]. destruct (Hempty a).
    apply (stored_elem _ _ _ Hwf), Hmem. by left.
  - intros HR16 t0 t Hinit Hrun.
    rewrite (wf_valueRange _ _ Hwf) in HR16.
    destruct (run_init R (Insert <$> [3; 1; 4; 1; 5; 9; 2; 6]) t0 Hlog Hinit)
      as (t' & Hrun' & Hwf' & _ & Hel).
    { apply init_Ok in Hinit as (_ & Hk0 & ->).
      rewrite (wf_valueRange _ _ (wf_fresh _ Hk0 Hlog)).
      repeat constructor; simpl; lia. }
    assert (t' = t) as -> by congruence.
    destruct (iter_spec _ _ Hwf' Hk) as (l & -> & Hsorted & Hmem).
    f_equal. apply sorted_unique; [done| |].
    + repeat constructor; lia.
    + intros x. rewrite Hmem, Hel. unfold model. simpl.
      rewrite !elem_of_cons, elem_of_nil. set_solver.
Qed.

(** ** Construction rounds the range up *)

(** X15, the part of C4 that holds where the logarithm is computed
    exactly.  For every requested
    range R of at least 2 on which [ceil(log(R, 2))] comes out as the exact
    ceiling of the binary logarithm (and the logarithm is at most one too
    high on the powers of two below, and right up to 4), construction
    produces an empty structure whose universe size is R rounded up to the
    next power of two, which is at least 2; a range of 5 yields the
    universe size 8, and 5, 6 and 7 are then valid insertable values. *)
Theorem init_rounds_up R :
  2 ≤ R → ceil_log2 R = Z.log2_up R → log_ok (ceil_log2 R) →
  ∃ t0, init R = Ok t0 ∧
    valueRange t0 = 2 ^ Z.log2_up R ∧
    R ≤ valueRange t0 < 2 * R ∧ 2 ≤ valueRange t0 ∧
    (∀ k, 0 ≤ k → R ≤ 2 ^ k → valueRange t0 ≤ 2 ^ k) ∧
    (∀ x, veb_contains t0 x = Ok false) ∧
    (R = 5 → valueRange t0 = 8 ∧
       ∀ x, x = 5 ∨ x = 6 ∨ x = 7 →
         ∃ t1, veb_insert t0 x = Ok t1 ∧ veb_contains t1 x = Ok true).
Proof.
  intros HR Hexact Hlog. exists (fresh (ceil_log2 R)).
  pose proof (Z.log2_up_nonneg R) as Hk.
  split; [apply init_fresh; lia|]. rewrite Hexact in *.
  pose proof (wf_fresh _ Hk Hlog) as Hwf.
  pose proof (wf_valueRange _ _ Hwf) as Hvr.
  pose proof (Z.log2_up_spec R) as Hspec.
  split; [done|]. rewrite Hvr.
  assert (2 ^ Z.log2_up R = 2 * 2 ^ Z.pred (Z.log2_up R)) as Hdouble.
  { rewrite <- Z.pow_succ_r; [f_equal; lia|].
    pose proof (Z.log2_up_pos R). lia. }
  split; [lia|]. split; [lia|]. split; [|split].
  - intros k Hk0 HRk. apply Z.pow_le_mono_r; [lia|].
    apply Z.log2_up_le_pow2; lia.
  - intros x. apply (not_stored_elem _ _ _ Hwf), elem_fresh.
  - intros ->. split; [done|]. intros x Hx.
    destruct (veb_insert_spec _ _ x Hwf) as (t1 & Ht1 & Hwf1 & Hel).
    { change (2 ^ Z.log2_up 5) with 8. lia. }
    exists t1. split; [done|]. apply (stored_elem _ _ _ Hwf1), Hel. by right.
Qed.

(** ** Arguments outside the universe *)

Lemma fresh_neighbours k x :
  1 ≤ k → veb_predecessor (fresh k) x = Ok None ∧
          veb_successor (fresh k) x = Ok None.
Proof.
  intros Hk. unfold veb_predecessor, veb_successor, depth, fresh.
  destruct (decide (k ≤ 1)); simpl.
  - assert (k = 1) as -> by lia. change (2 ^ 1) with 2.
    destruct (decide (2 = 2)); [|done]. split; f_equal.
    + by destruct (decide (x = 1 ∧ None = Some 0)) as [[_ ?]|].
    + by destruct (decide (x = 0 ∧ None = Some 1)) as [[_ ?]|].
  - destruct (decide (2 ^ k = 2)) as [Hk2|_]; [apply pow2_eq_2 in Hk2; lia|].
    by rewrite lookup_empty.
Qed.

Lemma singleton_neighbours k x :
  1 ≤ k →
  veb_predecessor (Tree (2 ^ k) (Some x) (Some x) (inner (fresh k))) x
  = Ok None ∧
  veb_successor (Tree (2 ^ k) (Some x) (Some x) (inner (fresh k))) x
  = Ok None.
Proof.
  intros Hk. unfold veb_predecessor, veb_successor, depth, fresh.
  destruct (decide (k ≤ 1)); simpl.
  - assert (k = 1) as -> by lia. change (2 ^ 1) with 2.
    destruct (decide (2 = 2)); [|done]. split; f_equal.
    + destruct (decide (x = 1 ∧ Some x = Some 0)) as [[-> [=]]|]; done.
    + destruct (decide (x = 0 ∧ Some x = Some 1)) as [[-> [=]]|]; done.
  - destruct (decide (2 ^ k = 2)) as [Hk2|_]; [apply pow2_eq_2 in Hk2; lia|].
    rewrite !bool_decide_eq_false_2 by lia. simpl. rewrite lookup_empty.
    unfold predecessor_summary, successor_summary, predecessor_bound,
      successor_bound. simpl.
    destruct (decide (x > x)); [lia|]. destruct (decide (x < x)); [lia|done].
Qed.

(** C5, amended. No operation checks its argument against the universe.
    In every reachable state and for every x outside [0, universeSize),
    [contains(x)] returns false and [delete(x)] returns leaving the state
    unchanged; on a freshly constructed structure [insert(x)] returns
    normally with min = max = x, after which [contains(x)] returns true;
    and, for a universe of at least 2 values, [predecessor(x)] and
    [successor(x)] return none on the freshly constructed structure and
    again after that insertion.  No invalid-argument signal is raised.
    (The universe is the one that [__init__] computed; the floating-point
    logarithm is as [log_ok] says.) *)
Theorem out_of_range_unchecked R self x :
  reachable R self → log_ok (ceil_log2 R) → ¬ (0 ≤ x < valueRange self) →
  veb_contains self x = Ok false ∧
  veb_delete self x = Ok self ∧
  ∀ t0, init R = Ok t0 →
    veb_insert t0 x = Ok (Tree (valueRange t0) (Some x) (Some x) (inner t0)) ∧
    veb_contains (Tree (valueRange t0) (Some x) (Some x) (inner t0)) x
    = Ok true ∧
    (2 ≤ valueRange self →
       veb_predecessor t0 x = Ok None ∧ veb_successor t0 x = Ok None ∧
       veb_predecessor (Tree (valueRange t0) (Some x) (Some x) (inner t0)) x
       = Ok None ∧
       veb_successor (Tree (valueRange t0) (Some x) (Some x) (inner t0)) x
       = Ok None).
Proof.
  intros Hr Hlog Hx. pose proof (reachable_wf _ _ Hr Hlog) as Hwf.
  pose proof Hx as Hx'. rewrite (wf_valueRange _ _ Hwf) in Hx'.
  assert (Hout : ¬ elem self x).
  { intros H. by apply (elem_range _ _ _ Hwf) in H. }
  split; [by apply (not_stored_elem _ _ _ Hwf)|].
  split; [by apply (veb_delete_absent _ _ _ Hwf)|].
  intros t0 Hinit. apply init_Ok in Hinit as (HR & Hk0 & ->).
  split; [|split].
  - unfold veb_insert, depth. simpl.
    destruct (decide (Some x = min (fresh (ceil_log2 R))
                      ∨ Some x = max (fresh (ceil_log2 R)))) as [[E|E]|_].
    + unfold fresh in E. by destruct (decide (ceil_log2 R ≤ 1)).
    + unfold fresh in E. by destruct (decide (ceil_log2 R ≤ 1)).
    + unfold fresh. by destruct (decide (ceil_log2 R ≤ 1)).
  - unfold veb_contains, depth. simpl.
    destruct (decide (Some x = Some x ∨ Some x = Some x)); [done|tauto].
  - intros HR2. pose proof (bits_pos _ _ Hwf HR2) as Hk.
    destruct (fresh_neighbours (ceil_log2 R) x Hk) as [Hp Hs].
    split; [done|]. split; [done|].
    rewrite (wf_valueRange _ _ (wf_fresh _ Hk0 Hlog)).
    by apply singleton_neighbours.
Qed.

(* ================================================================= *)
(** * Further properties of the code *)

(** ** The state is determined by the stored set *)

Lemma wf_min_least k self a :
  wf k self → min self = Some a ↔ elem self a ∧ ∀ y, elem self y → a ≤ y.
Proof.
  intros Hwf. split.
  - intros Ea. split; [by apply elem_min|]. intros y Hy.
    destruct (elem_bounds _ _ _ Hwf Hy) as (a' & ? & ? & _ & _ & ? & _).
    assert (a' = a) as -> by congruence. done.
  - intros [Ha Hleast].
    destruct (elem_bounds _ _ _ Hwf Ha) as (a' & ? & Ea' & _ & _ & ? & _).
    rewrite Ea'. f_equal. specialize (Hleast a' (elem_min _ _ Ea')). lia.
Qed.

Lemma wf_max_greatest k self b :
  wf k self → max self = Some b ↔ elem self b ∧ ∀ y, elem self y → y ≤ b.
Proof.
  intros Hwf. split.
  - intros Eb. split; [by apply elem_max|]. intros y Hy.
    destruct (elem_bounds _ _ _ Hwf Hy) as (? & b' & _ & ? & _ & _ & ? & _).
    assert (b' = b) as -> by congruence. done.
  - intros [Hb Hgreatest].
    destruct (elem_bounds _ _ _ Hwf Hb) as (? & b' & _ & Eb' & _ & _ & ? & _).
    rewrite Eb'. f_equal. specialize (Hgreatest b' (elem_max _ _ Eb')). lia.
Qed.

Lemma wf_bounds_eq k t1 t2 :
  wf k t1 → wf k t2 → (∀ x, elem t1 x ↔ elem t2 x) →
  min t1 = min t2 ∧ max t1 = max t2.
Proof.
  intros Hwf1 Hwf2 Hiff.
  assert (Hhalf : ∀ s1 s2, wf k s1 → wf k s2 → (∀ x, elem s1 x ↔ elem s2 x) →
            ∀ a, min s1 = Some a → min s2 = Some a).
  { intros s1 s2 H1 H2 H12 a Ea. apply (wf_min_least _ _ _ H2).
    apply (wf_min_least _ _ _ H1) in Ea as [Ha Hleast].
    split; [by apply H12|]. intros y Hy. by apply Hleast, H12. }
  assert (Hhalf' : ∀ s1 s2, wf k s1 → wf k s2 → (∀ x, elem s1 x ↔ elem s2 x) →
            ∀ a, max s1 = Some a → max s2 = Some a).
  { intros s1 s2 H1 H2 H12 a Ea. apply (wf_max_greatest _ _ _ H2).
    apply (wf_max_greatest _ _ _ H1) in Ea as [Ha Hgreatest].
    split; [by apply H12|]. intros y Hy. by apply Hgreatest, H12. }
  split.
  - destruct (min t1) as [a|] eqn:E1.
    + symmetry. by apply (Hhalf t1 t2).
    + destruct (min t2) as [a|] eqn:E2; [|done].
      apply (Hhalf t2 t1) in E2; [congruence|done|done|]. intros x. by rewrite Hiff.
  - destruct (max t1) as [a|] eqn:E1.
    + symmetry. by apply (Hhalf' t1 t2).
    + destruct (max t2) as [a|] eqn:E2; [|done].
      apply (Hhalf' t2 t1) in E2; [congruence|done|done|]. intros x. by rewrite Hiff.
Qed.

Lemma in_cluster_iff k vr mn mx a x :
  wf k (Tree vr mn mx (Some a)) →
  in_cluster elem a x ↔
  elem (Tree vr mn mx (Some a)) x ∧ mn ≠ Some x ∧ mx ≠ Some x.
Proof.
  intros Hwf.
  destruct (wf_node_inv _ _ _ _ _ Hwf) as (_ & _ & _ & _ & _ & Hin & _).
  rewrite elem_node. split.
  - intros Hx. pose proof (Hin _ Hx) as Hb. unfold between in Hb.
    destruct mn, mx; try done. repeat split; [auto|intros [= ->]; lia..].
  - tauto.
Qed.

(** Two well-formed nodes over the same universe that represent the same
    set are the same node. *)
Lemma wf_canonical n : ∀ k t1 t2,
  k < Z.of_nat n → wf k t1 → wf k t2 → (∀ x, elem t1 x ↔ elem t2 x) → t1 = t2.
Proof.
  induction n as [|n IH]; intros k t1 t2 Hn Hwf1 Hwf2 Hiff.
  { pose proof (wf_nonneg _ _ Hwf1). lia. }
  destruct (wf_bounds_eq _ _ _ Hwf1 Hwf2 Hiff) as [Emin Emax].
  destruct Hwf1 as [k mn1 mx1 Hk1 Hbd1|k mn1 mx1 a1 Hk Hbd1 Ha1 Hch1 Hin1 Hs1 Hs01 Hlog1 Hval1];
    inversion Hwf2 as [k' mn2 mx2 Hk2 Hbd2 Ek|k' mn2 mx2 a2 Hk2 Hbd2 Ha2 Hch2 Hin2 Hs2 Hs02 Hlog2 Hval2 Ek];
    subst; simpl in *; subst; try lia; [done|].
  assert (Hwf1 : wf k (Tree (2 ^ k) mn2 mx2 (Some a1))) by (by apply wf_node).
  pose proof (half_bits k Hk) as (Hh1 & Hh2 & Hh3 & Hh4 & Hh5).
  pose proof (child_bits k Hk Hlog1) as (Hcb & Hsb & _).
  assert (Hcl : ∀ x, in_cluster elem a1 x ↔ in_cluster elem a2 x).
  { intros x. rewrite (in_cluster_iff _ _ _ _ _ _ Hwf1),
      (in_cluster_iff _ _ _ _ _ _ Hwf2), Hiff. done. }
  assert (Hsub : ∀ b1 b2 : attrs VanEmdeBoasTree,
            attrs_ok k b1 → attrs_ok k b2 →
            (∀ i c, cluster b1 !! i = Some c → wf (cluster_bits k) c ∧ min c ≠ None) →
            (∀ i c, cluster b2 !! i = Some c → wf (cluster_bits k) c ∧ min c ≠ None) →
            (∀ i c j, cluster b1 !! i = Some c → elem c j → j < 2 ^ (k / 2)) →
            (∀ i c j, cluster b2 !! i = Some c → elem c j → j < 2 ^ (k / 2)) →
            (∀ x, in_cluster elem b1 x ↔ in_cluster elem b2 x) →
            ∀ i c1, cluster b1 !! i = Some c1 → cluster b2 !! i = Some c1).
  { intros b1 b2 Hb1 Hb2 Hc1 Hc2 Hv1 Hv2 Hb12 i c1 Ec1.
    destruct (Hc1 _ _ Ec1) as [Hwfc1 Hne1].
    assert (Hto : ∀ j, elem c1 j →
              ∃ c2, cluster b2 !! i = Some c2 ∧ elem c2 j).
    { intros j Hj. pose proof (elem_range _ _ _ Hwfc1 Hj) as Hjr0.
      pose proof (Hv1 _ _ _ Ec1 Hj) as Hjr1.
      assert (Hjr : 0 ≤ j < 2 ^ (k / 2)) by lia.
      pose proof (in_cluster_intro k b1 i c1 j Hk Hb1 Hv1 Ec1 Hwfc1 Hj) as Hx.
      apply Hb12 in Hx as (c2 & Ec2 & Hj2).
      rewrite (clusterIndex_value k Hk _ b2 Hb2) in Ec2 by done.
      rewrite (valueIndex_value k Hk _ b2 Hb2) in Hj2 by done. eauto. }
    destruct (nonempty_elem _ Hne1) as [j0 Hj0].
    destruct (Hto j0 Hj0) as (c2 & Ec2 & _). rewrite Ec2. f_equal.
    destruct (Hc2 _ _ Ec2) as [Hwfc2 Hne2]. symmetry.
    apply (IH (cluster_bits k)); [lia|done|done|]. intros j. split.
    - intros Hj. destruct (Hto j Hj) as (c2' & Ec2' & ?). congruence.
    - intros Hj. pose proof (elem_range _ _ _ Hwfc2 Hj) as Hjr0.
      pose proof (Hv2 _ _ _ Ec2 Hj) as Hjr1.
      assert (Hjr : 0 ≤ j < 2 ^ (k / 2)) by lia.
      pose proof (in_cluster_intro k b2 i c2 j Hk Hb2 Hv2 Ec2 Hwfc2 Hj) as Hx.
      apply Hb12 in Hx as (c1' & Ec1' & Hj1).
      rewrite (clusterIndex_value k Hk _ b1 Hb1) in Ec1' by done.
      rewrite (valueIndex_value k Hk _ b1 Hb1) in Hj1 by done. congruence. }
  assert (Ecl : cluster a1 = cluster a2).
  { apply map_eq. intros i.
    destruct (cluster a1 !! i) as [c1|] eqn:E1.
    - symmetry. by apply (Hsub a1 a2).
    - destruct (cluster a2 !! i) as [c2|] eqn:E2; [|done].
      apply (Hsub a2 a1) in E2; [congruence|done..|]. intros x. by rewrite Hcl. }
  assert (Esum : summary a1 = summary a2).
  { destruct (summary a1) as [s1|] eqn:E1, (summary a2) as [s2|] eqn:E2.
    - destruct (Hs1 _ eq_refl) as (Hwfs1 & _ & Hk1).
      destruct (Hs2 _ eq_refl) as (Hwfs2 & _ & Hk2').
      f_equal. apply (IH (summary_bits k)); [lia|done|done|].
      intros i. by rewrite Hk1, Hk2', Ecl.
    - destruct (Hs1 _ eq_refl) as (Hwfs1 & Hne & Hk1).
      destruct (nonempty_elem _ Hne) as [i Hi]. apply Hk1 in Hi.
      rewrite Ecl, (Hs02 eq_refl), lookup_empty in Hi. by destruct Hi.
    - destruct (Hs2 _ eq_refl) as (Hwfs2 & Hne & Hk2').
      destruct (nonempty_elem _ Hne) as [i Hi]. apply Hk2' in Hi.
      rewrite <- Ecl, (Hs01 eq_refl), lookup_empty in Hi. by destruct Hi.
    - done. }
  destruct Ha1 as (? & ? & ? & ?), Ha2 as (? & ? & ? & ?).
  destruct a1, a2; simpl in *. by subst.
Qed.

Lemma reachable_canonical R t1 t2 :
  wf (ceil_log2 R) t1 → wf (ceil_log2 R) t2 →
  (∀ x, elem t1 x ↔ elem t2 x) → t1 = t2.
Proof.
  intros H1 H2.
  apply (wf_canonical (S (Z.to_nat (ceil_log2 R))) (ceil_log2 R)); [|done..].
  pose proof (wf_nonneg _ _ H1). lia.
Qed.

(** X1. The state does not depend on the history: two sequences of in-range
    insertions and deletions that denote the same set (insertions add,
    deletions remove) take a freshly constructed structure to one and the
    same state, clusters and summaries included.  (In-range is with respect
    to the universe that [__init__] computed; the floating-point logarithm
    is as [log_ok] says.) *)
Theorem history_independent R t0 ops1 ops2 :
  log_ok (ceil_log2 R) → init R = Ok t0 →
  Forall (λ o, 0 ≤ arg o < valueRange t0) ops1 →
  Forall (λ o, 0 ≤ arg o < valueRange t0) ops2 →
  model ops1 = model ops2 →
  ∃ self, run ops1 t0 = Ok self ∧ run ops2 t0 = Ok self.
Proof.
  intros Hlog Hinit H1 H2 Hmodel.
  destruct (run_init R ops1 t0 Hlog Hinit H1) as (s1 & Hs1 & Hwf1 & _ & Hel1).
  destruct (run_init R ops2 t0 Hlog Hinit H2) as (s2 & Hs2 & Hwf2 & _ & Hel2).
  exists s1. split; [done|]. rewrite Hs2. f_equal.
  apply (reachable_canonical R); [done..|].
  intros x. by rewrite Hel1, Hel2, Hmodel.
Qed.

Lemma apply_op_spec k self o :
  wf k self → 0 ≤ arg o < 2 ^ k →
  ∃ s, apply_op self o = Ok s ∧ wf k s ∧
       ∀ z, elem s z ↔ match o with
                        | Insert a => elem self z ∨ z = a
                        | Delete a => elem self z ∧ z ≠ a
                        end.
Proof.
  intros Hwf Ho. destruct o as [a|a]; simpl in *.
  - by apply veb_insert_spec.
  - by apply veb_delete_spec.
Qed.

Lemma run_two k self o1 o2 :
  wf k self → 0 ≤ arg o1 < 2 ^ k → 0 ≤ arg o2 < 2 ^ k →
  ∃ s1 s2, apply_op self o1 = Ok s1 ∧ run [o1; o2] self = Ok s2 ∧ wf k s2 ∧
    (∀ z, elem s1 z ↔ match o1 with
                       | Insert a => elem self z ∨ z = a
                       | Delete a => elem self z ∧ z ≠ a
                       end) ∧
    (∀ z, elem s2 z ↔ match o2 with
                       | Insert a => elem s1 z ∨ z = a
                       | Delete a => elem s1 z ∧ z ≠ a
                       end).
Proof.
  intros Hwf H1 H2.
  destruct (apply_op_spec k self o1 Hwf H1) as (s1 & Hs1 & Hwf1 & Hel1).
  destruct (apply_op_spec k s1 o2 Hwf1 H2) as (s2 & Hs2 & Hwf2 & Hel2).
  exists s1, s2. simpl. rewrite Hs1. simpl. rewrite Hs2. done.
Qed.

(** X2. How insertions and deletions compose on a reachable state, for
    in-range x and y: two insertions commute, two deletions commute, an
    insertion and a deletion of different values commute; inserting an
    absent value and deleting it again restores the very state, and so does
    deleting a stored value and inserting it again.  (The floating-point
    logarithm is as [log_ok] says.) *)
Theorem insert_delete_compose R self x y :
  reachable R self → log_ok (ceil_log2 R) → 0 ≤ x < valueRange self → 0 ≤ y < valueRange self →
  (∃ s, run [Insert x; Insert y] self = Ok s ∧
        run [Insert y; Insert x] self = Ok s) ∧
  (∃ s, run [Delete x; Delete y] self = Ok s ∧
        run [Delete y; Delete x] self = Ok s) ∧
  (x ≠ y → ∃ s, run [Insert x; Delete y] self = Ok s ∧
                run [Delete y; Insert x] self = Ok s) ∧
  (¬ stored self x → run [Insert x; Delete x] self = Ok self) ∧
  (stored self x → run [Delete x; Insert x] self = Ok self).
Proof.
  intros Hr Hlog Hx Hy. pose proof (reachable_wf _ _ Hr Hlog) as Hwf.
  rewrite (wf_valueRange _ _ Hwf) in Hx, Hy.
  rewrite (stored_elem _ _ _ Hwf).
  assert (Hpair : ∀ o1 o2 o3 o4,
            0 ≤ arg o1 < 2 ^ ceil_log2 R → 0 ≤ arg o2 < 2 ^ ceil_log2 R →
            0 ≤ arg o3 < 2 ^ ceil_log2 R → 0 ≤ arg o4 < 2 ^ ceil_log2 R →
            ∃ s1 s2 s3 s4,
              run [o1; o2] self = Ok s2 ∧ run [o3; o4] self = Ok s4 ∧
              wf (ceil_log2 R) s2 ∧ wf (ceil_log2 R) s4 ∧
              (∀ z, elem s1 z ↔ match o1 with
                                 | Insert a => elem self z ∨ z = a
                                 | Delete a => elem self z ∧ z ≠ a
                                 end) ∧
              (∀ z, elem s2 z ↔ match o2 with
                                 | Insert a => elem s1 z ∨ z = a
                                 | Delete a => elem s1 z ∧ z ≠ a
                                 end) ∧
              (∀ z, elem s3 z ↔ match o3 with
                                 | Insert a => elem self z ∨ z = a
                                 | Delete a => elem self z ∧ z ≠ a
                                 end) ∧
              (∀ z, elem s4 z ↔ match o4 with
                                 | Insert a => elem s3 z ∨ z = a
                                 | Delete a => elem s3 z ∧ z ≠ a
                                 end)).
  { intros o1 o2 o3 o4 H1 H2 H3 H4.
    destruct (run_two _ self o1 o2 Hwf H1 H2) as (s1 & s2 & _ & ? & ? & ? & ?).
    destruct (run_two _ self o3 o4 Hwf H3 H4) as (s3 & s4 & _ & ? & ? & ? & ?).
    by exists s1, s2, s3, s4. }
  assert (Hone : ∀ o1 o2,
            0 ≤ arg o1 < 2 ^ ceil_log2 R → 0 ≤ arg o2 < 2 ^ ceil_log2 R →
            ∃ s1 s2, run [o1; o2] self = Ok s2 ∧ wf (ceil_log2 R) s2 ∧
              (∀ z, elem s1 z ↔ match o1 with
                                 | Insert a => elem self z ∨ z = a
                                 | Delete a => elem self z ∧ z ≠ a
                                 end) ∧
              (∀ z, elem s2 z ↔ match o2 with
                                 | Insert a => elem s1 z ∨ z = a
                                 | Delete a => elem s1 z ∧ z ≠ a
                                 end)).
  { intros o1 o2 H1 H2.
    destruct (run_two _ self o1 o2 Hwf H1 H2) as (s1 & s2 & _ & ? & ? & ? & ?).
    by exists s1, s2. }
  split; [|split; [|split; [|split]]].
  - destruct (Hpair (Insert x) (Insert y) (Insert y) (Insert x))
      as (s1 & s2 & s3 & s4 & -> & -> & ? & ? & E1 & E2 & E3 & E4); [done..|].
    exists s2. split; [done|]. f_equal. apply (reachable_canonical R); [done..|].
    intros z. rewrite E2, E1, E4, E3. tauto.
  - destruct (Hpair (Delete x) (Delete y) (Delete y) (Delete x))
      as (s1 & s2 & s3 & s4 & -> & -> & ? & ? & E1 & E2 & E3 & E4); [done..|].
    exists s2. split; [done|]. f_equal. apply (reachable_canonical R); [done..|].
    intros z. rewrite E2, E1, E4, E3. tauto.
  - intros Hne.
    destruct (Hpair (Insert x) (Delete y) (Delete y) (Insert x))
      as (s1 & s2 & s3 & s4 & -> & -> & ? & ? & E1 & E2 & E3 & E4); [done..|].
    exists s2. split; [done|]. f_equal. apply (reachable_canonical R); [done..|].
    intros z. rewrite E2, E1, E4, E3.
    destruct (decide (z = x)) as [->|]; tauto.
  - intros Hns.
    destruct (Hone (Insert x) (Delete x)) as (s1 & s2 & -> & ? & E1 & E2);
      [done..|].
    f_equal. apply (reachable_canonical R); [done..|].
    intros z. rewrite E2, E1. destruct (decide (z = x)) as [->|]; tauto.
  - intros Hs.
    destruct (Hone (Delete x) (Insert x)) as (s1 & s2 & -> & ? & E1 & E2);
      [done..|].
    f_equal. apply (reachable_canonical R); [done..|].
    intros z. rewrite E2, E1. destruct (decide (z = x)) as [->|]; tauto.
Qed.

(** ** The cached bounds *)

(** X3. In every reachable state the attribute [min] is the least stored
    value and [max] the greatest, and both are absent exactly when nothing
    is stored; inserting an in-range x makes [min] the smaller of x and the
    old minimum and [max] the larger of x and the old maximum.  (The
    floating-point logarithm is as [log_ok] says.) *)
Theorem bounds_are_extremes R self :
  reachable R self → log_ok (ceil_log2 R) →
  (∀ a, min self = Some a ↔ stored self a ∧ ∀ y, stored self y → a ≤ y) ∧
  (∀ b, max self = Some b ↔ stored self b ∧ ∀ y, stored self y → y ≤ b) ∧
  (∀ x, 0 ≤ x < valueRange self →
     ∃ self', veb_insert self x = Ok self' ∧
       min self' = Some (from_option (Z.min x) x (min self)) ∧
       max self' = Some (from_option (Z.max x) x (max self))).
Proof.
  intros Hr Hlog. pose proof (reachable_wf _ _ Hr Hlog) as Hwf.
  pose proof (λ y, stored_elem _ self y Hwf) as Hst.
  split; [|split].
  - intros a. rewrite (wf_min_least _ _ _ Hwf), Hst. by setoid_rewrite Hst.
  - intros b. rewrite (wf_max_greatest _ _ _ Hwf), Hst. by setoid_rewrite Hst.
  - intros x Hx. rewrite (wf_valueRange _ _ Hwf) in Hx.
    destruct (veb_insert_spec _ _ x Hwf Hx) as (s & Hs & Hwfs & Hel).
    exists s. split; [done|]. split.
    + apply (wf_min_least _ _ _ Hwfs). destruct (min self) as [a|] eqn:Ea; simpl.
      * apply (wf_min_least _ _ _ Hwf) in Ea as [Ha Hleast]. split.
        -- apply Hel. destruct (Z.min_spec x a) as [[_ ->]|[_ ->]]; auto.
        -- intros y Hy. apply Hel in Hy as [Hy| ->]; [|lia].
           specialize (Hleast y Hy). lia.
      * split; [apply Hel; by right|]. intros y Hy.
        apply Hel in Hy as [Hy| ->]; [|lia]. by eapply min_None_empty in Hy.
    + apply (wf_max_greatest _ _ _ Hwfs).
      destruct (max self) as [b|] eqn:Eb; simpl.
      * apply (wf_max_greatest _ _ _ Hwf) in Eb as [Hb Hgreatest]. split.
        -- apply Hel. destruct (Z.max_spec x b) as [[_ ->]|[_ ->]]; auto.
        -- intros y Hy. apply Hel in Hy as [Hy| ->]; [|lia].
           specialize (Hgreatest y Hy). lia.
      * split; [apply Hel; by right|]. intros y Hy.
        apply Hel in Hy as [Hy| ->]; [|lia].
        destruct (elem_bounds _ _ _ Hwf Hy) as (? & ? & _ & ? & _). congruence.
Qed.

(** X4. Deleting the minimum promotes its successor and deleting the
    maximum promotes its predecessor: in every reachable state of a
    structure whose universe has at least 2 values, after [delete(min)] the
    attribute [min] is what [successor(min)] returned before, and after
    [delete(max)] the attribute [max] is what [predecessor(max)] returned
    before.  (The floating-point logarithm is as [log_ok] says.) *)
Theorem delete_promotes_neighbour R self :
  reachable R self → log_ok (ceil_log2 R) → 2 ≤ valueRange self →
  (∀ m, min self = Some m →
     ∃ self', veb_delete self m = Ok self' ∧
              veb_successor self m = Ok (min self')) ∧
  (∀ m, max self = Some m →
     ∃ self', veb_delete self m = Ok self' ∧
              veb_predecessor self m = Ok (max self')).
Proof.
  intros Hr Hlog HR. pose proof (reachable_wf _ _ Hr Hlog) as Hwf.
  assert (Hk : 1 ≤ ceil_log2 R) by exact (bits_pos _ _ Hwf HR).
  split.
  - intros m Em. pose proof (elem_min _ _ Em) as Hm.
    pose proof (elem_range _ _ _ Hwf Hm) as Hmr.
    apply (wf_min_least _ _ _ Hwf) in Em as [_ Hleast].
    destruct (veb_delete_spec _ _ m Hwf) as (s & Hs & Hwfs & Hel).
    destruct (veb_successor_spec _ _ m Hwf Hk Hmr) as (r & Hr1 & Hr2).
    exists s. split; [done|]. rewrite Hr1. f_equal.
    destruct r as [p|]; simpl in Hr2.
    + destruct Hr2 as (Hp & Hlt & Hmin). symmetry.
      apply (wf_min_least _ _ _ Hwfs). split; [apply Hel; split; [done|lia]|].
      intros y Hy. apply Hel in Hy as [Hy Hne]. apply Hmin; [done|].
      specialize (Hleast y Hy). lia.
    + destruct (min s) as [a|] eqn:Ea; [|done]. exfalso.
      apply elem_min, Hel in Ea as [Ha Hne].
      specialize (Hr2 a Ha). specialize (Hleast a Ha). lia.
  - intros m Em. pose proof (elem_max _ _ Em) as Hm.
    pose proof (elem_range _ _ _ Hwf Hm) as Hmr.
    apply (wf_max_greatest _ _ _ Hwf) in Em as [_ Hgreatest].
    destruct (veb_delete_spec _ _ m Hwf) as (s & Hs & Hwfs & Hel).
    destruct (veb_predecessor_spec _ _ m Hwf Hk Hmr) as (r & Hr1 & Hr2).
    exists s. split; [done|]. rewrite Hr1. f_equal.
    destruct r as [p|]; simpl in Hr2.
    + destruct Hr2 as (Hp & Hlt & Hmax). symmetry.
      apply (wf_max_greatest _ _ _ Hwfs). split; [apply Hel; split; [done|lia]|].
      intros y Hy. apply Hel in Hy as [Hy Hne]. apply Hmax; [done|].
      specialize (Hgreatest y Hy). lia.
    + destruct (max s) as [a|] eqn:Ea; [|done]. exfalso.
      apply elem_max, Hel in Ea as [Ha Hne].
      specialize (Hr2 a Ha). specialize (Hgreatest a Ha). lia.
Qed.

(** X5. Membership can be read off the neighbour queries: in every
    reachable state of a structure whose universe has at least 2 values, an
    in-range x >= 1 is stored exactly when [successor(x - 1)] returns x,
    and an in-range x below universeSize - 1 is stored exactly when
    [predecessor(x + 1)] returns x.  (The floating-point logarithm is as
    [log_ok] says.) *)
Theorem contains_by_neighbours R self x :
  reachable R self → log_ok (ceil_log2 R) → 2 ≤ valueRange self → 0 ≤ x < valueRange self →
  (1 ≤ x → (veb_contains self x = Ok true ↔
            veb_successor self (x - 1) = Ok (Some x))) ∧
  (x + 1 < valueRange self →
     (veb_contains self x = Ok true ↔
      veb_predecessor self (x + 1) = Ok (Some x))).
Proof.
  intros Hr Hlog HR Hx. pose proof (reachable_wf _ _ Hr Hlog) as Hwf.
  assert (Hk : 1 ≤ ceil_log2 R) by exact (bits_pos _ _ Hwf HR).
  rewrite (wf_valueRange _ _ Hwf) in *.
  fold (stored self x). rewrite (stored_elem _ _ _ Hwf). split.
  - intros Hx1.
    destruct (veb_successor_spec _ _ (x - 1) Hwf Hk) as (r & -> & Hr2); [lia|].
    split.
    + intros Hel. do 2 f_equal. destruct r as [p|]; simpl in Hr2.
      * destruct Hr2 as (Hp & Hlt & Hmin). specialize (Hmin x Hel). f_equal. lia.
      * specialize (Hr2 x Hel). lia.
    + intros [= ->]. simpl in Hr2. tauto.
  - intros Hx1.
    destruct (veb_predecessor_spec _ _ (x + 1) Hwf Hk) as (r & -> & Hr2); [lia|].
    split.
    + intros Hel. do 2 f_equal. destruct r as [p|]; simpl in Hr2.
      * destruct Hr2 as (Hp & Hlt & Hmax). specialize (Hmax x Hel). f_equal. lia.
      * specialize (Hr2 x Hel). lia.
    + intros [= ->]. simpl in Hr2. tauto.
Qed.

(** ** Enumeration and the other operations *)

Lemma sorted_filter (P : Z → Prop) `{!∀ x, Decision (P x)} (l : list Z) :
  StronglySorted Z.lt l → StronglySorted Z.lt (filter P l).
Proof.
  induction 1 as [|a l _ IH Hall]; [constructor|].
  rewrite filter_cons. destruct (decide (P a)); [|done].
  constructor; [done|]. rewrite Forall_forall in Hall.
  apply Forall_forall. intros y [_ Hy]%list_elem_of_filter. auto.
Qed.

Lemma sorted_lookup_lt (l : list Z) :
  StronglySorted Z.lt l →
  ∀ i j a b, l !! i = Some a → l !! j = Some b → (i < j)%nat → a < b.
Proof.
  induction 1 as [|c l _ IH Hall]; intros i j a b Hi Hj Hij; [done|].
  destruct j as [|j]; [lia|]. simpl in Hj. destruct i as [|i].
  - injection Hi as ->. rewrite Forall_forall in Hall.
    apply Hall. by eapply list_elem_of_lookup_2.
  - simpl in Hi. apply (IH i j); [done..|lia].
Qed.

Lemma iter_unique k self l :
  wf k self → 1 ≤ k → iter self = Ok l →
  StronglySorted Z.lt l ∧ ∀ x, x ∈ l ↔ elem self x.
Proof.
  intros Hwf Hk Hl. destruct (iter_spec _ _ Hwf Hk) as (l' & Hl' & ? & ?).
  by assert (l' = l) as -> by congruence.
Qed.

(** X6. How enumeration follows the updates, for a structure whose
    universe has at least 2 values in a reachable state whose enumeration
    is l: after [insert(x)] of an in-range x not yet stored the enumeration
    is l with x put in at its place in the order, after [insert(x)] of a
    stored x it is l, and after [delete(x)] it is l without x.  (The
    floating-point logarithm is as [log_ok] says.) *)
Theorem iter_after_update R self x l :
  reachable R self → log_ok (ceil_log2 R) → 2 ≤ valueRange self → 0 ≤ x < valueRange self → iter self = Ok l →
  (∃ s, veb_insert self x = Ok s ∧
        iter s = Ok (if decide (x ∈ l) then l
                     else filter (λ y, y < x) l ++ x :: filter (λ y, x < y) l)) ∧
  (∃ s, veb_delete self x = Ok s ∧ iter s = Ok (filter (λ y, y ≠ x) l)).
Proof.
  intros Hr Hlog HR Hx Hl. pose proof (reachable_wf _ _ Hr Hlog) as Hwf.
  rewrite (wf_valueRange _ _ Hwf) in Hx.
  assert (Hk : 1 ≤ ceil_log2 R) by exact (bits_pos _ _ Hwf HR).
  destruct (iter_unique _ _ _ Hwf Hk Hl) as [Hsorted Hmem]. split.
  - destruct (veb_insert_spec _ _ x Hwf Hx) as (s & Hs & Hwfs & Hel).
    exists s. split; [done|].
    destruct (iter_spec _ _ Hwfs Hk) as (l' & -> & Hsorted' & Hmem').
    f_equal. apply sorted_unique; [done|..].
    + destruct (decide (x ∈ l)); [done|].
      apply StronglySorted_app_2; [| |constructor].
      * intros y z [Hy _]%list_elem_of_filter Hz.
        apply elem_of_cons in Hz as [->|[Hz _]%list_elem_of_filter]; lia.
      * by apply sorted_filter.
      * by apply sorted_filter.
      * apply Forall_forall. by intros y [Hy _]%list_elem_of_filter.
    + intros y. rewrite Hmem', Hel, <- Hmem.
      destruct (decide (x ∈ l)) as [Hin|Hnin].
      * split; [intros [?| ->]; done|tauto].
      * rewrite elem_of_app, elem_of_cons, !list_elem_of_filter.
        destruct (decide (y = x)) as [->|]; [tauto|].
        split; [intros [?|?]; [|done]|tauto].
        destruct (decide (y < x)); [tauto|]. right. right. split; [lia|done].
  - destruct (veb_delete_spec _ _ x Hwf) as (s & Hs & Hwfs & Hel).
    exists s. split; [done|].
    destruct (iter_spec _ _ Hwfs Hk) as (l' & -> & Hsorted' & Hmem').
    f_equal. apply sorted_unique; [done|by apply sorted_filter|].
    intros y. rewrite Hmem', Hel, <- Hmem, list_elem_of_filter. tauto.
Qed.

(** X7. The enumeration of a reachable state of a structure whose
    universe has at least 2 values starts at [min] and ends at [max], and
    neighbours in it are linked both ways: of two values yielded one after
    the other, [successor] of the first returns the second and
    [predecessor] of the second returns the first.  (The floating-point
    logarithm is as [log_ok] says.) *)
Theorem iter_links R self l :
  reachable R self → log_ok (ceil_log2 R) → 2 ≤ valueRange self → iter self = Ok l →
  head l = min self ∧ last l = max self ∧
  ∀ i a b, l !! i = Some a → l !! S i = Some b →
    veb_successor self a = Ok (Some b) ∧ veb_predecessor self b = Ok (Some a).
Proof.
  intros Hr Hlog HR Hl. pose proof (reachable_wf _ _ Hr Hlog) as Hwf.
  assert (Hk : 1 ≤ ceil_log2 R) by exact (bits_pos _ _ Hwf HR).
  destruct (iter_unique _ _ _ Hwf Hk Hl) as [Hsorted Hmem].
  pose proof (sorted_lookup_lt l Hsorted) as Hlt.
  split; [|split].
  - destruct l as [|a l']; simpl.
    + destruct (min self) as [m|] eqn:Em; [|done].
      apply elem_min, Hmem in Em. by apply not_elem_of_nil in Em.
    + symmetry. apply (wf_min_least _ _ _ Hwf). split.
      * apply Hmem. by left.
      * intros y Hy. apply Hmem in Hy.
        apply list_elem_of_lookup_1 in Hy as [j Hj]. destruct j as [|j].
        -- injection Hj as ->. lia.
        -- specialize (Hlt 0%nat (S j) a y eq_refl Hj). lia.
  - destruct (last l) as [b|] eqn:Eb.
    + symmetry. apply (wf_max_greatest _ _ _ Hwf).
      rewrite last_lookup in Eb. split.
      * apply Hmem. by eapply list_elem_of_lookup_2.
      * intros y Hy. apply Hmem in Hy.
        apply list_elem_of_lookup_1 in Hy as [j Hj].
        pose proof (lookup_lt_Some _ _ _ Hj) as Hjl.
        destruct (decide (j = Nat.pred (length l))) as [->|Hne].
        -- assert (y = b) by congruence. lia.
        -- assert (j < Nat.pred (length l))%nat as Hj' by lia.
           specialize (Hlt _ _ _ _ Hj Eb Hj'). lia.
    + apply last_None in Eb as ->.
      destruct (max self) as [m|] eqn:Em; [|done].
      apply elem_max, Hmem in Em. by apply not_elem_of_nil in Em.
  - intros i a b Ha Hb.
    destruct (consecutive_spec R self Hr Hlog HR) as (Hc & _ & _).
    pose proof (λ y, stored_elem _ self y Hwf) as Hst.
    apply Hc.
    + apply Hst, Hmem. by eapply list_elem_of_lookup_2.
    + apply Hst, Hmem. by eapply list_elem_of_lookup_2.
    + apply (Hlt i (S i)); [done..|lia].
    + intros y Hy Hab. apply Hst, Hmem in Hy.
      apply list_elem_of_lookup_1 in Hy as [j Hj].
      destruct (decide (j < i)%nat) as [Hji|Hji].
      { specialize (Hlt _ _ _ _ Hj Ha Hji). lia. }
      destruct (decide (j = i)) as [->|Hne].
      { assert (y = a) by congruence. lia. }
      destruct (decide (j = S i)) as [->|Hne'].
      { assert (y = b) by congruence. lia. }
      assert (S i < j)%nat as Hij by lia.
      specialize (Hlt _ _ _ _ Hb Hj Hij). lia.
Qed.

(** ** The depth of the recursion *)

(** A step that compares two runs of the same code at two depth budgets:
    both have arrived at the same [match], [if] or call. *)
Ltac same_step :=
  match goal with
  | |- ?r = ?r => reflexivity
  | |- (match ?d with _ => _ end) = (match ?d with _ => _ end) =>
      destruct d eqn:?
  | |- (if ?d then _ else _) = (if ?d then _ else _) => destruct d
  | |- mbind _ ?m = mbind _ ?m => destruct m eqn:?
  | |- result_bind _ _ _ ?m = result_bind _ _ _ ?m => destruct m eqn:?
  end.

Lemma contains_step f g self x :
  (∀ a c, inner self = Some a → cluster a !! clusterIndex a x = Some c →
          contains f c (valueIndex a x) = contains g c (valueIndex a x)) →
  contains (S f) self x = contains (S g) self x.
Proof.
  intros H. destruct self as [vr mn mx [a|]]; simpl in *;
    repeat (same_step; simpl); eauto.
Qed.

Lemma predecessor_summary_step pr pr' self a x :
  (∀ s, summary a = Some s →
        pr s (clusterIndex a x) = pr' s (clusterIndex a x)) →
  predecessor_summary pr self a x = predecessor_summary pr' self a x.
Proof.
  intros H. unfold predecessor_summary.
  destruct (summary a) as [s|]; [|done]. by rewrite (H s).
Qed.

Lemma predecessor_step f g self x :
  (∀ a c, inner self = Some a → cluster a !! clusterIndex a x = Some c →
          predecessor f c (valueIndex a x) = predecessor g c (valueIndex a x)) →
  (∀ a s, inner self = Some a → summary a = Some s →
          predecessor f s (clusterIndex a x)
          = predecessor g s (clusterIndex a x)) →
  predecessor (S f) self x = predecessor (S g) self x.
Proof.
  intros H1 H2. destruct self as [vr mn mx [a|]]; simpl in *;
    repeat (same_step; simpl); eauto;
    try (apply predecessor_summary_step; eauto).
  by erewrite H1.
Qed.

Lemma successor_summary_step sc sc' self a x :
  (∀ s, summary a = Some s →
        sc s (clusterIndex a x) = sc' s (clusterIndex a x)) →
  successor_summary sc self a x = successor_summary sc' self a x.
Proof.
  intros H. unfold successor_summary.
  destruct (summary a) as [s|]; [|done]. by rewrite (H s).
Qed.

Lemma successor_step f g self x :
  (∀ a c, inner self = Some a → cluster a !! clusterIndex a x = Some c →
          successor f c (valueIndex a x) = successor g c (valueIndex a x)) →
  (∀ a s, inner self = Some a → summary a = Some s →
          successor f s (clusterIndex a x) = successor g s (clusterIndex a x)) →
  successor (S f) self x = successor (S g) self x.
Proof.
  intros H1 H2. destruct self as [vr mn mx [a|]]; simpl in *;
    repeat (same_step; simpl); eauto;
    try (apply successor_summary_step; eauto).
  by erewrite H1.
Qed.

Lemma insert_cluster_step ins ins' self x :
  (∀ a s, inner self = Some a →
          summary a = Some s ∨ init (hsqrt a) = Ok s →
          ins s (clusterIndex a x) = ins' s (clusterIndex a x)) →
  (∀ a c, inner self = Some a →
          cluster a !! clusterIndex a x = Some c ∨ init (lsqrt a) = Ok c →
          ins c (valueIndex a x) = ins' c (valueIndex a x)) →
  insert_cluster ins self x = insert_cluster ins' self x.
Proof.
  intros H1 H2. unfold insert_cluster.
  destruct self as [vr mn mx [a|]]; [|done]. simpl in *.
  destruct (cluster a !! clusterIndex a x) as [c|] eqn:Ec.
  { by rewrite (H2 a c) by auto. }
  destruct (summary a) as [s|] eqn:Es; simpl.
  - rewrite (H1 a s) by auto. destruct (ins' s _); [|done]. simpl.
    destruct (init (lsqrt a)) as [c|] eqn:Ec'; [|done]. simpl.
    by rewrite (H2 a c) by auto.
  - destruct (init (hsqrt a)) as [s|] eqn:Es'; [|done]. simpl.
    rewrite (H1 a s) by auto. destruct (ins' s _); [|done]. simpl.
    destruct (init (lsqrt a)) as [c|] eqn:Ec'; [|done]. simpl.
    by rewrite (H2 a c) by auto.
Qed.

Lemma insert_step f g self x :
  (∀ self' y, inner self' = inner self →
              min self = Some y ∨ max self = Some y ∨ y = x →
              insert_cluster (insert f) self' y
              = insert_cluster (insert g) self' y) →
  insert (S f) self x = insert (S g) self x.
Proof.
  intros H. destruct self as [vr mn mx inn]; simpl in *.
  repeat (same_step; simpl); subst; apply H; auto.
Qed.

Lemma delete_cluster_step del del' self ci c xi :
  del c xi = del' c xi →
  (∀ a s, inner self = Some a → summary a = Some s → del s ci = del' s ci) →
  delete_cluster del self ci c xi = delete_cluster del' self ci c xi.
Proof.
  intros H1 H2. unfold delete_cluster.
  destruct self as [vr mn mx [a|]]; [|done]. simpl in *. rewrite H1.
  destruct (del' c xi) as [c'|]; [|done]. simpl.
  destruct (decide (min c' = None)); [|done].
  destruct (summary a) as [s|] eqn:Es; [|done]. by rewrite (H2 a s).
Qed.

Lemma delete_step f g self x :
  (∀ self' a ci c xi, inner self' = inner self → inner self = Some a →
     cluster a !! ci = Some c →
     delete_cluster (delete f) self' ci c xi
     = delete_cluster (delete g) self' ci c xi) →
  delete (S f) self x = delete (S g) self x.
Proof.
  intros H. destruct self as [vr mn mx [a|]]; simpl in *;
    repeat (same_step; simpl); subst; try done;
    unfold getitem in *; repeat case_match; simplify_eq; eapply H; eauto.
Qed.

(** At a budget beyond the bit width, a method returns what the call on the
    top-level structure returns. *)
Lemma contains_budget k self x fuel :
  wf k self → k < Z.of_nat fuel → contains fuel self x = veb_contains self x.
Proof.
  intros Hwf Hf. apply contains_mono.
  - pose proof (wf_depth _ _ Hwf). pose proof (wf_nonneg _ _ Hwf).
    unfold depth in *. rewrite (wf_valueRange _ _ Hwf), Z.log2_pow2 in * by lia.
    lia.
  - fold (veb_contains self x).
    by destruct (veb_contains_spec k self x Hwf) as (b & -> & _).
Qed.

Lemma predecessor_budget k self x fuel :
  wf k self → 1 ≤ k → 0 ≤ x < 2 ^ k → k < Z.of_nat fuel →
  predecessor fuel self x = veb_predecessor self x.
Proof.
  intros Hwf Hk Hx Hf. apply predecessor_mono.
  - pose proof (wf_depth _ _ Hwf). pose proof (wf_nonneg _ _ Hwf).
    unfold depth in *. rewrite (wf_valueRange _ _ Hwf), Z.log2_pow2 in * by lia.
    lia.
  - fold (veb_predecessor self x).
    by destruct (veb_predecessor_spec k self x Hwf Hk Hx) as (b & -> & _).
Qed.

Lemma successor_budget k self x fuel :
  wf k self → 1 ≤ k → 0 ≤ x < 2 ^ k → k < Z.of_nat fuel →
  successor fuel self x = veb_successor self x.
Proof.
  intros Hwf Hk Hx Hf. apply successor_mono.
  - pose proof (wf_depth _ _ Hwf). pose proof (wf_nonneg _ _ Hwf).
    unfold depth in *. rewrite (wf_valueRange _ _ Hwf), Z.log2_pow2 in * by lia.
    lia.
  - fold (veb_successor self x).
    by destruct (veb_successor_spec k self x Hwf Hk Hx) as (b & -> & _).
Qed.

Lemma insert_budget k self x fuel :
  wf k self → 0 ≤ x < 2 ^ k → k < Z.of_nat fuel →
  insert fuel self x = veb_insert self x.
Proof.
  intros Hwf Hx Hf. apply insert_mono.
  - pose proof (wf_depth _ _ Hwf). pose proof (wf_nonneg _ _ Hwf).
    unfold depth in *. rewrite (wf_valueRange _ _ Hwf), Z.log2_pow2 in * by lia.
    lia.
  - fold (veb_insert self x).
    by destruct (veb_insert_spec k self x Hwf Hx) as (b & -> & _).
Qed.

Lemma delete_budget k self x fuel :
  wf k self → k < Z.of_nat fuel → delete fuel self x = veb_delete self x.
Proof.
  intros Hwf Hf. apply delete_mono.
  - pose proof (wf_depth _ _ Hwf). pose proof (wf_nonneg _ _ Hwf).
    unfold depth in *. rewrite (wf_valueRange _ _ Hwf), Z.log2_pow2 in * by lia.
    lia.
  - fold (veb_delete self x).
    by destruct (veb_delete_spec k self x Hwf) as (b & -> & _).
Qed.

Lemma veb_unfold k self : wf k self → depth self = S (Z.to_nat k).
Proof.
  intros Hwf. pose proof (wf_nonneg _ _ Hwf). unfold depth.
  by rewrite (wf_valueRange _ _ Hwf), Z.log2_pow2 by lia.
Qed.

Lemma half_budget k n :
  2 ≤ k → log_ok k → k ≤ width_bound n →
  ∃ n', n = S n' ∧ summary_bits k ≤ width_bound n' ∧
        cluster_bits k ≤ width_bound n'.
Proof.
  intros Hk Hlog Hn.
  assert (1 ≤ k / 2 < k ∧ 1 ≤ (k + 1) / 2 < k ∧ k / 2 ≤ (k + 1) / 2 ∧
          2 * ((k + 1) / 2) ≤ k + 1)
    as (Hc & Hs & Hcs & Hs2) by (Z.div_mod_to_equations; lia).
  destruct (Hlog _ Hc) as [Hc1 Hc2]. destruct (Hlog _ Hs) as [Hs1 Hs3].
  fold (cluster_bits k) in Hc1, Hc2. fold (summary_bits k) in Hs1, Hs3.
  destruct n as [|[|[|m]]].
  - simpl in Hn. lia.
  - exists 0%nat. simpl in *. split; [done|]. rewrite Hc2, Hs3 by lia. lia.
  - exists 1%nat. simpl in *. split; [done|]. rewrite Hc2, Hs3 by lia. lia.
  - exists (S (S m)). split; [done|]. unfold width_bound in *.
    rewrite (Nat2Z.inj_succ (S m)), Z.pow_succ_r in Hn by lia.
    generalize dependent (2 ^ Z.of_nat (S m)). intros P HP. lia.
Qed.

Lemma contains_depth n : ∀ k self x,
  wf k self → k ≤ width_bound n →
  contains (S n) self x = veb_contains self x.
Proof.
  induction n as [n IH] using lt_wf_ind. intros k self x Hwf Hn.
  unfold veb_contains. rewrite (veb_unfold _ _ Hwf).
  apply contains_step. intros a c Ea Ec.
  destruct self as [vr mn mx inn]. simpl in Ea. subst inn.
  destruct (wf_node_inv _ _ _ _ _ Hwf)
    as (_ & Hk & _ & _ & Hch & _ & _ & _ & Hlog & _).
  destruct (Hch _ _ Ec) as [Hwfc _].
  destruct (half_budget k n Hk Hlog Hn) as (n' & -> & _ & Hn').
  pose proof (child_bits k Hk Hlog) as (Hcb & Hsb & Hcp & Hsp & _).
  rewrite (IH n' (Nat.lt_succ_diag_r _) _ _ _ Hwfc Hn').
  symmetry. apply (contains_budget _ _ _ _ Hwfc). lia.
Qed.

Lemma predecessor_depth n : ∀ k self x,
  wf k self → 1 ≤ k → 0 ≤ x < 2 ^ k → k ≤ width_bound n →
  predecessor (S n) self x = veb_predecessor self x.
Proof.
  induction n as [n IH] using lt_wf_ind. intros k self x Hwf Hk1 Hx Hn.
  unfold veb_predecessor. rewrite (veb_unfold _ _ Hwf).
  destruct self as [vr mn mx inn].
  apply predecessor_step; intros a s Ea Es; simpl in Ea; subst inn;
    destruct (wf_node_inv _ _ _ _ _ Hwf)
      as (_ & Hk & _ & Ha & Hch & _ & Hs & _ & Hlog & _);
    destruct (half_budget k n Hk Hlog Hn) as (n' & -> & Hn1 & Hn2);
    pose proof (child_bits k Hk Hlog) as (Hcb & Hsb & Hcp & Hsp & _);
    pose proof (valueIndex_range k Hk _ a Ha x);
    pose proof (clusterIndex_range k Hk _ a Ha x Hx).
  - destruct (Hch _ _ Es) as [Hwfc _].
    rewrite (IH n' (Nat.lt_succ_diag_r _) (cluster_bits k)) by (done || lia).
    symmetry. apply (predecessor_budget (cluster_bits k)); (done || lia).
  - destruct (Hs _ Es) as [Hwfs _].
    rewrite (IH n' (Nat.lt_succ_diag_r _) (summary_bits k)) by (done || lia).
    symmetry. apply (predecessor_budget (summary_bits k)); (done || lia).
Qed.

Lemma successor_depth n : ∀ k self x,
  wf k self → 1 ≤ k → 0 ≤ x < 2 ^ k → k ≤ width_bound n →
  successor (S n) self x = veb_successor self x.
Proof.
  induction n as [n IH] using lt_wf_ind. intros k self x Hwf Hk1 Hx Hn.
  unfold veb_successor. rewrite (veb_unfold _ _ Hwf).
  destruct self as [vr mn mx inn].
  apply successor_step; intros a s Ea Es; simpl in Ea; subst inn;
    destruct (wf_node_inv _ _ _ _ _ Hwf)
      as (_ & Hk & _ & Ha & Hch & _ & Hs & _ & Hlog & _);
    destruct (half_budget k n Hk Hlog Hn) as (n' & -> & Hn1 & Hn2);
    pose proof (child_bits k Hk Hlog) as (Hcb & Hsb & Hcp & Hsp & _);
    pose proof (valueIndex_range k Hk _ a Ha x);
    pose proof (clusterIndex_range k Hk _ a Ha x Hx).
  - destruct (Hch _ _ Es) as [Hwfc _].
    rewrite (IH n' (Nat.lt_succ_diag_r _) (cluster_bits k)) by (done || lia).
    symmetry. apply (successor_budget (cluster_bits k)); (done || lia).
  - destruct (Hs _ Es) as [Hwfs _].
    rewrite (IH n' (Nat.lt_succ_diag_r _) (summary_bits k)) by (done || lia).
    symmetry. apply (successor_budget (summary_bits k)); (done || lia).
Qed.

Lemma insert_depth n : ∀ k self x,
  wf k self → 0 ≤ x < 2 ^ k → k ≤ width_bound n →
  insert (S n) self x = veb_insert self x.
Proof.
  induction n as [n IH] using lt_wf_ind. intros k self x Hwf Hx Hn.
  unfold veb_insert. rewrite (veb_unfold _ _ Hwf).
  pose proof (wf_bounds _ _ Hwf) as Hbd.
  destruct self as [vr mn mx inn].
  apply insert_step. intros self' y Hinn Hy. destruct self' as [vr' mn' mx' inn'].
  simpl in Hinn, Hy, Hbd. subst inn'.
  assert (Hyr : 0 ≤ y < 2 ^ k).
  { destruct Hy as [Hy|[Hy|Hy]]; subst; [destruct mx|destruct mn|];
      simpl in Hbd; try done; lia. }
  apply insert_cluster_step; intros a s Ea Es; simpl in Ea; subst inn;
    destruct (wf_node_inv _ _ _ _ _ Hwf)
      as (_ & Hk & _ & Ha & Hch & _ & Hs & _ & Hlog & _);
    destruct (half_budget k n Hk Hlog Hn) as (n' & -> & Hn1 & Hn2);
    pose proof (child_bits k Hk Hlog) as (Hcb & Hsb & Hcp & Hsp & Hcl & Hsl);
    pose proof (valueIndex_range k Hk _ a Ha y);
    pose proof (clusterIndex_range k Hk _ a Ha y Hyr).
  - assert (wf (summary_bits k) s) as Hwfs.
    { destruct Es as [Es|Es]; [by apply Hs|].
      destruct Ha as (_ & _ & Hh & _). rewrite Hh, init_summary in Es by done.
      injection Es as <-. apply wf_fresh; (done || lia). }
    rewrite (IH n' (Nat.lt_succ_diag_r _) (summary_bits k)) by (done || lia).
    symmetry. apply (insert_budget (summary_bits k)); (done || lia).
  - assert (wf (cluster_bits k) s) as Hwfc.
    { destruct Es as [Es|Es]; [by eapply Hch|].
      destruct Ha as (_ & Hl & _). rewrite Hl, init_cluster in Es by done.
      injection Es as <-. apply wf_fresh; (done || lia). }
    rewrite (IH n' (Nat.lt_succ_diag_r _) (cluster_bits k)) by (done || lia).
    symmetry. apply (insert_budget (cluster_bits k)); (done || lia).
Qed.

Lemma delete_depth n : ∀ k self x,
  wf k self → k ≤ width_bound n →
  delete (S n) self x = veb_delete self x.
Proof.
  induction n as [n IH] using lt_wf_ind. intros k self x Hwf Hn.
  unfold veb_delete. rewrite (veb_unfold _ _ Hwf).
  destruct self as [vr mn mx inn].
  apply delete_step. intros self' a ci c xi Hinn Ea Ec.
  destruct self' as [vr' mn' mx' inn']. simpl in Hinn, Ea. subst inn' inn.
  destruct (wf_node_inv _ _ _ _ _ Hwf)
    as (_ & Hk & _ & Ha & Hch & _ & Hs & _ & Hlog & _).
  destruct (half_budget k n Hk Hlog Hn) as (n' & -> & Hn1 & Hn2).
  pose proof (child_bits k Hk Hlog) as (Hcb & Hsb & Hcp & Hsp & _).
  apply delete_cluster_step.
  - destruct (Hch _ _ Ec) as [Hwfc _].
    rewrite (IH n' (Nat.lt_succ_diag_r _) (cluster_bits k)) by (done || lia).
    symmetry. apply (delete_budget (cluster_bits k)); (done || lia).
  - intros a' s [= <-] Es. destruct (Hs _ Es) as [Hwfs _].
    rewrite (IH n' (Nat.lt_succ_diag_r _) (summary_bits k)) by (done || lia).
    symmetry. apply (delete_budget (summary_bits k)); (done || lia).
Qed.


(** ** The universes of the nodes *)

Lemma child_wf_lt k self c :
  wf k self → child c self → ∃ k', 1 ≤ k' < k ∧ wf k' c.
Proof.
  intros Hwf Hc.
  inversion Hc as [self0 a' s Ea Es|self0 a' i c0 Ea Ec]; subst;
    destruct Hwf as [k mn mx Hk Hbd|k mn mx a Hk Hbd Ha Hch Hin Hs Hs0 Hlog Hval];
    simpl in *; simplify_eq;
    pose proof (child_bits k Hk Hlog) as (Hcb & Hsb & _).
  - exists (summary_bits k). split; [lia|]. by apply Hs.
  - exists (cluster_bits k). split; [lia|]. by eapply Hch.
Qed.

Lemma node_of_wf_le k self n :
  wf k self → node_of self n → ∃ k', 0 ≤ k' ≤ k ∧ wf k' n.
Proof.
  intros Hwf. induction 1 as [|n c _ (k' & Hk' & IH) Hc].
  - exists k. split; [|done]. pose proof (wf_nonneg _ _ Hwf). lia.
  - destruct (child_wf_lt _ _ _ IH Hc) as (k'' & ? & ?).
    exists k''. split; [lia|done].
Qed.

(** X9. Every node of a reachable state (the structure, its summaries and
    its clusters, recursively) keeps the attributes its constructor
    computed, provided the logarithm of [__init__] is at most one too high
    on the powers of two below universeSize and right up to 4.  The
    universe of the node is a power of two no larger than that of the
    structure; the node has the cluster attributes exactly when its
    universe exceeds 2, and then lsqrt = 1 << lsbSize, lsbMask = lsqrt - 1,
    lsqrt * hsqrt is the universe with lsqrt <= hsqrt <= 2 * lsqrt.  The
    summary is the node that [VanEmdeBoasTree(hsqrt)] makes: its universe
    is 1 << ceil(log(hsqrt, 2)), which is hsqrt or twice hsqrt.  Every
    cluster is stored under a key in [0, hsqrt), is the node that
    [VanEmdeBoasTree(lsqrt)] makes, with a universe of lsqrt or twice
    lsqrt, and stores values of [0, lsqrt) only. *)
Theorem node_universes R self n :
  reachable R self → log_ok (ceil_log2 R) → node_of self n →
  ∃ k, 0 ≤ k ≤ ceil_log2 R ∧ valueRange n = 1 ≪ k ∧
    (inner n = None ↔ valueRange n ≤ 2) ∧
    ∀ a, inner n = Some a →
      2 * lsbSize a ≤ k ≤ 2 * lsbSize a + 1 ∧
      lsqrt a = 1 ≪ lsbSize a ∧ lsbMask a = lsqrt a - 1 ∧
      lsqrt a * hsqrt a = valueRange n ∧
      2 ≤ lsqrt a ≤ hsqrt a ∧ hsqrt a ≤ 2 * lsqrt a ∧
      (∀ s, summary a = Some s →
            valueRange s = 1 ≪ ceil_log2 (hsqrt a) ∧
            hsqrt a ≤ valueRange s ≤ 2 * hsqrt a) ∧
      (∀ i c, cluster a !! i = Some c →
              0 ≤ i < hsqrt a ∧
              valueRange c = 1 ≪ ceil_log2 (lsqrt a) ∧
              lsqrt a ≤ valueRange c ≤ 2 * lsqrt a ∧
              ∀ j, stored c j → 0 ≤ j < lsqrt a).
Proof.
  intros Hr Hlog0 Hn. pose proof (reachable_wf _ _ Hr Hlog0) as Hwf0.
  destruct (node_of_wf_le _ _ _ Hwf0 Hn) as (k & Hk & Hwf).
  exists k. split; [done|]. rewrite Z.shiftl_1_l.
  split; [by apply wf_valueRange|].
  pose proof Hwf as Hwfn.
  destruct Hwf as [k mn mx Hk1 Hbd|k mn mx a Hk2 Hbd Ha Hch Hin Hs Hs0 Hlog Hval];
    simpl.
  - split; [|done]. split; [|done]. intros _.
    change 2 with (2 ^ 1) at 2. apply Z.pow_le_mono_r; lia.
  - pose proof (half_bits k Hk2) as (Hh1 & Hh2 & Hh3 & Hh4 & Hh5).
    pose proof (L_pos k Hk2) as HL.
    pose proof (universe_split k Hk2) as Hsplit.
    assert (2 ^ 2 ≤ 2 ^ k) by (apply Z.pow_le_mono_r; lia).
    split; [split; [done|lia]|].
    intros a' [= <-]. destruct Ha as (Hl & Hlq & Hhq & Hm).
    rewrite Hl, Hlq, Hhq, Hm, !Z.shiftl_1_l.
    fold (cluster_bits k). fold (summary_bits k).
    assert (k / 2 ≤ (k + 1) / 2 ≤ k / 2 + 1 ∧ 2 * (k / 2) ≤ k ≤ 2 * (k / 2) + 1)
      as (Hhalf & Hdouble) by (Z.div_mod_to_equations; lia).
    assert (2 ^ (k / 2) ≤ 2 ^ ((k + 1) / 2)) by (apply Z.pow_le_mono_r; lia).
    assert (2 ^ ((k + 1) / 2) ≤ 2 * 2 ^ (k / 2)).
    { rewrite <- Z.pow_succ_r by lia. apply Z.pow_le_mono_r; lia. }
    destruct (Hlog (k / 2)) as [Hc1 _]; [lia|].
    destruct (Hlog ((k + 1) / 2)) as [Hs1 _]; [lia|].
    fold (cluster_bits k) in Hc1. fold (summary_bits k) in Hs1.
    assert (2 ^ (k / 2) ≤ 2 ^ cluster_bits k ≤ 2 * 2 ^ (k / 2)).
    { rewrite <- Z.pow_succ_r by lia. split; apply Z.pow_le_mono_r; lia. }
    assert (2 ^ ((k + 1) / 2) ≤ 2 ^ summary_bits k ≤ 2 * 2 ^ ((k + 1) / 2)).
    { rewrite <- Z.pow_succ_r by lia. split; apply Z.pow_le_mono_r; lia. }
    split; [done|]. split; [done|]. split; [done|]. split; [lia|].
    split; [lia|]. split; [done|]. split.
    + intros s Es. destruct (Hs s Es) as (Hwfs & _).
      by rewrite (wf_valueRange _ _ Hwfs).
    + intros i c Ec. destruct (Hch i c Ec) as (Hwfc & _).
      rewrite (wf_valueRange _ _ Hwfc).
      split; [by apply (cluster_keys _ _ _ _ _ _ _ Hwfn Ec)|].
      split; [done|]. split; [done|]. intros j Hj.
      apply (stored_elem _ _ _ Hwfc) in Hj.
      by apply (wf_cluster_range _ _ _ _ _ _ _ _ Hwfn Ec).
Qed.

(** X10. Splitting a value and putting it together again, with the
    attributes lsbSize, lsbMask, lsqrt and hsqrt that a node really has: on
    every node of a reachable state that has the cluster attributes
    (whatever universes its children have; the floating-point logarithm is
    as [log_ok] says), for every integer x,
    [value(clusterIndex(x), valueIndex(x))] is x and [valueIndex(x)] lies
    in [0, lsqrt); x lies in the universe of the node exactly when
    [clusterIndex(x)] lies in [0, hsqrt); for every i and every j in
    [0, lsqrt), [value(i, j)] has cluster index i and value index j; and
    the order of the values is the order of the pairs. *)
Theorem split_round_trip R self n a :
  reachable R self → log_ok (ceil_log2 R) → node_of self n → inner n = Some a →
  (∀ x, value a (clusterIndex a x) (Some (valueIndex a x)) = Ok x ∧
        0 ≤ valueIndex a x < lsqrt a ∧
        (0 ≤ x < valueRange n ↔ 0 ≤ clusterIndex a x < hsqrt a)) ∧
  (∀ i j, 0 ≤ j < lsqrt a →
     ∃ v, value a i (Some j) = Ok v ∧
          clusterIndex a v = i ∧ valueIndex a v = j) ∧
  (∀ x y, x < y ↔ clusterIndex a x < clusterIndex a y ∨
                  (clusterIndex a x = clusterIndex a y ∧
                   valueIndex a x < valueIndex a y)).
Proof.
  intros Hr Hlog0 Hn Ea. pose proof (reachable_wf _ _ Hr Hlog0) as Hwf0.
  destruct (node_of_wf_le _ _ _ Hwf0 Hn) as (k & _ & Hwf).
  destruct Hwf as [k mn mx Hk1 Hbd|k mn mx a' Hk Hbd Ha Hch Hin Hs Hs0 Hlog Hval];
    simpl in Ea; [done|]. injection Ea as ->. cbn [valueRange].
  pose proof (half_bits k Hk) as (Hh1 & Hh2 & Hh3 & Hh4 & Hh5).
  pose proof (child_bits k Hk Hlog) as (Hcb & Hsb & Hcp & Hsp & Hcl & Hsl).
  pose proof (L_pos k Hk) as HL.
  pose proof (universe_split k Hk) as Hsplit.
  pose proof Ha as (Hl & Hlq & Hhq & Hm). rewrite Hlq, Hhq.
  split; [|split].
  - intros x. pose proof (split_value k Hk _ a Ha x) as Hx.
    pose proof (valueIndex_range k Hk _ a Ha x) as Hvi.
    rewrite (value_mul k Hk _ a Ha). split; [by rewrite <- Hx|].
    split; [done|]. rewrite Hsplit. split; [nia|]. intros Hci.
    rewrite Hx. nia.
  - intros i j Hj. exists (i * 2 ^ (k / 2) + j).
    split; [apply (value_mul k Hk _ a Ha)|].
    split; [by apply (clusterIndex_value k Hk _ a Ha)|
            by apply (valueIndex_value k Hk _ a Ha)].
  - intros x y.
    pose proof (valueIndex_range k Hk _ a Ha x) as Hvx.
    pose proof (valueIndex_range k Hk _ a Ha y) as Hvy.
    rewrite (split_value k Hk _ a Ha x) at 1.
    rewrite (split_value k Hk _ a Ha y) at 1.
    by apply split_lt.
Qed.

(** ** The printed form *)

Lemma string_app_nil (s : string) : "" +:+ s = s.
Proof. reflexivity. Qed.

Lemma string_app_cons c (s t : string) : String c s +:+ t = String c (s +:+ t).
Proof. reflexivity. Qed.

Lemma string_app_assoc (s1 s2 s3 : string) :
  (s1 +:+ s2) +:+ s3 = s1 +:+ (s2 +:+ s3).
Proof.
  induction s1 as [|c s1 IH]; [done|]. rewrite !string_app_cons. by rewrite IH.
Qed.

Lemma numeral_app s1 s2 : numeral s1 → numeral s2 → numeral (s1 +:+ s2).
Proof.
  induction s1 as [|c s1 IH]; [done|]. rewrite string_app_cons. simpl.
  intros [? ?]%andb_True ?. apply andb_True. auto.
Qed.

Lemma pretty_N_char_numeral x : numeral_char (pretty_N_char x).
Proof. unfold pretty_N_char. by repeat case_match. Qed.

Lemma pretty_N_go_numeral x : ∀ s, numeral s → numeral (pretty_N_go x s).
Proof.
  induction (N.lt_wf_0 x) as [x _ IH]; intros s Hs.
  assert (x = 0 ∨ 0 < x)%N as [->|?] by lia.
  - by rewrite pretty_N_go_0.
  - rewrite pretty_N_go_step by done. apply IH; [by apply N.div_lt|].
    simpl. apply andb_True. split; [apply pretty_N_char_numeral|done].
Qed.

Lemma pretty_N_numeral (x : N) : numeral (pretty x).
Proof.
  unfold pretty, pretty_N. destruct (decide (x = 0%N)); [done|].
  by apply pretty_N_go_numeral.
Qed.

Lemma pretty_Z_numeral (x : Z) : numeral (pretty x).
Proof.
  unfold pretty, pretty_Z. destruct x as [|p|p]; [done|..].
  - apply pretty_N_numeral.
  - apply numeral_app; [done|apply pretty_N_numeral].
Qed.

Lemma pretty_N_go_nonempty x : ∀ s,
  s ≠ EmptyString → pretty_N_go x s ≠ EmptyString.
Proof.
  induction (N.lt_wf_0 x) as [x _ IH]; intros s Hs.
  assert (x = 0 ∨ 0 < x)%N as [->|?] by lia.
  - by rewrite pretty_N_go_0.
  - rewrite pretty_N_go_step by done. apply IH; [by apply N.div_lt|done].
Qed.

Lemma pretty_Z_nonempty (x : Z) : pretty x ≠ EmptyString.
Proof.
  unfold pretty, pretty_Z. destruct x as [|p|p]; [done| |done].
  unfold pretty, pretty_positive, pretty, pretty_N.
  destruct (decide (N.pos p = 0%N)); [done|].
  rewrite pretty_N_go_step by lia. by apply pretty_N_go_nonempty.
Qed.

(** A numeral starts with a character of numerals, so no text that starts
    with another character starts with a numeral. *)
Lemma pretty_Z_head (x : Z) c s (t : string) :
  ¬ numeral_char c → pretty x +:+ t ≠ String c s.
Proof.
  intros Hc E. pose proof (pretty_Z_numeral x) as Hn.
  pose proof (pretty_Z_nonempty x) as Hne.
  destruct (pretty x) as [|d u]; [done|]. rewrite string_app_cons in E.
  injection E as -> _. simpl in Hn. apply andb_True in Hn as [? _]. done.
Qed.

(** Two numerals, each followed by a character that no numeral contains,
    are equal when the two texts are. *)
Lemma numeral_prefix u1 : ∀ u2 c1 s1 c2 s2,
  numeral u1 → numeral u2 → ¬ numeral_char c1 → ¬ numeral_char c2 →
  u1 +:+ String c1 s1 = u2 +:+ String c2 s2 →
  u1 = u2 ∧ c1 = c2 ∧ s1 = s2.
Proof.
  induction u1 as [|d1 u1 IH]; intros [|d2 u2] c1 s1 c2 s2 H1 H2 Hc1 Hc2 E;
    rewrite ?string_app_cons, ?string_app_nil in E; simpl in H1, H2.
  - by injection E as -> ->.
  - injection E as -> _. apply andb_True in H2 as [? _]. done.
  - injection E as -> _. apply andb_True in H1 as [? _]. done.
  - injection E as -> E. apply andb_True in H1 as [_ H1].
    apply andb_True in H2 as [_ H2].
    destruct (IH _ _ _ _ _ H1 H2 Hc1 Hc2 E) as (-> & -> & ->). done.
Qed.

Lemma pretty_prefix (v1 v2 : Z) c1 s1 c2 s2 :
  ¬ numeral_char c1 → ¬ numeral_char c2 →
  pretty v1 +:+ String c1 s1 = pretty v2 +:+ String c2 s2 →
  v1 = v2 ∧ c1 = c2 ∧ s1 = s2.
Proof.
  intros Hc1 Hc2 E.
  apply numeral_prefix in E as (E & -> & ->);
    [|apply pretty_Z_numeral|apply pretty_Z_numeral|done|done].
  by apply (inj pretty) in E as ->.
Qed.

(** The elements of a tuple of at least two, as [tuple_str] prints them. *)
Lemma concat_cons2 (sep x y : string) (l : list string) :
  String.concat sep (x :: y :: l) = x +:+ sep +:+ String.concat sep (y :: l).
Proof. reflexivity. Qed.

Lemma concat_inj (l1 : list Z) : ∀ l2 : list Z,
  l1 ≠ [] → l2 ≠ [] →
  String.concat ", " (pretty <$> l1) +:+ ")"
  = String.concat ", " (pretty <$> l2) +:+ ")" →
  l1 = l2.
Proof.
  induction l1 as [|v1 l1 IH]; intros l2 Hne1 Hne2 E; [done|].
  destruct l2 as [|v2 l2]; [done|].
  destruct l1 as [|w1 l1], l2 as [|w2 l2]; rewrite ?fmap_cons, ?fmap_nil in E;
    rewrite ?concat_cons2, ?string_app_assoc in E;
    change (String.concat ", " [pretty v1]) with (pretty v1) in E;
    change (String.concat ", " [pretty v2]) with (pretty v2) in E;
    rewrite ?string_app_cons, ?string_app_nil in E;
    apply pretty_prefix in E as (-> & Ec & E); try (by vm_compute); try done.
  injection E as E. f_equal. apply IH; [done|done|].
  by rewrite !fmap_cons.
Qed.

Lemma tuple_str_inj : Inj (=) (=) tuple_str.
Proof.
  intros l1 l2 E. unfold tuple_str in E.
  destruct l1 as [|v1 [|w1 l1]], l2 as [|v2 [|w2 l2]]; try done;
    rewrite ?fmap_cons, ?fmap_nil in E;
    rewrite ?concat_cons2, ?string_app_assoc in E;
    rewrite ?string_app_cons, ?string_app_nil in E;
    injection E as E;
    try (exfalso; eapply pretty_Z_head; [|exact E]; by vm_compute);
    try (exfalso; eapply pretty_Z_head; [|symmetry; exact E]; by vm_compute);
    apply pretty_prefix in E as (-> & Ec & E); try (by vm_compute); try done.
  injection E as E. f_equal. apply concat_inj; [done|done|].
  by rewrite !fmap_cons.
Qed.

(** X11. The printed form of a structure of at least two values whose
    universe does not exceed 10^4300, so that every value in it has at most
    4300 decimal digits and Python prints it (the logarithm of [__init__]
    being at most one too high on the powers of two below universeSize and
    right up to 4): in every reachable state [str] and [repr] return the
    stored values in ascending order, printed as a tuple; the text is [()]
    exactly when nothing is stored, a single stored value v is printed with
    a trailing comma, [(v,)]; and two reachable states of structures of the
    same range that print the same are the same state. *)
Theorem str_identifies_state R t1 t2 :
  reachable R t1 → reachable R t2 → log_ok (ceil_log2 R) →
  2 ≤ valueRange t1 → valueRange t1 ≤ 10 ^ max_str_digits →
  (∃ l, iter t1 = Ok l ∧ StronglySorted Z.lt l ∧ (∀ x, x ∈ l ↔ stored t1 x) ∧
        str t1 = Ok (tuple_str l) ∧ repr t1 = Ok (tuple_str l)) ∧
  (str t1 = Ok "()" ↔ ∀ x, ¬ stored t1 x) ∧
  (∀ v, (∀ x, stored t1 x ↔ x = v) → str t1 = Ok ("(" +:+ pretty v +:+ ",)")) ∧
  (str t1 = str t2 → t1 = t2).
Proof.
  intros Hr1 Hr2 Hlog HR Hdigits.
  pose proof (reachable_wf _ _ Hr1 Hlog) as Hwf1.
  pose proof (reachable_wf _ _ Hr2 Hlog) as Hwf2.
  assert (Hk : 1 ≤ ceil_log2 R) by exact (bits_pos _ _ Hwf1 HR).
  rewrite (wf_valueRange _ _ Hwf1) in Hdigits.
  pose proof (λ y, stored_elem _ t1 y Hwf1) as Hst.
  destruct (iter_spec _ _ Hwf1 Hk) as (l1 & Hl1 & Hsorted1 & Hmem1).
  destruct (iter_spec _ _ Hwf2 Hk) as (l2 & Hl2 & Hsorted2 & Hmem2).
  assert (Hp1 : Forall printable l1).
  { apply Forall_forall. intros x Hx%Hmem1.
    pose proof (elem_range _ _ _ Hwf1 Hx). unfold printable. lia. }
  assert (Hp2 : Forall printable l2).
  { apply Forall_forall. intros x Hx%Hmem2.
    pose proof (elem_range _ _ _ Hwf2 Hx). unfold printable. lia. }
  unfold repr, str. rewrite Hl1, Hl2. simpl.
  rewrite !decide_True by done.
  split; [|split; [|split]].
  - exists l1. repeat split; try done.
    + intros Hx. by apply Hst, Hmem1.
    + intros Hx. by apply Hmem1, Hst.
  - split.
    + intros [= E]. apply (tuple_str_inj l1 []) in E as ->.
      intros x Hx%Hst%Hmem1. by apply not_elem_of_nil in Hx.
    + intros Hempty. destruct l1 as [|a l1]; [done|].
      destruct (Hempty a). apply Hst, Hmem1. by left.
  - intros v Hv. assert (l1 = [v]) as ->; [|done].
    apply sorted_unique; [done|repeat constructor|].
    intros x. by rewrite Hmem1, <- Hst, Hv, list_elem_of_singleton.
  - intros [= E]. apply tuple_str_inj in E as ->.
    apply (reachable_canonical R); [done..|].
    intros x. by rewrite <- Hmem1, <- Hmem2.
Qed.

(** ** One update *)

(** X12. What one update does to a reachable state, for an in-range x:
    [insert(x)] returns, the new state is reachable, has the same universe
    and stores x besides what was stored; [delete(x)] returns, the new
    state is reachable, has the same universe and stores what was stored
    except x.  (The floating-point logarithm is as [log_ok] says.) *)
Theorem update_membership R self x :
  reachable R self → log_ok (ceil_log2 R) → 0 ≤ x < valueRange self →
  (∃ s, veb_insert self x = Ok s ∧ reachable R s ∧
        valueRange s = valueRange self ∧
        ∀ y, ∃ b, veb_contains s y = Ok b ∧
                  (b = true ↔ stored self y ∨ y = x)) ∧
  (∃ s, veb_delete self x = Ok s ∧ reachable R s ∧
        valueRange s = valueRange self ∧
        ∀ y, ∃ b, veb_contains s y = Ok b ∧
                  (b = true ↔ stored self y ∧ y ≠ x)).
Proof.
  intros Hr Hlog Hx. pose proof (reachable_wf _ _ Hr Hlog) as Hwf.
  pose proof Hx as Hx'. rewrite (wf_valueRange _ _ Hwf) in Hx'.
  pose proof (λ y, stored_elem _ self y Hwf) as Hst. split.
  - destruct (veb_insert_spec _ _ x Hwf Hx') as (s & Hs & Hwfs & Hel).
    exists s. split; [done|]. split; [by eapply reach_insert|].
    split; [by rewrite (wf_valueRange _ _ Hwfs), (wf_valueRange _ _ Hwf)|].
    intros y. destruct (veb_contains_spec _ s y Hwfs) as (b & -> & Hb).
    exists b. split; [done|]. by rewrite Hb, Hel, Hst.
  - destruct (veb_delete_spec _ _ x Hwf) as (s & Hs & Hwfs & Hel).
    exists s. split; [done|]. split; [by eapply reach_delete|].
    split; [by rewrite (wf_valueRange _ _ Hwfs), (wf_valueRange _ _ Hwf)|].
    intros y. destruct (veb_contains_spec _ s y Hwfs) as (b & -> & Hb).
    exists b. split; [done|]. by rewrite Hb, Hel, Hst.
Qed.

(** ** Arguments outside the universe, in any reachable state *)

Lemma insert_cluster_returns k ins vr mn mx a y :
  insert_ok k ins → wf k (Tree vr mn mx (Some a)) → 0 ≤ y < 2 ^ k →
  ∀ mn' mx', ∃ a',
    insert_cluster ins (Tree vr mn' mx' (Some a)) y
    = Ok (Tree vr mn' mx' (Some a')).
Proof.
  intros Hins Hwf Hy mn' mx'.
  destruct (wf_node_inv _ _ _ _ _ Hwf)
    as (_ & Hk & _ & Ha & Hch & _ & Hs & _ & Hlog & _).
  pose proof (child_bits k Hk Hlog) as (Hcb & Hsb & Hcp & Hsp & Hcl & Hsl).
  pose proof (clusterIndex_range k Hk _ a Ha y Hy) as Hci.
  pose proof (valueIndex_range k Hk _ a Ha y) as Hvi.
  pose proof Ha as (_ & Hl & Hh & _).
  unfold insert_cluster. simpl.
  destruct (cluster a !! clusterIndex a y) as [c|] eqn:Ec.
  - destruct (Hch _ _ Ec) as [Hwfc _].
    destruct (Hins (cluster_bits k) c (valueIndex a y)) as (c' & -> & _); [lia|done|lia|].
    simpl. eauto.
  - assert (∃ s, match summary a with
                 | Some s => Ok s
                 | None => init (hsqrt a)
                 end = Ok s ∧ wf (summary_bits k) s) as (s & -> & Hwfs).
    { destruct (summary a) as [s|] eqn:Es.
      - exists s. split; [done|]. by apply Hs.
      - rewrite Hh, init_summary by done. eexists. split; [done|].
        apply wf_fresh; (done || lia). }
    simpl.
    destruct (Hins (summary_bits k) s (clusterIndex a y)) as (s' & -> & _);
      [lia|done|lia|].
    simpl. rewrite Hl, init_cluster by done. simpl.
    destruct (Hins (cluster_bits k) (fresh (cluster_bits k)) (valueIndex a y)) as (c' & -> & _);
      [lia|apply wf_fresh; (done || lia)|lia|].
    simpl. eauto.
Qed.

Lemma contains_bound self x :
  min self = Some x ∨ max self = Some x → veb_contains self x = Ok true.
Proof.
  intros H. unfold veb_contains, depth. simpl.
  by destruct (decide (min self = Some x ∨ max self = Some x)).
Qed.


Lemma successor_above fuel : ∀ k self x,
  wf k self → 1 ≤ k → k < Z.of_nat fuel → 2 ^ k ≤ x →
  successor fuel self x = Ok None.
Proof.
  induction fuel as [|fuel IH]; intros k self x Hwf Hk1 Hfuel Hx; [lia|].
  pose proof (wf_bounds _ _ Hwf) as Hbd.
  destruct self as [vr mn mx [a|]]; cbn [successor valueRange min max].
  - destruct (wf_node_inv _ _ _ _ _ Hwf)
      as (-> & Hk & _ & Ha & Hch & _ & Hs & Hs0 & Hlog & Hval).
    pose proof (half_bits k Hk) as (Hh1 & Hh2 & Hh3 & Hh4 & Hh5).
  pose proof (child_bits k Hk Hlog) as (Hcb & Hsb & Hcp & Hsp & Hcl & Hsl).
    pose proof (L_pos k Hk) as HL. pose proof (universe_split k Hk) as Hsplit.
    destruct (decide (2 ^ k = 2)) as [E|_]; [apply pow2_eq_2 in E; lia|].
    assert (match mn with
            | Some mn0 => bool_decide (x < mn0)
            | None => false
            end = false) as ->.
    { destruct mn as [mn|], mx as [mx|]; simpl in Hbd; try done.
      apply bool_decide_eq_false. lia. }
    simpl.
    assert (2 ^ ((k + 1) / 2) ≤ clusterIndex a x) as Hci.
    { rewrite (clusterIndex_div k Hk _ a Ha).
      apply Z.div_le_lower_bound; lia. }
    destruct (cluster a !! clusterIndex a x) as [c|] eqn:Ec.
    { pose proof (cluster_keys _ _ _ _ _ _ _ Hwf Ec). lia. }
    unfold successor_summary, successor_bound. simpl.
    assert (match mx with
            | Some mx0 => if decide (x < mx0) then Some mx0 else None
            | None => None
            end = None) as Hbound.
    { destruct mn as [mn|], mx as [mx|]; simpl in Hbd; try done.
      destruct (decide (x < mx)); [lia|done]. }
    destruct (summary a) as [s|] eqn:Es; [|by rewrite Hbound].
    destruct (Hs s eq_refl) as (Hwfs & _ & Hkeys).
    destruct (decide (clusterIndex a x < 2 ^ summary_bits k)) as [Hin'|Hout'].
    + destruct (successor_spec fuel (summary_bits k) s (clusterIndex a x))
        as (r & -> & Hr); [lia|done|lia|].
      destruct r as [p|]; simpl in Hr; [|simpl; by rewrite Hbound].
      destruct Hr as (Hp & Hlt & _). apply Hkeys in Hp as [c Ec'].
      pose proof (cluster_keys _ _ _ _ _ _ _ Hwf Ec'). lia.
    + rewrite (IH (summary_bits k) s) by (done || lia). simpl.
      by rewrite Hbound.
  - inversion Hwf as [k' ? ? Hk' Hb|]; subst.
    assert (k = 1) as -> by lia. change (2 ^ 1) with 2 in *.
    destruct (decide (2 = 2)); [|done].
    destruct (decide (x = 0 ∧ mx = Some 1)) as [[? _]|]; [lia|done].
Qed.

Lemma predecessor_below fuel : ∀ k self x,
  wf k self → 1 ≤ k → k < Z.of_nat fuel → x < 0 →
  predecessor fuel self x = Ok None.
Proof.
  induction fuel as [|fuel IH]; intros k self x Hwf Hk1 Hfuel Hx; [lia|].
  pose proof (wf_bounds _ _ Hwf) as Hbd.
  destruct self as [vr mn mx [a|]]; cbn [predecessor valueRange min max].
  - destruct (wf_node_inv _ _ _ _ _ Hwf)
      as (-> & Hk & _ & Ha & Hch & _ & Hs & Hs0 & Hlog & Hval).
    pose proof (half_bits k Hk) as (Hh1 & Hh2 & Hh3 & Hh4 & Hh5).
  pose proof (child_bits k Hk Hlog) as (Hcb & Hsb & Hcp & Hsp & Hcl & Hsl).
    pose proof (L_pos k Hk) as HL.
    destruct (decide (2 ^ k = 2)) as [E|_]; [apply pow2_eq_2 in E; lia|].
    assert (match mx with
            | Some mx0 => bool_decide (x > mx0)
            | None => false
            end = false) as ->.
    { destruct mn as [mn|], mx as [mx|]; simpl in Hbd; try done.
      apply bool_decide_eq_false. lia. }
    simpl.
    assert (clusterIndex a x < 0) as Hci.
    { rewrite (clusterIndex_div k Hk _ a Ha).
      apply Z.div_lt_upper_bound; lia. }
    destruct (cluster a !! clusterIndex a x) as [c|] eqn:Ec.
    { pose proof (cluster_keys _ _ _ _ _ _ _ Hwf Ec). lia. }
    unfold predecessor_summary, predecessor_bound. simpl.
    assert (match mn with
            | Some mn0 => if decide (x > mn0) then Some mn0 else None
            | None => None
            end = None) as Hbound.
    { destruct mn as [mn|], mx as [mx|]; simpl in Hbd; try done.
      destruct (decide (x > mn)); [lia|done]. }
    destruct (summary a) as [s|] eqn:Es; [|by rewrite Hbound].
    destruct (Hs s eq_refl) as (Hwfs & _).
    rewrite (IH (summary_bits k) s) by (done || lia). simpl. by rewrite Hbound.
  - inversion Hwf as [k' ? ? Hk' Hb|]; subst.
    assert (k = 1) as -> by lia. change (2 ^ 1) with 2 in *.
    destruct (decide (2 = 2)); [|done].
    destruct (decide (x = 1 ∧ mn = Some 0)) as [[? _]|]; [lia|done].
Qed.

(** X17. [predecessor] and [successor] never reject an argument: in every
    reachable state of a structure whose universe, as [__init__] computed
    it, has at least 2 values (the floating-point logarithm being as
    [log_ok] says) they return normally for every x outside
    [0, universeSize).  Above the
    universe [successor(x)] is none and [predecessor(x)] is [max]; below it
    [predecessor(x)] is none and [successor(x)] is [min]; except that a
    structure of universe size 2 answers none in all four cases, whatever
    it stores. *)
Theorem neighbours_out_of_range R self x :
  reachable R self → log_ok (ceil_log2 R) → 2 ≤ valueRange self →
  (valueRange self ≤ x →
     veb_successor self x = Ok None ∧
     veb_predecessor self x
     = Ok (if decide (valueRange self = 2) then None else max self)) ∧
  (x < 0 →
     veb_predecessor self x = Ok None ∧
     veb_successor self x
     = Ok (if decide (valueRange self = 2) then None else min self)).
Proof.
  intros Hr Hlog HR. pose proof (reachable_wf _ _ Hr Hlog) as Hwf.
  assert (Hk : 1 ≤ ceil_log2 R) by exact (bits_pos _ _ Hwf HR).
  pose proof (wf_bounds _ _ Hwf) as Hbd.
  pose proof (wf_depth _ _ Hwf) as Hd.
  rewrite (wf_valueRange _ _ Hwf).
  assert (Hempty : min self = None → self = fresh (ceil_log2 R)).
  { intros E. apply wf_empty_fresh; [done|]. intros y.
    by apply (min_None_empty _ _ _ Hwf). }
  assert (Hnone : ∀ mm : VanEmdeBoasTree → option Z,
            mm (fresh (ceil_log2 R)) = None →
            Ok None = Ok (if decide (2 ^ ceil_log2 R = 2) then None
                          else mm (fresh (ceil_log2 R)))).
  { intros mm ->. by destruct (decide (2 ^ ceil_log2 R = 2)). }
  split; intros Hx.
  - split; [by apply (successor_above _ (ceil_log2 R))|].
    destruct (min self) as [mn|] eqn:Emn; cycle 1.
    { rewrite (Hempty eq_refl).
      destruct (fresh_neighbours (ceil_log2 R) x Hk) as [-> _].
      apply Hnone. unfold fresh. by destruct (decide (ceil_log2 R ≤ 1)). }
    destruct (max self) as [mx|] eqn:Emx; [|done]. simpl in Hbd.
    unfold veb_predecessor. rewrite (veb_unfold _ _ Hwf). cbn [predecessor].
    rewrite (wf_valueRange _ _ Hwf), Emx.
    destruct (decide (2 ^ ceil_log2 R = 2)) as [E|_].
    + destruct (decide (x = 1 ∧ min self = Some 0)) as [[-> _]|]; [|done].
      apply pow2_eq_2 in E; [|lia]. rewrite E in Hx. simpl in Hx. lia.
    + rewrite bool_decide_eq_true_2 by lia. done.
  - split; [by apply (predecessor_below _ (ceil_log2 R))|].
    destruct (min self) as [mn|] eqn:Emn; cycle 1.
    { rewrite (Hempty eq_refl).
      destruct (fresh_neighbours (ceil_log2 R) x Hk) as [_ ->].
      by destruct (decide (2 ^ ceil_log2 R = 2)). }
    destruct (max self) as [mx|] eqn:Emx; [|done]. simpl in Hbd.
    unfold veb_successor. rewrite (veb_unfold _ _ Hwf). cbn [successor].
    rewrite (wf_valueRange _ _ Hwf), Emn.
    destruct (decide (2 ^ ceil_log2 R = 2)) as [E|_].
    + destruct (decide (x = 0 ∧ max self = Some 1)) as [[-> _]|]; [lia|done].
    + rewrite bool_decide_eq_true_2 by lia. done.
Qed.

End Verification.

(* ================================================================= *)
(** * Concrete instances *)

(** The structures of this part have ranges 1, 2, 5 and 16, with nodes over
    at most 16 values: at these sizes the floating-point logarithm returns
    the exact values 0, 1, 2, 3 and 4, so [ceil_log2] is [exact_log]. *)

Section Exact.
#[local] Existing Instance exact_log.

(** The exact logarithm is right on every power of two. *)
Lemma exact_log_ok K : log_ok K.
Proof.
  intros j Hj. unfold ceil_log2, exact_log.
  rewrite Z.log2_up_pow2 by lia. lia.
Qed.

(** ** The base case *)

(** C9. In a universe-2 node, delete behaves as specified: if min = max and
    that single value is x, both bounds become absent; otherwise, with both
    0 and 1 stored, [delete(0)] sets min to 1 and [delete(1)] sets max to 0
    (the remaining value becomes both bounds); concretely, after
    [insert(0); insert(1); delete(0)] on a range-2 structure, [contains(1)]
    is true, [contains(0)] is false, and [predecessor(1)] is none. *)
Theorem base_case_delete :
  (∀ x, veb_delete (Tree 2 (Some x) (Some x) None) x = Ok (Tree 2 None None None)) ∧
  veb_delete (Tree 2 (Some 0) (Some 1) None) 0
    = Ok (Tree 2 (Some 1) (Some 1) None) ∧
  veb_delete (Tree 2 (Some 0) (Some 1) None) 1
    = Ok (Tree 2 (Some 0) (Some 0) None) ∧
  ∃ t0 self,
    init 2 = Ok t0 ∧ valueRange t0 = 2 ∧
    run [Insert 0; Insert 1; Delete 0] t0 = Ok self ∧
    self = Tree 2 (Some 1) (Some 1) None ∧
    veb_contains self 1 = Ok true ∧
    veb_contains self 0 = Ok false ∧
    veb_predecessor self 1 = Ok None.
Proof.
  split; [|split; [done|split; [done|]]].
  - intros x. unfold veb_delete, depth. simpl.
    destruct (decide (x < x)); [lia|]. destruct (decide (x > x)); [lia|].
    by destruct (decide (Some x = Some x)).
  - exists (Tree 2 None None None), (Tree 2 (Some 1) (Some 1) None).
    repeat split.
Qed.

(** C4, at the range 1: the universe size is 1, not 2; the node has neither
    the shape of the base case nor the attributes of a larger one, so
    [predecessor], [successor] and enumeration fail on it. *)
Theorem init_range_one :
  ∃ t0 t1, init 1 = Ok t0 ∧ valueRange t0 = 1 ∧ inner t0 = None ∧
    veb_insert t0 0 = Ok t1 ∧ veb_contains t1 0 = Ok true ∧
    veb_predecessor t0 0 = Raise AttributeError ∧
    veb_successor t0 0 = Raise AttributeError ∧
    veb_successor t1 0 = Raise AttributeError.
Proof.
  exists (Tree 1 None None None), (Tree 1 (Some 0) (Some 0) None).
  repeat split.
Qed.

(** C2, at the range 1: [predecessor(0)] and [successor(0)] raise
    [AttributeError] instead of returning none. *)
Theorem neighbours_range_one :
  ∃ t0, init 1 = Ok t0 ∧ (∀ x, 0 ≤ x < valueRange t0 ↔ x = 0) ∧
    (∀ x, veb_contains t0 x = Ok false) ∧
    veb_predecessor t0 0 = Raise AttributeError ∧
    veb_successor t0 0 = Raise AttributeError.
Proof.
  exists (Tree 1 None None None). split; [done|]. split; [simpl; lia|].
  repeat split.
Qed.

(** C8, at the range 1: enumerating the structure that stores 0 raises
    [AttributeError] when the generator asks for the successor of 0. *)
Theorem iter_range_one :
  ∃ t0 t1, init 1 = Ok t0 ∧ veb_insert t0 0 = Ok t1 ∧
    (∀ x, veb_contains t1 x = Ok true ↔ x = 0) ∧
    iter t1 = Raise AttributeError.
Proof.
  exists (Tree 1 None None None), (Tree 1 (Some 0) (Some 0) None).
  split; [done|]. split; [done|]. split; [|done].
  intros x. unfold veb_contains, depth. simpl.
  destruct (decide (Some 0 = Some x ∨ Some 0 = Some x)) as [[E|E]|Hne].
  - by injection E as <-.
  - by injection E as <-.
  - assert (x ≠ 0) by (intros ->; tauto).
    destruct (decide (x < 0)), (decide (x > 0)); try lia; split; done.
Qed.

(** C5 fails: a structure of universe size 8 accepts the value 8, and
    answers queries on values outside the universe, with no signal. *)
Lemma out_of_range_accepted :
  ∃ t0 t1, init 5 = Ok t0 ∧ valueRange t0 = 8 ∧
    veb_insert t0 8 = Ok t1 ∧ veb_contains t1 8 = Ok true ∧
    veb_contains t0 (-1) = Ok false ∧ veb_delete t0 8 = Ok t0 ∧
    veb_predecessor t0 100 = Ok None ∧ veb_successor t0 (-3) = Ok None.
Proof.
  exists (fresh 3), (Tree 8 (Some 8) (Some 8) (inner (fresh 3))).
  repeat split.
Qed.

(** ** Instances of the theorems *)

(** The logarithm is right on 2, 4 and 8. *)
Lemma sample_log_ok : log_ok (ceil_log2 16).
Proof.
  intros j Hj. change (ceil_log2 16) with 4 in Hj.
  assert (j = 1 ∨ j = 2 ∨ j = 3) as [Ej|[Ej|Ej]] by lia; subst j.
  - change (ceil_log2 (2 ^ 1)) with 1. lia.
  - change (ceil_log2 (2 ^ 2)) with 2. lia.
  - change (ceil_log2 (2 ^ 3)) with 3. lia.
Defined.

Lemma range_five_log_ok : log_ok (ceil_log2 5).
Proof.
  intros j Hj. change (ceil_log2 5) with 3 in Hj.
  assert (j = 1 ∨ j = 2) as [Ej|Ej] by lia; subst j.
  - change (ceil_log2 (2 ^ 1)) with 1. lia.
  - change (ceil_log2 (2 ^ 2)) with 2. lia.
Defined.

Lemma sample_reachable : reachable 16 sample.
Proof.
  apply (run_reachable 16 sample_ops (fresh 4)).
  - exact sample_log_ok.
  - apply reach_init. reflexivity.
  - repeat constructor; simpl; lia.
  - vm_compute. reflexivity.
Defined.

Lemma contains_reflects_history_witness :
  log_ok (ceil_log2 16) ∧ init 16 = Ok (fresh 4) ∧
  Forall (λ o, 0 ≤ arg o < valueRange (fresh 4))
    [Insert 3; Insert 9; Delete 3; Insert 12] ∧
  ∃ self, run [Insert 3; Insert 9; Delete 3; Insert 12] (fresh 4) = Ok self ∧
    (∀ x, veb_contains self x = Ok true
          ↔ live [Insert 3; Insert 9; Delete 3; Insert 12] x) ∧
    (∀ x, veb_contains self x = Ok false
          ↔ ¬ live [Insert 3; Insert 9; Delete 3; Insert 12] x) ∧
    (∀ x, 0 ≤ x < valueRange (fresh 4) → veb_contains self x = Ok true →
       ∃ self', veb_insert self x = Ok self' ∧
                ∀ y, veb_contains self' y = veb_contains self y) ∧
    (∀ x, 0 ≤ x < valueRange (fresh 4) → veb_contains self x = Ok false →
       ∃ self', veb_delete self x = Ok self' ∧
                ∀ y, veb_contains self' y = veb_contains self y).
Proof.
  assert (H1 : init 16 = Ok (fresh 4)) by reflexivity.
  assert (H2 : Forall (λ o, 0 ≤ arg o < valueRange (fresh 4))
                 [Insert 3; Insert 9; Delete 3; Insert 12])
    by (repeat constructor; simpl; lia).
  split; [exact sample_log_ok|]. split; [exact H1|]. split; [exact H2|].
  exact (contains_reflects_history 16 _ (fresh 4) sample_log_ok H1 H2).
Defined.

Lemma sample_cluster_node : node_of sample sample_cluster.
Proof.
  eapply node_child; [apply node_self|].
  eapply (child_cluster sample _ 0); [reflexivity|].
  vm_compute. reflexivity.
Defined.

Lemma reachable_structural_invariant_witness :
  reachable 16 sample ∧ log_ok (ceil_log2 16) ∧ node_of sample sample_cluster ∧
  structural_invariant sample_cluster ∧ singleton_unconsulted sample_cluster ∧
  singleton_no_recursion sample_cluster.
Proof.
  split; [exact sample_reachable|]. split; [exact sample_log_ok|]. split; [exact sample_cluster_node|].
  exact (reachable_structural_invariant 16 sample sample_cluster
           sample_reachable sample_log_ok sample_cluster_node).
Defined.

Lemma sample_large : valueRange sample > 2.
Proof. vm_compute. reflexivity. Defined.

Lemma clusters_exclude_bounds_witness :
  reachable 16 sample ∧ log_ok (ceil_log2 16) ∧ node_of sample sample ∧ valueRange sample > 2 ∧
  (∀ x, clustered sample x
        ↔ stored sample x ∧ min sample ≠ Some x ∧ max sample ≠ Some x) ∧
  (∀ x, stored sample x
        ↔ min sample = Some x ∨ max sample = Some x ∨ clustered sample x) ∧
  (∀ x, min sample = Some x → ¬ clustered sample x) ∧
  (∀ x, max sample = Some x → ¬ clustered sample x).
Proof.
  split; [exact sample_reachable|]. split; [exact sample_log_ok|]. split; [apply node_self|].
  split; [exact sample_large|].
  exact (clusters_exclude_bounds 16 sample sample
           sample_reachable sample_log_ok (node_self sample) sample_large).
Defined.

Lemma sample_in_range : 0 ≤ 7 < valueRange sample.
Proof. vm_compute. split; [discriminate|reflexivity]. Defined.

Lemma insert_delete_idempotent_witness :
  reachable 16 sample ∧ log_ok (ceil_log2 16) ∧ 0 ≤ 7 < valueRange sample ∧
  (∃ s1, veb_insert sample 7 = Ok s1 ∧
         run [Insert 7; Insert 7] sample = Ok s1) ∧
  (∃ s2, veb_delete sample 7 = Ok s2 ∧
         run [Delete 7; Delete 7] sample = Ok s2).
Proof.
  split; [exact sample_reachable|]. split; [exact sample_log_ok|]. split; [exact sample_in_range|].
  exact (insert_delete_idempotent 16 sample 7 sample_reachable sample_log_ok sample_in_range).
Defined.

Lemma sample_out_of_range : ¬ (0 ≤ 16 < valueRange sample).
Proof. vm_compute. intros [_ H]. discriminate. Defined.

Lemma out_of_range_unchecked_witness :
  reachable 16 sample ∧ log_ok (ceil_log2 16) ∧ ¬ (0 ≤ 16 < valueRange sample) ∧
  veb_contains sample 16 = Ok false ∧
  veb_delete sample 16 = Ok sample ∧
  ∀ t0, init 16 = Ok t0 →
    veb_insert t0 16
      = Ok (Tree (valueRange t0) (Some 16) (Some 16) (inner t0)) ∧
    veb_contains (Tree (valueRange t0) (Some 16) (Some 16) (inner t0)) 16
      = Ok true ∧
    (2 ≤ valueRange sample →
       veb_predecessor t0 16 = Ok None ∧ veb_successor t0 16 = Ok None ∧
       veb_predecessor
         (Tree (valueRange t0) (Some 16) (Some 16) (inner t0)) 16 = Ok None ∧
       veb_successor
         (Tree (valueRange t0) (Some 16) (Some 16) (inner t0)) 16 = Ok None).
Proof.
  split; [exact sample_reachable|]. split; [exact sample_log_ok|]. split; [exact sample_out_of_range|].
  exact (out_of_range_unchecked 16 sample 16
           sample_reachable sample_log_ok sample_out_of_range).
Defined.

Lemma insert_all_delete_all_witness :
  log_ok (ceil_log2 16) ∧ init 16 = Ok (fresh 4) ∧ NoDup [3; 9; 12] ∧
  Forall (λ x, 0 ≤ x < valueRange (fresh 4)) [3; 9; 12] ∧
  [9; 3; 12] ≡ₚ [3; 9; 12] ∧
  ∃ self,
    run ((Insert <$> [3; 9; 12]) ++ (Delete <$> [9; 3; 12])) (fresh 4)
      = Ok self ∧
    self = fresh 4 ∧
    (∀ c, ¬ child c self) ∧
    (∀ a, inner self = Some a → summary a = None ∧ cluster a = ∅) ∧
    (∀ x, veb_contains self x = Ok false).
Proof.
  assert (H1 : init 16 = Ok (fresh 4)) by reflexivity.
  assert (H2 : NoDup [3; 9; 12])
    by (refine (bool_decide_unpack (NoDup [3; 9; 12]) _); vm_compute; exact I).
  assert (H3 : Forall (λ x, 0 ≤ x < valueRange (fresh 4)) [3; 9; 12])
    by (repeat constructor; simpl; lia).
  assert (H4 : [9; 3; 12] ≡ₚ [3; 9; 12]) by apply perm_swap.
  split; [exact sample_log_ok|].
  split; [exact H1|]. split; [exact H2|]. split; [exact H3|].
  split; [exact H4|].
  exact (insert_all_delete_all 16 (fresh 4) [3; 9; 12] [9; 3; 12]
           sample_log_ok H1 H2 H3 H4).
Defined.

Lemma sample_range_two : 2 ≤ valueRange sample.
Proof. vm_compute. discriminate. Defined.

Lemma predecessor_successor_correct_witness :
  reachable 16 sample ∧ log_ok (ceil_log2 16) ∧ 2 ≤ valueRange sample ∧ 0 ≤ 7 < valueRange sample ∧
  veb_predecessor sample 7 = Ok (Some 6) ∧
  veb_successor sample 7 = Ok (Some 9) ∧
  (∀ m, stored sample m → (∀ y, stored sample y → m ≤ y) →
        veb_predecessor sample m = Ok None).
Proof.
  split; [exact sample_reachable|]. split; [exact sample_log_ok|]. split; [exact sample_range_two|].
  split; [exact sample_in_range|]. split; [reflexivity|].
  split; [reflexivity|].
  exact (proj1 (proj2 (proj2 (proj2
           (predecessor_successor_correct 16 sample 7 sample_reachable sample_log_ok
              sample_range_two sample_in_range))))).
Defined.

Lemma iter_sorted_witness :
  reachable 16 sample ∧ log_ok (ceil_log2 16) ∧ 2 ≤ valueRange sample ∧ iter sample = Ok [1; 2; 3; 5; 6; 9] ∧
  ∃ l, iter sample = Ok l ∧ StronglySorted Z.lt l ∧ NoDup l ∧
       ∀ x, x ∈ l ↔ stored sample x.
Proof.
  split; [exact sample_reachable|]. split; [exact sample_log_ok|]. split; [exact sample_range_two|].
  split; [reflexivity|].
  destruct (proj1 (iter_sorted 16 sample sample_reachable sample_log_ok
                     sample_range_two)) as (l & H1 & H2 & H3 & H4 & _).
  exists l. split; [exact H1|]. split; [exact H2|]. split; [exact H3|exact H4].
Defined.

Lemma init_rounds_up_witness :
  2 ≤ 5 ∧ ceil_log2 5 = Z.log2_up 5 ∧ log_ok (ceil_log2 5) ∧
  ∃ t0, init 5 = Ok t0 ∧ valueRange t0 = 8.
Proof.
  split; [lia|]. split; [reflexivity|]. split; [exact range_five_log_ok|].
  destruct (init_rounds_up 5) as (t0 & H0 & _ & _ & _ & _ & _ & H5);
    [lia|reflexivity|exact range_five_log_ok|].
  exists t0. split; [exact H0|]. exact (proj1 (H5 eq_refl)).
Defined.

Lemma history_independent_witness :
  log_ok (ceil_log2 16) ∧ init 16 = Ok (fresh 4) ∧
  Forall (λ o, 0 ≤ arg o < valueRange (fresh 4))
    [Insert 3; Insert 9; Delete 3] ∧
  Forall (λ o, 0 ≤ arg o < valueRange (fresh 4)) [Insert 9; Insert 9] ∧
  model [Insert 3; Insert 9; Delete 3] = model [Insert 9; Insert 9] ∧
  ∃ self, run [Insert 3; Insert 9; Delete 3] (fresh 4) = Ok self ∧
          run [Insert 9; Insert 9] (fresh 4) = Ok self.
Proof.
  assert (H1 : init 16 = Ok (fresh 4)) by reflexivity.
  assert (H2 : Forall (λ o, 0 ≤ arg o < valueRange (fresh 4))
                 [Insert 3; Insert 9; Delete 3])
    by (repeat constructor; simpl; lia).
  assert (H3 : Forall (λ o, 0 ≤ arg o < valueRange (fresh 4))
                 [Insert 9; Insert 9])
    by (repeat constructor; simpl; lia).
  assert (H4 : model [Insert 3; Insert 9; Delete 3]
               = model [Insert 9; Insert 9])
    by (vm_compute; reflexivity).
  split; [exact sample_log_ok|].
  split; [exact H1|]. split; [exact H2|]. split; [exact H3|].
  split; [exact H4|].
  exact (history_independent 16 (fresh 4) _ _ sample_log_ok H1 H2 H3 H4).
Defined.

Lemma sample_in_range_low : 0 ≤ 2 < valueRange sample.
Proof. vm_compute. split; [discriminate|reflexivity]. Defined.

Lemma insert_delete_compose_witness :
  reachable 16 sample ∧ log_ok (ceil_log2 16) ∧ 0 ≤ 7 < valueRange sample ∧
  0 ≤ 2 < valueRange sample ∧
  ∃ s, run [Insert 7; Insert 2] sample = Ok s ∧
       run [Insert 2; Insert 7] sample = Ok s.
Proof.
  split; [exact sample_reachable|]. split; [exact sample_log_ok|]. split; [exact sample_in_range|].
  split; [exact sample_in_range_low|].
  exact (proj1 (insert_delete_compose 16 sample 7 2 sample_reachable sample_log_ok
                  sample_in_range sample_in_range_low)).
Defined.

Lemma bounds_are_extremes_witness :
  reachable 16 sample ∧ log_ok (ceil_log2 16) ∧
  ∀ a, min sample = Some a ↔ stored sample a ∧ ∀ y, stored sample y → a ≤ y.
Proof.
  split; [exact sample_reachable|]. split; [exact sample_log_ok|].
  exact (proj1 (bounds_are_extremes 16 sample sample_reachable sample_log_ok)).
Defined.

Lemma delete_promotes_neighbour_witness :
  reachable 16 sample ∧ log_ok (ceil_log2 16) ∧ 2 ≤ valueRange sample ∧ min sample = Some 1 ∧
  ∃ self', veb_delete sample 1 = Ok self' ∧
           veb_successor sample 1 = Ok (min self').
Proof.
  split; [exact sample_reachable|]. split; [exact sample_log_ok|]. split; [exact sample_range_two|].
  split; [reflexivity|].
  exact (proj1 (delete_promotes_neighbour 16 sample sample_reachable sample_log_ok
                  sample_range_two) 1 eq_refl).
Defined.

Lemma contains_by_neighbours_witness :
  reachable 16 sample ∧ log_ok (ceil_log2 16) ∧ 2 ≤ valueRange sample ∧ 0 ≤ 7 < valueRange sample ∧ 1 ≤ 7 ∧
  (veb_contains sample 7 = Ok true
   ↔ veb_successor sample (7 - 1) = Ok (Some 7)).
Proof.
  assert (H : 1 ≤ 7) by lia.
  split; [exact sample_reachable|]. split; [exact sample_log_ok|]. split; [exact sample_range_two|].
  split; [exact sample_in_range|]. split; [exact H|].
  exact (proj1 (contains_by_neighbours 16 sample 7 sample_reachable sample_log_ok
                  sample_range_two sample_in_range) H).
Defined.

Lemma sample_iter : iter sample = Ok [1; 2; 3; 5; 6; 9].
Proof. vm_compute. reflexivity. Defined.

Lemma iter_after_update_witness :
  reachable 16 sample ∧ log_ok (ceil_log2 16) ∧ 2 ≤ valueRange sample ∧ 0 ≤ 7 < valueRange sample ∧
  iter sample = Ok [1; 2; 3; 5; 6; 9] ∧
  ∃ s, veb_delete sample 7 = Ok s ∧
       iter s = Ok (filter (λ y, y ≠ 7) [1; 2; 3; 5; 6; 9]).
Proof.
  split; [exact sample_reachable|]. split; [exact sample_log_ok|]. split; [exact sample_range_two|].
  split; [exact sample_in_range|]. split; [exact sample_iter|].
  exact (proj2 (iter_after_update 16 sample 7 _ sample_reachable sample_log_ok
                  sample_range_two sample_in_range sample_iter)).
Defined.

Lemma iter_links_witness :
  reachable 16 sample ∧ log_ok (ceil_log2 16) ∧ 2 ≤ valueRange sample ∧ iter sample = Ok [1; 2; 3; 5; 6; 9] ∧
  head [1; 2; 3; 5; 6; 9] = min sample ∧
  last [1; 2; 3; 5; 6; 9] = max sample.
Proof.
  split; [exact sample_reachable|]. split; [exact sample_log_ok|]. split; [exact sample_range_two|].
  split; [exact sample_iter|].
  pose proof (iter_links 16 sample _ sample_reachable sample_log_ok sample_range_two
                sample_iter) as H.
  split; [exact (proj1 H)|exact (proj1 (proj2 H))].
Defined.

Lemma sample_bits : ceil_log2 16 ≤ width_bound 2.
Proof. vm_compute. discriminate. Defined.


Lemma node_universes_witness :
  reachable 16 sample ∧ log_ok (ceil_log2 16) ∧ node_of sample sample_cluster ∧
  ∃ k, 0 ≤ k ≤ ceil_log2 16 ∧ valueRange sample_cluster = 1 ≪ k.
Proof.
  split; [exact sample_reachable|]. split; [exact sample_log_ok|]. split; [exact sample_cluster_node|].
  destruct (node_universes 16 sample sample_cluster sample_reachable sample_log_ok
              sample_cluster_node) as (k & Hk & Hvr & _).
  exists k. split; [exact Hk|exact Hvr].
Defined.

Lemma sample_inner : inner sample = Some sample_attrs.
Proof. reflexivity. Defined.

Lemma split_round_trip_witness :
  reachable 16 sample ∧ log_ok (ceil_log2 16) ∧ node_of sample sample ∧
  inner sample = Some sample_attrs ∧
  ∀ x, value sample_attrs (clusterIndex sample_attrs x)
         (Some (valueIndex sample_attrs x)) = Ok x ∧
       0 ≤ valueIndex sample_attrs x < lsqrt sample_attrs ∧
       (0 ≤ x < valueRange sample
        ↔ 0 ≤ clusterIndex sample_attrs x < hsqrt sample_attrs).
Proof.
  split; [exact sample_reachable|]. split; [exact sample_log_ok|]. split; [exact (node_self sample)|].
  split; [exact sample_inner|].
  exact (proj1 (split_round_trip 16 sample sample sample_attrs
                  sample_reachable sample_log_ok (node_self sample) sample_inner)).
Defined.

Lemma fresh_reachable : reachable 16 (fresh 4).
Proof. apply reach_init. reflexivity. Defined.

Lemma sample_digits : valueRange sample ≤ 10 ^ max_str_digits.
Proof.
  change (valueRange sample) with (10 ^ 1 + 6).
  assert (10 ^ 1 ≤ 10 ^ max_str_digits)
    by (apply Z.pow_le_mono_r; [lia|vm_compute; discriminate]).
  assert (10 ^ 1 + 6 ≤ 10 ^ 2) by (vm_compute; discriminate).
  assert (10 ^ 2 ≤ 10 ^ max_str_digits)
    by (apply Z.pow_le_mono_r; [lia|vm_compute; discriminate]).
  lia.
Defined.

Lemma str_identifies_state_witness :
  reachable 16 sample ∧ reachable 16 (fresh 4) ∧ log_ok (ceil_log2 16) ∧
  2 ≤ valueRange sample ∧ valueRange sample ≤ 10 ^ max_str_digits ∧
  str sample = Ok "(1, 2, 3, 5, 6, 9)" ∧ str (fresh 4) = Ok "()" ∧
  (str sample = str (fresh 4) → sample = fresh 4).
Proof.
  split; [exact sample_reachable|]. split; [exact fresh_reachable|].
  split; [exact sample_log_ok|]. split; [exact sample_range_two|].
  split; [exact sample_digits|].
  pose proof (str_identifies_state 16 sample (fresh 4) sample_reachable
                fresh_reachable sample_log_ok sample_range_two sample_digits)
    as (Hl & Hnil & _ & Hinj).
  split; [|split; [|exact Hinj]].
  - destruct Hl as (l & Hit & _ & _ & Hstr & _).
    rewrite sample_iter in Hit. injection Hit as <-. exact Hstr.
  - destruct (str_identifies_state 16 (fresh 4) sample fresh_reachable
                sample_reachable sample_log_ok sample_range_two sample_digits)
      as (_ & Hnil' & _).
    apply Hnil'. intros x. unfold stored. vm_compute. discriminate.
Defined.

Lemma update_membership_witness :
  reachable 16 sample ∧ log_ok (ceil_log2 16) ∧ 0 ≤ 7 < valueRange sample ∧
  ∃ s, veb_insert sample 7 = Ok s ∧ reachable 16 s ∧
       valueRange s = valueRange sample ∧
       ∀ y, ∃ b, veb_contains s y = Ok b ∧
                 (b = true ↔ stored sample y ∨ y = 7).
Proof.
  split; [exact sample_reachable|]. split; [exact sample_log_ok|]. split; [exact sample_in_range|].
  exact (proj1 (update_membership 16 sample 7 sample_reachable sample_log_ok
                  sample_in_range)).
Defined.


Lemma sample_above : valueRange sample ≤ 16.
Proof. vm_compute. discriminate. Defined.

Lemma neighbours_out_of_range_witness :
  reachable 16 sample ∧ log_ok (ceil_log2 16) ∧ 2 ≤ valueRange sample ∧ valueRange sample ≤ 16 ∧
  veb_successor sample 16 = Ok None ∧
  veb_predecessor sample 16
  = Ok (if decide (valueRange sample = 2) then None else max sample).
Proof.
  split; [exact sample_reachable|]. split; [exact sample_log_ok|]. split; [exact sample_range_two|].
  split; [exact sample_above|].
  exact (proj1 (neighbours_out_of_range 16 sample 16 sample_reachable sample_log_ok
                  sample_range_two) sample_above).
Defined.

End Exact.

(** ** A summary wider than [hsqrt] *)

Section Misrounded.
#[local] Existing Instance double_log.

Lemma double_log_ok K : log_ok K.
Proof.
  intros j Hj. unfold ceil_log2, double_log.
  destruct (decide (2 ^ j = 2 ^ 29)) as [E|_].
  - apply (f_equal Z.log2) in E. rewrite !Z.log2_pow2 in E by lia.
    subst j. lia.
  - rewrite Z.log2_up_pow2 by lia. lia.
Qed.

(** The structure of range 2^57 is built as the code builds it: its
    universe has 2^57 values, [hsqrt] is 2^29 and the summary, made by
    [VanEmdeBoasTree(hsqrt)], has a universe of 2^30 values.  It is a
    reachable state under a logarithm that is as [log_ok] says, so the
    theorems above hold of it. *)
Lemma wide_summary :
  ∃ t0 a s, init (2 ^ 57) = Ok t0 ∧ valueRange t0 = 2 ^ 57 ∧
    run wide_ops t0 = Ok wide ∧
    inner wide = Some a ∧ summary a = Some s ∧
    hsqrt a = 2 ^ 29 ∧ valueRange s = 2 ^ 30 ∧
    reachable (2 ^ 57) wide ∧ log_ok (ceil_log2 (2 ^ 57)) ∧
    veb_contains wide 5 = Ok true ∧ veb_contains wide 6 = Ok false ∧
    veb_successor wide 0 = Ok (Some 5) ∧
    veb_predecessor wide (2 ^ 56) = Ok (Some 5).
Proof.
  assert (Hinit : init (2 ^ 57) = Ok (fresh 57)) by (vm_compute; reflexivity).
  assert (Hrun : run wide_ops (fresh 57) = Ok wide)
    by (vm_compute; reflexivity).
  destruct (inner wide) as [a|] eqn:Ea; [|by vm_compute in Ea].
  destruct (summary a) as [s|] eqn:Es;
    [|injection Ea as <-; by vm_compute in Es].
  exists (fresh 57), a, s.
  split; [exact Hinit|]. split; [by vm_compute|]. split; [exact Hrun|].
  split; [done|]. split; [done|].
  split; [injection Ea as <-; by vm_compute|].
  split; [injection Ea as <-; injection Es as <-; by vm_compute|].
  split.
  { apply (run_reachable (2 ^ 57) wide_ops (fresh 57));
      [apply double_log_ok|by apply reach_init| |exact Hrun].
    repeat constructor; by vm_compute. }
  split; [apply double_log_ok|].
  repeat split; by vm_compute.
Qed.

End Misrounded.
